(** * wesee: resume chunk parser, heuristic segmenter, regenerator and editor registry

    A shallow embedding of
      - src/lib/latex-parser.ts        (structural parser),
      - the PDF text segmenter          (parsePdfToChunks, parseTextToChunks
                                         and helpers),
      - the LaTeX generator             (generateLatex, updateChunkInLatex),
      - src/components/ResumeEditor.tsx (chunk registry operations and the
                                         upload handler),
    followed by the properties established for them.

    JavaScript strings are sequences of UTF-16 code units; a code unit is
    modelled as a number in [N] and a string as a list of them.  Regular
    expressions are given a backtracking semantics in continuation-passing
    style, following the matcher of the ECMAScript specification.  The host
    enters through its case mappings and through the number of arguments it
    accepts in one call. *)

From Stdlib Require Import String Ascii DecimalString.
From Stdlib Require Import List NArith ZArith Arith Bool Lia Sorted.
From Stdlib Require Import Permutation.
From Stdlib Require DecimalNat.
Import Corelib.Init.Datatypes.
Import ListNotations.

Set Implicit Arguments.

(* ================================================================== *)
(** ** JavaScript strings *)
(* ================================================================== *)

Module JsString.

Definition char := N.
Definition jsstring := list char.

(** Source literals made of ASCII characters. *)
Definition lit (s : string) : jsstring :=
  map N_of_ascii (list_ascii_of_string s).

Definition LF : char := 10%N.
Definition BULLET : char := 8226%N.  (* U+2022 *)

Definition ch (a : ascii) : char := N_of_ascii a.

Fixpoint str_eqb (a b : jsstring) : bool :=
  match a, b with
  | [], [] => true
  | x :: a', y :: b' => N.eqb x y && str_eqb a' b'
  | _, _ => false
  end.

(** ECMAScript LineTerminator. *)
Definition isLineTerminator (c : char) : bool :=
  (N.eqb c 10 || N.eqb c 13 || N.eqb c 8232 || N.eqb c 8233)%bool.

(** ECMAScript WhiteSpace: TAB, VT, FF, ZWNBSP and the space separators. *)
Definition isWhiteSpace (c : char) : bool :=
  (N.eqb c 9 || N.eqb c 11 || N.eqb c 12 || N.eqb c 32 || N.eqb c 160
   || N.eqb c 5760 || (N.leb 8192 c && N.leb c 8202)
   || N.eqb c 8239 || N.eqb c 8287 || N.eqb c 12288 || N.eqb c 65279)%bool.

(** What [\s] matches and what [trim] strips. *)
Definition isSpace (c : char) : bool :=
  (isWhiteSpace c || isLineTerminator c)%bool.

Definition isUpper (c : char) : bool := (N.leb 65 c && N.leb c 90)%bool.
Definition isLower (c : char) : bool := (N.leb 97 c && N.leb c 122)%bool.
Definition isLetter (c : char) : bool := (isUpper c || isLower c)%bool.
Definition isDigit (c : char) : bool := (N.leb 48 c && N.leb c 57)%bool.

Fixpoint dropWhile (p : char -> bool) (s : jsstring) : jsstring :=
  match s with
  | [] => []
  | c :: s' => if p c then dropWhile p s' else s
  end.

Fixpoint takeWhile (p : char -> bool) (s : jsstring) : jsstring :=
  match s with
  | [] => []
  | c :: s' => if p c then c :: takeWhile p s' else []
  end.

Definition trimStart (s : jsstring) : jsstring := dropWhile isSpace s.
Definition trimEnd (s : jsstring) : jsstring := rev (dropWhile isSpace (rev s)).
(** String.prototype.trim *)
Definition trim (s : jsstring) : jsstring := trimEnd (trimStart s).

Fixpoint startsWith (p s : jsstring) : bool :=
  match p, s with
  | [], _ => true
  | x :: p', y :: s' => N.eqb x y && startsWith p' s'
  | _ :: _, [] => false
  end.

(** [s.split(sep)] for a one-character separator: the pieces between the
    separators, empty pieces kept. *)
Fixpoint split_aux (sep : char) (acc : jsstring) (s : jsstring) : list jsstring :=
  match s with
  | [] => [rev acc]
  | c :: s' =>
      if N.eqb c sep then rev acc :: split_aux sep [] s'
      else split_aux sep (c :: acc) s'
  end.
Definition split (sep : char) (s : jsstring) : list jsstring := split_aux sep [] s.

(** [s.split(/\s+/)]: the pieces between maximal runs of white space. *)
Fixpoint splitSpaces_aux (inrun : bool) (acc : jsstring) (s : jsstring) : list jsstring :=
  match s with
  | [] => [rev acc]
  | c :: s' =>
      if isSpace c then
        if inrun then splitSpaces_aux true acc s'
        else rev acc :: splitSpaces_aux true [] s'
      else splitSpaces_aux false (c :: acc) s'
  end.
Definition splitSpaces (s : jsstring) : list jsstring := splitSpaces_aux false [] s.

(** [l.join(sep)] *)
Fixpoint join (sep : jsstring) (l : list jsstring) : jsstring :=
  match l with
  | [] => []
  | [x] => x
  | x :: l' => x ++ sep ++ join sep l'
  end.

(** [.filter(Boolean)] on an array of strings: the empty string is falsy. *)
Definition nonEmpty (s : jsstring) : bool :=
  match s with [] => false | _ :: _ => true end.

(** Number-to-string conversion of a non-negative integer (template
    literals [`${n}`]). *)
Definition toString (n : nat) : jsstring :=
  lit (NilZero.string_of_uint (Nat.to_uint n)).

(** [a || b] where [a] may be [undefined] and [b] is a string: [a] when it
    is a non-empty string, otherwise [b]. *)
Definition orElse (a : option jsstring) (b : jsstring) : jsstring :=
  match a with
  | Some (c :: s) => c :: s
  | _ => b
  end.

(** Truthiness of a value of type [string | null]. *)
Definition truthy (a : option jsstring) : bool :=
  match a with
  | Some (_ :: _) => true
  | _ => false
  end.

End JsString.
Import JsString.

Arguments lit s%_string.
Arguments ch a%_char.

(* ================================================================== *)
(** ** Regular expressions *)
(* ================================================================== *)

Module Regex.

(** The fragment of the pattern language used by the sources.  Quantifiers
    [*], [*?], [+] only ever apply to a character class there, and [?] to a
    group without captures. *)
Inductive regex : Type :=
| Empty
| Class (p : char -> bool)              (* one code unit of a class *)
| Cat (r1 r2 : regex)                   (* r1 r2 *)
| Alt (r1 r2 : regex)                   (* r1|r2 *)
| Star (lazy : bool) (p : char -> bool) (* [p]*  or  [p]*? *)
| Opt (r : regex)                       (* r? *)
| Group (n : nat) (r : regex)           (* n-th capturing group *)
| Ahead (r : regex)                     (* (?=r) *)
| Bol (multiline : bool)                (* ^ *)
| Eol (multiline : bool).               (* $ *)

(** The position in the input: the code unit before it, if any, and the
    input that is left. *)
Record cursor := Cursor { prev : option char; rest : jsstring }.

Definition caps := list (nat * jsstring).
Definition outcome := (cursor * caps)%type.
Definition cont := cursor -> caps -> option outcome.

Definition consumed (from to : cursor) : jsstring :=
  firstn (length (rest from) - length (rest to)) (rest from).

Definition atBol (multiline : bool) (cur : cursor) : bool :=
  match prev cur with
  | None => true
  | Some c => multiline && isLineTerminator c
  end.

Definition atEol (multiline : bool) (cur : cursor) : bool :=
  match rest cur with
  | [] => true
  | c :: _ => multiline && isLineTerminator c
  end.

(** A quantified class.  Greedy: take a code unit first and fall back to
    the continuation; lazy: try the continuation first. *)
Fixpoint star (lazy : bool) (p : char -> bool) (k : cont)
         (pv : option char) (s : jsstring) (c : caps) {struct s} : option outcome :=
  if lazy then
    match k (Cursor pv s) c with
    | Some r => Some r
    | None =>
        match s with
        | x :: s' => if p x then star lazy p k (Some x) s' c else None
        | [] => None
        end
    end
  else
    match s with
    | x :: s' =>
        if p x then
          match star lazy p k (Some x) s' c with
          | Some r => Some r
          | None => k (Cursor pv s) c
          end
        else k (Cursor pv s) c
    | [] => k (Cursor pv s) c
    end.

(** The backtracking matcher: [m r k cur c] matches [r] at [cur] and calls
    [k] on the position reached; the first alternative for which [k]
    succeeds wins. *)
Fixpoint m (r : regex) (k : cont) (cur : cursor) (c : caps) {struct r} : option outcome :=
  match r with
  | Empty => k cur c
  | Class p =>
      match rest cur with
      | x :: s' => if p x then k (Cursor (Some x) s') c else None
      | [] => None
      end
  | Cat r1 r2 => m r1 (fun cur' c' => m r2 k cur' c') cur c
  | Alt r1 r2 =>
      match m r1 k cur c with
      | Some res => Some res
      | None => m r2 k cur c
      end
  | Star lazy p => star lazy p k (prev cur) (rest cur) c
  | Opt r1 =>
      match m r1 k cur c with
      | Some res => Some res
      | None => k cur c
      end
  | Group n r1 => m r1 (fun cur' c' => k cur' ((n, consumed cur cur') :: c')) cur c
  | Ahead r1 =>
      match m r1 (fun cur' c' => Some (cur', c')) cur c with
      | Some (_, c') => k cur c'
      | None => None
      end
  | Bol ml => if atBol ml cur then k cur c else None
  | Eol ml => if atEol ml cur then k cur c else None
  end.

Definition accept : cont := fun cur c => Some (cur, c).

(** The result of a successful match: [match.index], [match[0]], the
    captures, and the index just after the match. *)
Record MatchResult := MkMatch {
  m_index : nat;
  m_text : jsstring;
  m_groups : caps;
  m_end : nat
}.

Fixpoint lookup (n : nat) (c : caps) : option jsstring :=
  match c with
  | [] => None
  | (k, v) :: c' => if Nat.eqb k n then Some v else lookup n c'
  end.

(** [match[n]]; [None] stands for [undefined]. *)
Definition group (n : nat) (mt : MatchResult) : option jsstring :=
  lookup n (m_groups mt).

(** Try the pattern at [idx], then at every later index. *)
Fixpoint search (r : regex) (idx : nat) (pv : option char) (s : jsstring)
  : option MatchResult :=
  match m r accept (Cursor pv s) [] with
  | Some (cur', c) =>
      let text := consumed (Cursor pv s) cur' in
      Some (MkMatch idx text c (idx + length text))
  | None =>
      match s with
      | [] => None
      | x :: s' => search r (S idx) (Some x) s'
      end
  end.

Definition charBefore (input : jsstring) (i : nat) : option char :=
  match i with
  | 0 => None
  | S j => nth_error input j
  end.

(** [re.exec(input)] with [re.lastIndex = lastIndex]. *)
Definition exec (r : regex) (input : jsstring) (lastIndex : nat) : option MatchResult :=
  if Nat.ltb (length input) lastIndex then None
  else search r lastIndex (charBefore input lastIndex) (skipn lastIndex input).

(** [input.match(re)] and [re.test(input)] for a pattern without the [g]
    flag. *)
Definition str_match (r : regex) (input : jsstring) : option MatchResult :=
  exec r input 0.
Definition test (r : regex) (input : jsstring) : bool :=
  match exec r input 0 with Some _ => true | None => false end.

(** [while ((match = re.exec(input)) !== null) body], for a pattern with
    the [g] flag.  The loop state is threaded through [body]; [None] when
    the body throws, or when the loop does not end within [fuel] rounds.
    A loop that ends moves [lastIndex] forward in every round but the last,
    so it ends within [length input + 1] rounds; a loop that meets an empty
    match never ends, since [exec] then leaves [lastIndex] where it is, and
    runs out of any fuel. *)
Fixpoint while_exec {S : Type} (fuel : nat) (r : regex) (input : jsstring)
         (lastIndex : nat) (body : MatchResult -> S -> option S) (st : S) : option S :=
  match fuel with
  | 0 => None
  | Datatypes.S fuel' =>
      match exec r input lastIndex with
      | None => Some st
      | Some mt =>
          match body mt st with
          | None => None
          | Some st' => while_exec fuel' r input (m_end mt) body st'
          end
      end
  end.

(** [input.matchAll(re)]: every match from left to right; after an empty
    match the search resumes one code unit further. *)
Fixpoint matchAll_from (fuel : nat) (r : regex) (input : jsstring) (lastIndex : nat)
  : list MatchResult :=
  match fuel with
  | 0 => []
  | Datatypes.S fuel' =>
      match exec r input lastIndex with
      | None => []
      | Some mt =>
          let next := if Nat.eqb (m_end mt) (m_index mt) then Datatypes.S (m_end mt) else m_end mt in
          mt :: matchAll_from fuel' r input next
      end
  end.
Definition matchAll (r : regex) (input : jsstring) : list MatchResult :=
  matchAll_from (Datatypes.S (length input)) r input 0.

(** *** Pattern notation *)

Definition any : char -> bool := fun _ => true.                        (* [\s\S] *)
Definition dot : char -> bool := fun x => negb (isLineTerminator x).   (* . *)
Definition isChar (c : char) : char -> bool := fun x => N.eqb x c.
Definition notChar (c : char) : char -> bool := fun x => negb (N.eqb x c). (* [^c] *)

(** Case folding of the [i] flag.  Without the [u] flag a code unit above
    127 never folds to an ASCII one, and the patterns of the sources are
    ASCII, so folding the ASCII letters is all that matters. *)
Definition canonicalize (c : char) : char :=
  if isLower c then (c - 32)%N else c.
Definition isCI (c : char) : char -> bool :=
  fun x => N.eqb (canonicalize x) (canonicalize c).

Definition Chr (a : ascii) : regex := Class (isChar (ch a)).

(** Literal text. *)
Fixpoint Str (s : jsstring) : regex :=
  match s with
  | [] => Empty
  | c :: s' => Cat (Class (isChar c)) (Str s')
  end.

(** Literal text under the [i] flag. *)
Fixpoint StrCI (s : jsstring) : regex :=
  match s with
  | [] => Empty
  | c :: s' => Cat (Class (isCI c)) (StrCI s')
  end.

(** [[p]+] and [[p]{4}] *)
Definition Plus (p : char -> bool) : regex := Cat (Class p) (Star false p).
Definition Four (p : char -> bool) : regex :=
  Cat (Class p) (Cat (Class p) (Cat (Class p) (Class p))).

End Regex.
Import Regex.

Declare Scope regex_scope.
Delimit Scope regex_scope with re.
Bind Scope regex_scope with regex.
Infix "@@" := Cat (at level 60, right associativity) : regex_scope.
Infix "<|>" := Alt (at level 70, right associativity) : regex_scope.

(* ================================================================== *)
(** ** src/lib/types.ts *)
(* ================================================================== *)

Inductive ChunkType := section | subsection | item.

Definition ChunkType_eqb (a b : ChunkType) : bool :=
  match a, b with
  | section, section | subsection, subsection | item, item => true
  | _, _ => false
  end.

(** [ResumeChunk["metadata"]]: every field optional. *)
Record Metadata := MkMetadata {
  company : option jsstring;
  position : option jsstring;
  dates : option jsstring;
  location : option jsstring
}.

(** [Omit<ResumeChunk, "order" | "isActive">], what the parsers produce. *)
Record Chunk := MkChunk {
  id : jsstring;
  type : ChunkType;
  title : jsstring;
  content : jsstring;
  rawLatex : jsstring;
  parentId : option jsstring;
  tags : option (list jsstring);
  metadata : option Metadata
}.

(** [ResumeChunk]: a chunk with its [order] and [isActive] fields. *)
Record ResumeChunk := MkResumeChunk {
  chunk : Chunk;
  order : Z;
  isActive : bool
}.

Record ResumeData := MkResumeData {
  preamble : jsstring;
  activeChunks : list ResumeChunk;
  standbyChunks : list ResumeChunk;
  documentClass : jsstring;
  packages : list jsstring
}.

(** [None] stands for a computation that does not return a value: it throws,
    or one of its loops does not end. *)
Definition bind {A B : Type} (x : option A) (f : A -> option B) : option B :=
  match x with
  | Some a => f a
  | None => None
  end.

Notation "x <- e ;; k" := (bind e (fun x => k))
  (at level 61, e at next level, right associativity).
Notation "' p <- e ;; k" := (bind e (fun p => k))
  (at level 61, p pattern, e at next level, right associativity).

(** [array.map((x, idx) => f x idx)] *)
Fixpoint mapi_from {A B : Type} (i : nat) (f : A -> nat -> B) (l : list A) : list B :=
  match l with
  | [] => []
  | x :: l' => f x i :: mapi_from (S i) f l'
  end.
Definition mapi {A B : Type} (f : A -> nat -> B) (l : list A) : list B :=
  mapi_from 0 f l.

(** [array.forEach] over a body that may fail, threading the loop state. *)
Fixpoint forEach {A S : Type} (l : list A) (body : A -> S -> option S) (st : S) : option S :=
  match l with
  | [] => Some st
  | x :: l' => st' <- body x st ;; forEach l' body st'
  end.

(* ================================================================== *)
(** ** src/lib/latex-parser.ts *)
(* ================================================================== *)

Module LatexParser.
Section WithHost.

(** [String.prototype.toLowerCase], the case mapping of the host. *)
Variable toLowerCase : jsstring -> jsstring.

(** The number of arguments the host accepts in one call.  A call with more
    arguments throws a [RangeError]. *)
Variable maxArguments : N.

Open Scope regex_scope.

(** [/([\s\S]*?)\\begin\{document\}/] *)
Definition preambleRegex : regex :=
Group 1 (Star true any) @@ Str (lit "\begin{document}").

(** [/\\begin\{document\}([\s\S]*?)\\end\{document\}/] *)
Definition bodyRegex : regex :=
Str (lit "\begin{document}") @@ Group 1 (Star true any) @@ Str (lit "\end{document}").

(** [/\\documentclass(?:\[.*?\])?\{(.*?)\}/] *)
Definition docClassRegex : regex :=
Str (lit "\documentclass") @@ Opt (Chr "[" @@ Star true dot @@ Chr "]")
  @@ Chr "{" @@ Group 1 (Star true dot) @@ Chr "}".

(** [/\\usepackage(?:\[.*?\])?\{(.*?)\}/g] *)
Definition packageRegex : regex :=
Str (lit "\usepackage") @@ Opt (Chr "[" @@ Star true dot @@ Chr "]")
  @@ Chr "{" @@ Group 1 (Star true dot) @@ Chr "}".

(** [/\\section\*?\{([^}]+)\}([\s\S]*?)(?=\\section|$)/g] *)
Definition sectionRegex : regex :=
Str (lit "\section") @@ Opt (Chr "*") @@ Chr "{" @@ Group 1 (Plus (notChar (ch "}")))
  @@ Chr "}" @@ Group 2 (Star true any)
  @@ Ahead (Str (lit "\section") <|> Eol false).

(** [/\\subsection\*?\{([^}]+)\}([\s\S]*?)(?=\\subsection|\\section|$)/g] *)
Definition subsectionPattern : regex :=
Str (lit "\subsection") @@ Opt (Chr "*") @@ Chr "{" @@ Group 1 (Plus (notChar (ch "}")))
  @@ Chr "}" @@ Group 2 (Star true any)
  @@ Ahead (Str (lit "\subsection") <|> Str (lit "\section") <|> Eol false).

(** [/\\item\s+([\s\S]*?)(?=\\item|\\end\{itemize\}|\\end\{enumerate\}|$)/g] *)
Definition itemPattern : regex :=
Str (lit "\item") @@ Plus isSpace @@ Group 1 (Star true any)
  @@ Ahead (Str (lit "\item") <|> Str (lit "\end{itemize}")
            <|> Str (lit "\end{enumerate}") <|> Eol false).

(** [/\\cventry F F F F F F/g] where each [F] is a braced field, an opening
  brace, a capturing group of [[^}]] repeated greedily, a closing brace. *)
Definition field (n : nat) : regex :=
Chr "{" @@ Group n (Star false (notChar (ch "}"))) @@ Chr "}".
Definition cventryPattern : regex :=
Str (lit "\cventry") @@ field 1 @@ field 2 @@ field 3 @@ field 4 @@ field 5 @@ field 6.

Definition patterns : list regex := [subsectionPattern; itemPattern; cventryPattern].

(** The date pattern: an opening brace, a capturing group made of [[^}]]
  repeated greedily, [\d{4}] and [[^}]] repeated greedily, a closing brace. *)
Definition dateRegex : regex :=
Chr "{" @@ Group 1 (Star false (notChar (ch "}")) @@ Four isDigit
                     @@ Star false (notChar (ch "}"))) @@ Chr "}".

(** [/\\textbf\{([^}]+)\}/] *)
Definition companyRegex : regex :=
Str (lit "\textbf{") @@ Group 1 (Plus (notChar (ch "}"))) @@ Chr "}".

Definition extractMetadata (latex : jsstring) : Metadata :=
let dateMatch := str_match dateRegex latex in
let companyMatch := str_match companyRegex latex in
{| dates := match dateMatch with Some mt => group 1 mt | None => None end;
   company := match companyMatch with Some mt => group 1 mt | None => None end;
   position := None;
   location := None |}.

(** The body of the [while] loop of [parseItems]; the state is [items] and
  [itemIndex]. *)
Definition itemBody (parentId : jsstring) (mt : MatchResult)
         (st : list Chunk * nat) : option (list Chunk * nat) :=
let '(items, itemIndex) := st in
let metadata := extractMetadata (m_text mt) in
Some (items ++
        [ {| id := parentId ++ lit "-item-" ++ toString itemIndex;
             type := item;
             title := orElse (position metadata) (orElse (group 1 mt) (lit "Item"));
             content := m_text mt;
             rawLatex := m_text mt;
             parentId := Some parentId;
             tags := None;
             metadata := Some metadata |} ],
      S itemIndex).

Definition parseItems (content parentId : jsstring) : option (list Chunk) :=
st <- forEach patterns
        (fun pattern st =>
           while_exec (S (length content)) pattern content 0 (itemBody parentId) st)
        ([], 0) ;;
Some (fst st).

(** [array.push(...items)]: the spread makes every element of [items] an
  argument of the one call of [push], and the call throws when they are more
  than the host accepts. *)
Definition pushSpread {A : Type} (array items : list A) : option (list A) :=
if (N.of_nat (length items) <=? maxArguments)%N then Some (array ++ items) else None.

(** The body of the [while] loop of [parseSections]; the state is [chunks]
  and [globalIndex].  Calling a method of an [undefined] capture
  throws, and so does the spread call that is given too many items. *)
Definition sectionBody (mt : MatchResult) (st : list Chunk * nat)
: option (list Chunk * nat) :=
let '(chunks, globalIndex) := st in
sectionTitle <- group 1 mt ;;
g2 <- group 2 mt ;;
let sectionContent := trim g2 in
let sectionId := lit "section-" ++ toString globalIndex in
let globalIndex := S globalIndex in
let chunks := chunks ++
  [ {| id := sectionId;
       type := section;
       title := sectionTitle;
       content := sectionContent;
       rawLatex := m_text mt;
       parentId := None;
       tags := Some [toLowerCase sectionTitle];
       metadata := None |} ] in
items <- parseItems sectionContent sectionId ;;
chunks <- pushSpread chunks items ;;
Some (chunks, globalIndex + length items).

Definition parseSections (body : jsstring) : option (list Chunk) :=
st <- while_exec (S (length body)) sectionRegex body 0 sectionBody ([], 0) ;;
Some (fst st).

(** [preambleMatch[1].trim()] throws when the capture is [undefined].  An
    [undefined] document class or package name would not throw, but is no
    [string] either: the model counts it as a failure too (none of these
    captures is ever [undefined], see [parseLatexFile_spec]). *)
Definition parseLatexFile (content : jsstring) : option ResumeData :=
let preambleMatch := str_match preambleRegex content in
preamble <- match preambleMatch with
            | Some mt => g <- group 1 mt ;; Some (trim g)
            | None => Some []
            end ;;
let bodyMatch := str_match bodyRegex content in
body <- match bodyMatch with
        | Some mt => g <- group 1 mt ;; Some (trim g)
        | None => Some []
        end ;;
let docClassMatch := str_match docClassRegex preamble in
documentClass <- match docClassMatch with
                 | Some mt => group 1 mt
                 | None => Some (lit "article")
                 end ;;
let packageMatches := matchAll packageRegex preamble in
packages <- forEach packageMatches
              (fun mt acc => g <- group 1 mt ;; Some (acc ++ [g])) [] ;;
chunks <- parseSections body ;;
Some {| preamble := preamble;
        activeChunks := mapi (fun chunk idx => MkResumeChunk chunk (Z.of_nat idx) true) chunks;
        standbyChunks := [];
        documentClass := documentClass;
        packages := packages |}.

End WithHost.
End LatexParser.

(* ================================================================== *)
(** ** The PDF text segmenter ([parseTextToChunks] and its helpers) *)
(* ================================================================== *)

Module PdfParser.
Section WithHost.

(** [String.prototype.toLowerCase] and [toUpperCase] of the host. *)
Variable toLowerCase : jsstring -> jsstring.
Variable toUpperCase : jsstring -> jsstring.

Open Scope regex_scope.

Definition kw (s : string) : regex := StrCI (lit s).

(** Common section headers in resumes: ten patterns of the shape
  [/^(A|B|C)/im]. *)
Definition sectionPatterns : list regex :=
[ Bol true @@ Group 1 (kw "EXPERIENCE" <|> kw "WORK EXPERIENCE"
                       <|> kw "PROFESSIONAL EXPERIENCE" <|> kw "EMPLOYMENT");
  Bol true @@ Group 1 (kw "EDUCATION" <|> kw "ACADEMIC BACKGROUND");
  Bol true @@ Group 1 (kw "SKILLS" <|> kw "TECHNICAL SKILLS" <|> kw "CORE COMPETENCIES");
  Bol true @@ Group 1 (kw "PROJECTS" <|> kw "PERSONAL PROJECTS" <|> kw "KEY PROJECTS");
  Bol true @@ Group 1 (kw "CERTIFICATIONS" <|> kw "CERTIFICATES" <|> kw "LICENSES");
  Bol true @@ Group 1 (kw "AWARDS" <|> kw "ACHIEVEMENTS" <|> kw "HONORS");
  Bol true @@ Group 1 (kw "SUMMARY" <|> kw "PROFESSIONAL SUMMARY" <|> kw "PROFILE");
  Bol true @@ Group 1 (kw "PUBLICATIONS" <|> kw "RESEARCH");
  Bol true @@ Group 1 (kw "VOLUNTEER" <|> kw "VOLUNTEER EXPERIENCE");
  Bol true @@ Group 1 (kw "LANGUAGES" <|> kw "LANGUAGE SKILLS") ].

(** Escape special LaTeX characters: four global replacements of one
  character each, applied one after the other. *)
Definition replaceChars (f : char -> jsstring) (text : jsstring) : jsstring :=
flat_map f text.

Definition isSpecial (c : char) : bool :=
(N.eqb c (ch "&") || N.eqb c (ch "%") || N.eqb c (ch "$") || N.eqb c (ch "#")
 || N.eqb c (ch "_") || N.eqb c (ch "{") || N.eqb c (ch "}"))%bool.

Definition escapeLatex (text : jsstring) : jsstring :=
let text := replaceChars (fun c => if N.eqb c (ch "\") then lit "\textbackslash{}" else [c]) text in
let text := replaceChars (fun c => if isSpecial c then [ch "\"; c] else [c]) text in
let text := replaceChars (fun c => if N.eqb c (ch "~") then lit "\textasciitilde{}" else [c]) text in
replaceChars (fun c => if N.eqb c (ch "^") then lit "\textasciicircum{}" else [c]) text.

Definition isBullet (c : char) : bool :=
(N.eqb c BULLET || N.eqb c (ch "-") || N.eqb c (ch "*"))%bool.

(** One round of the loop of [convertToLatex]. *)
Definition convertLine (latex line : jsstring) : jsstring :=
let trimmedLine := trim line in
match trimmedLine with
| c :: after =>
    if isBullet c then
      (* [trimmedLine.replace(/^[bullet-*]\s*/, "")] *)
      let bulletContent := dropWhile isSpace after in
      latex ++ lit "  \item " ++ escapeLatex bulletContent ++ [LF]
    else if Nat.ltb (length trimmedLine) 100 && isUpper c then
      latex ++ lit "\subsection{" ++ escapeLatex trimmedLine ++ lit "}" ++ [LF]
    else
      latex ++ escapeLatex trimmedLine ++ lit "\\" ++ [LF]
| [] =>
    (* [trimmedLine[0]] is [undefined], whose string form has no capital *)
    latex ++ escapeLatex trimmedLine ++ lit "\\" ++ [LF]
end.

(** Convert plain text to basic LaTeX format. *)
Definition convertToLatex (text : jsstring) : jsstring :=
let lines := filter nonEmpty (split LF text) in
fold_left convertLine lines [].

(** Clean section title. *)
Definition capitalize (word : jsstring) : jsstring :=
toUpperCase (firstn 1 word) ++ toLowerCase (skipn 1 word).

Definition cleanTitle (title : jsstring) : jsstring :=
let t := dropWhile (fun c => negb (isLetter c)) title in
let t := filter (fun c => isLetter c || isDigit c || isSpace c) t in
let t := trim t in
join (lit " ") (map capitalize (splitSpaces t)).

(** Create a chunk from section title and content. *)
Definition createChunk (title : jsstring) (content : list jsstring) (index : nat) : Chunk :=
let contentText := join [LF] content in
let latexContent := convertToLatex contentText in
let rawLatex := lit "\section{" ++ title ++ lit "}" ++ [LF; LF] ++ latexContent in
{| id := lit "section-" ++ toString index;
   type := section;
   title := cleanTitle title;
   content := contentText;
   rawLatex := rawLatex;
   parentId := None;
   tags := Some [toLowerCase (cleanTitle title)];
   metadata := None |}.

(** The loop state of [parseTextToChunks]. *)
Record SegState := MkSegState {
chunks : list Chunk;
currentSection : option jsstring;
currentContent : list jsstring;
chunkIndex : nat
}.

Definition isHeader (line : jsstring) : bool :=
existsb (fun pattern => test pattern line) sectionPatterns.

(** Save the section collected so far, if it has content. *)
Definition flush (st : SegState) : SegState :=
match currentSection st with
| Some sec =>
    if truthy (currentSection st) && Nat.ltb 0 (length (currentContent st)) then
      {| chunks := chunks st ++ [createChunk sec (currentContent st) (chunkIndex st)];
         currentSection := currentSection st;
         currentContent := [];
         chunkIndex := S (chunkIndex st) |}
    else st
| None => st
end.

(** One round of the loop over the lines. *)
Definition segStep (st : SegState) (line : jsstring) : SegState :=
if isHeader line then
  let st := flush st in
  {| chunks := chunks st;
     currentSection := Some line;
     currentContent := currentContent st;
     chunkIndex := chunkIndex st |}
else if truthy (currentSection st) then
  {| chunks := chunks st;
     currentSection := currentSection st;
     currentContent := currentContent st ++ [line];
     chunkIndex := chunkIndex st |}
else st.

Definition textLines (text : jsstring) : list jsstring :=
filter nonEmpty (map trim (split LF text)).

(** Parse extracted text into resume chunks. *)
Definition parseTextToChunks (text : jsstring) : list Chunk :=
let lines := textLines text in
let st := fold_left segStep lines (MkSegState [] None [] 0) in
let st := flush st in
if Nat.eqb (length (chunks st)) 0 then
  chunks st ++
    [ {| id := lit "section-0";
         type := section;
         title := lit "Resume Content";
         content := text;
         rawLatex := lit "\section{Resume Content}" ++ [LF; LF] ++ text;
         parentId := None;
         tags := Some [lit "imported"];
         metadata := None |} ]
else chunks st.

(** Extract text from PDF: PDF.js gives, for every page, the list of its
  text items; the items of a page are joined by spaces and every page is
  followed by a blank line.  The argument is what PDF.js reads from the
  file: the [str] fields of the text items, page by page. *)
Definition extractTextFromPdf (pages : list (list jsstring)) : jsstring :=
fold_left (fun fullText items => fullText ++ join (lit " ") items ++ [LF; LF]) pages [].

(** The default preamble for PDF imports. *)
Definition defaultPreamble : jsstring :=
lit "\documentclass[11pt,a4paper]{article}" ++ [LF]
++ lit "\usepackage[utf8]{inputenc}" ++ [LF]
++ lit "\usepackage{geometry}" ++ [LF]
++ lit "\geometry{margin=1in}" ++ [LF]
++ lit "\usepackage{enumitem}" ++ [LF]
++ lit "\usepackage{hyperref}" ++ [LF]
++ [LF]
++ lit "\begin{document}".

(** Parse PDF text content and convert to resume chunks. *)
Definition parsePdfToChunks (pages : list (list jsstring)) : list Chunk * jsstring :=
let text := extractTextFromPdf pages in
let chunks := parseTextToChunks text in
(chunks, defaultPreamble).

End WithHost.
End PdfParser.

(* ================================================================== *)
(** ** The LaTeX generator ([generateLatex], [updateChunkInLatex]) *)
(* ================================================================== *)

(** [array.sort((a, b) => a.order - b.order)]: a stable sort on [order]. *)
Fixpoint insertByOrder (x : ResumeChunk) (l : list ResumeChunk) : list ResumeChunk :=
  match l with
  | [] => [x]
  | y :: l' => if (order x <=? order y)%Z then x :: l else y :: insertByOrder x l'
  end.
Definition sortByOrder (l : list ResumeChunk) : list ResumeChunk :=
  fold_right insertByOrder [] l.

(** [a === b] where [a] may be [undefined] and [b] is a string. *)
Definition isString (a : option jsstring) (b : jsstring) : bool :=
  match a with
  | Some s => str_eqb s b
  | None => false
  end.

Module LatexGenerator.

Definition generateLatex (data : ResumeData) : jsstring :=
  let sortedChunks := sortByOrder (filter isActive (activeChunks data)) in
  let sectionChunks :=
    filter (fun c => ChunkType_eqb (type (chunk c)) section) sortedChunks in
  let latex := preamble data ++ [LF; LF] ++ lit "\begin{document}" ++ [LF; LF] in
  let latex :=
    fold_left
      (fun latex sec =>
         let latex := latex ++ rawLatex (chunk sec) in
         let childItems :=
           filter (fun c => isString (parentId (chunk c)) (id (chunk sec))) sortedChunks in
         let latex :=
           fold_left (fun latex it => latex ++ [LF] ++ rawLatex (chunk it)) childItems latex in
         latex ++ [LF; LF])
      sectionChunks latex in
  latex ++ lit "\end{document}".

Definition updateChunkInLatex (c : ResumeChunk) (newContent : jsstring) : ResumeChunk :=
  {| chunk := {| id := id (chunk c);
                 type := type (chunk c);
                 title := title (chunk c);
                 content := newContent;
                 rawLatex := newContent;
                 parentId := parentId (chunk c);
                 tags := tags (chunk c);
                 metadata := metadata (chunk c) |};
     order := order c;
     isActive := isActive c |}.

End LatexGenerator.

(* ================================================================== *)
(** ** src/components/ResumeEditor.tsx: the chunk registry *)
(* ================================================================== *)

Module Editor.

(** The start index of [Array.prototype.splice], clamped to the array. *)
Definition spliceStart (len : nat) (start : Z) : nat :=
  if (start <? 0)%Z then Z.to_nat (Z.max (Z.of_nat len + start) 0)
  else Nat.min (Z.to_nat start) len.

(** [arrayMove] of the drag-and-drop library (@dnd-kit/sortable): copy the
    array, splice the element at [from] out and splice it back in at [to],
    a negative [to] counting from the end of the array as it was.  An array
    with nothing at [from] is left as it is. *)
Definition arrayMove {A : Type} (array : list A) (from to : Z) : list A :=
  let target := if (to <? 0)%Z then (Z.of_nat (length array) + to)%Z else to in
  let i := spliceStart (length array) from in
  match nth_error array i with
  | None => array
  | Some x =>
      let without := firstn i array ++ skipn (S i) array in
      let j := spliceStart (length without) target in
      firstn j without ++ x :: skipn j without
  end.

(** [array.findIndex(p)], [-1] when nothing is found. *)
Fixpoint findIndex_from {A : Type} (i : Z) (p : A -> bool) (l : list A) : Z :=
  match l with
  | [] => (-1)%Z
  | x :: l' => if p x then i else findIndex_from (i + 1)%Z p l'
  end.
Definition findIndex {A : Type} (p : A -> bool) (l : list A) : Z := findIndex_from 0%Z p l.

Definition hasId (i : jsstring) (c : ResumeChunk) : bool := str_eqb (id (chunk c)) i.

Definition withOrder (c : ResumeChunk) (o : Z) : ResumeChunk :=
  {| chunk := chunk c; order := o; isActive := isActive c |}.
Definition withActive (c : ResumeChunk) (a : bool) : ResumeChunk :=
  {| chunk := chunk c; order := order c; isActive := a |}.

(** The initial value of the [chunks] state. *)
Definition initialChunk (i : string) (t : ChunkType) (ttl : string) (raw : jsstring)
           (o : Z) (a : bool) : ResumeChunk :=
  {| chunk := {| id := lit i; type := t; title := lit ttl; content := [];
                 rawLatex := raw; parentId := None; tags := None; metadata := None |};
     order := o;
     isActive := a |}.

Definition initialChunks : list ResumeChunk :=
  [ initialChunk "1" section "Experience"
      (lit "\section{Experience}" ++ [LF; LF]
       ++ lit "\subsection{Software Engineer at TechCorp}" ++ [LF]
       ++ lit "\textit{Jan 2022 - Present}" ++ [LF]
       ++ lit "\begin{itemize}" ++ [LF]
       ++ lit "  \item Led development of microservices architecture" ++ [LF]
       ++ lit "  \item Improved system performance by 40\%" ++ [LF]
       ++ lit "\end{itemize}") 0 true;
    initialChunk "2" section "Education"
      (lit "\section{Education}" ++ [LF; LF]
       ++ lit "\subsection{B.S. Computer Science}" ++ [LF]
       ++ lit "\textit{University of Technology, 2018-2022}" ++ [LF]
       ++ lit "GPA: 3.8/4.0") 1 true;
    initialChunk "3" section "Skills"
      (lit "\section{Skills}" ++ [LF; LF]
       ++ lit "\textbf{Languages:} Python, JavaScript, TypeScript, Java\\" ++ [LF]
       ++ lit "\textbf{Frameworks:} React, Next.js, Node.js, Django") 2 true;
    initialChunk "4" item "Senior Developer Role"
      (lit "\subsection{Senior Developer at StartupXYZ}" ++ [LF]
       ++ lit "\textit{Jun 2020 - Dec 2021}" ++ [LF]
       ++ lit "\begin{itemize}" ++ [LF]
       ++ lit "  \item Built scalable web applications" ++ [LF]
       ++ lit "  \item Mentored junior developers" ++ [LF]
       ++ lit "\end{itemize}") 3 false;
    initialChunk "5" section "Projects"
      (lit "\section{Projects}" ++ [LF; LF]
       ++ lit "\textbf{Open Source Contribution}\\" ++ [LF]
       ++ lit "Contributed to popular React libraries with 1000+ stars") 4 false ].

Section Registry.
(** The [chunks] and [preamble] state of the component. *)
Variable chunks : list ResumeChunk.
Variable preamble : jsstring.

Definition activeChunks : list ResumeChunk :=
  sortByOrder (filter isActive chunks).
Definition standbyChunks : list ResumeChunk :=
  sortByOrder (filter (fun c => negb (isActive c)) chunks).

(** The new value of [chunks] after a drag from chunk [active] onto
    [over] ([None] when it was dropped outside any chunk). *)
Definition handleDragEnd (active : jsstring) (over : option jsstring) : list ResumeChunk :=
  match over with
  | None => chunks
  | Some over =>
      if str_eqb active over then chunks
      else
        match find (hasId active) chunks, find (hasId over) chunks with
        | Some activeChunk, Some overChunk =>
            if Bool.eqb (isActive activeChunk) (isActive overChunk) then
              let items := if isActive activeChunk then activeChunks else standbyChunks in
              let oldIndex := findIndex (hasId active) items in
              let newIndex := findIndex (hasId over) items in
              let reordered := arrayMove items oldIndex newIndex in
              map (fun c =>
                     match find (hasId (id (chunk c))) reordered with
                     | Some _ => withOrder c (findIndex (hasId (id (chunk c))) reordered)
                     | None => c
                     end)
                  chunks
            else chunks
        | _, _ => chunks
        end
  end.

Definition toggleChunkActive (i : jsstring) : list ResumeChunk :=
  map (fun c => if hasId i c then withActive c (negb (isActive c)) else c) chunks.

Definition deleteChunk (i : jsstring) : list ResumeChunk :=
  filter (fun c => negb (hasId i c)) chunks.

Definition generateLatex : jsstring :=
  let latex := preamble ++ [LF; LF] in
  let latex := fold_left (fun latex c => latex ++ rawLatex (chunk c) ++ [LF; LF]) activeChunks latex in
  latex ++ lit "\end{document}".
End Registry.

Section Upload.
(** The case mappings of the host, and the number of arguments it accepts in
    one call. *)
Variable toLowerCase toUpperCase : jsstring -> jsstring.
Variable maxArguments : N.

(** What the upload handler reads from the chosen file: its name, its text
    ([file.text()]) and, through PDF.js, the text items of its pages; no
    pages when PDF.js cannot read the file and throws. *)
Record File := MkFile {
  name : jsstring;
  text : jsstring;
  pages : option (list (list jsstring))
}.

(** [file.name.split(".").pop()?.toLowerCase()] *)
Definition fileExtension (name : jsstring) : jsstring :=
  toLowerCase (last (split (ch ".") name) []).

(** The chunk the handler stores: the fields it copies from a parsed chunk,
    with the given [order], active.  [tags] and [metadata] are not
    copied. *)
Definition storedChunk (c : Chunk) (o : Z) : ResumeChunk :=
  {| chunk := {| id := id c; type := type c; title := title c; content := content c;
                 rawLatex := rawLatex c; parentId := parentId c;
                 tags := None; metadata := None |};
     order := o;
     isActive := true |}.

(** The new values of the [chunks] and [preamble] state after an upload;
    [None] when the state is left as it is (unsupported format, or an error
    that is caught). *)
Definition handleFileUpload (file : File) : option (list ResumeChunk * jsstring) :=
  let fileExtension := fileExtension (name file) in
  if str_eqb fileExtension (lit "pdf") then
    readPages <- pages file ;;
    let '(parsedChunks, defaultPreamble) :=
      PdfParser.parsePdfToChunks toLowerCase toUpperCase readPages in
    let allChunks := mapi (fun chunk idx => storedChunk chunk (Z.of_nat idx)) parsedChunks in
    Some (allChunks, defaultPreamble)
  else if str_eqb fileExtension (lit "tex") then
    parsedData <- LatexParser.parseLatexFile toLowerCase maxArguments (text file) ;;
    let '(MkResumeData parsedPreamble parsedChunks _ _ _) := parsedData in
    let allChunks := map (fun c => storedChunk (chunk c) (order c)) parsedChunks in
    Some (allChunks, parsedPreamble)
  else None.
End Upload.

End Editor.

(* ================================================================== *)
(** ** Notions used to state the properties *)
(* ================================================================== *)

(** A lower bound on the length of any match of a pattern. *)
Fixpoint minlen (r : regex) : nat :=
  match r with
  | Class _ => 1
  | Cat r1 r2 => minlen r1 + minlen r2
  | Alt r1 r2 => Nat.min (minlen r1) (minlen r2)
  | Group _ r1 => minlen r1
  | _ => 0
  end.

(** [sets n r]: every successful match of [r] captures group [n]. *)
Fixpoint sets (n : nat) (r : regex) : bool :=
  match r with
  | Cat r1 r2 => sets n r1 || sets n r2
  | Alt r1 r2 => sets n r1 && sets n r2
  | Group k r1 => Nat.eqb k n || sets n r1
  | Ahead r1 => sets n r1
  | _ => false
  end.

Definition bound (n : nat) (c : caps) : Prop := lookup n c <> None.

(** What a successful run of the matcher tells about the call of its
    continuation that made it succeed. *)
Definition reaches (r : regex) (k : cont) (cur : cursor) (c : caps) (res : outcome) : Prop :=
  exists cur' c' u,
    k cur' c' = Some res /\
    rest cur = u ++ rest cur' /\
    minlen r <= length u /\
    (forall n, sets n r = true -> bound n c') /\
    (forall n, bound n c -> bound n c').

(** A capture that is known to have taken part in the match. *)
Definition capture (n : nat) (mt : MatchResult) : jsstring :=
  match group n mt with
  | Some g => g
  | None => []
  end.

Section ParserNotions.

Variable toLowerCase : jsstring -> jsstring.

(** The item chunk that [parseItems] makes of its [k]-th match. *)
Definition itemOf (parentId : jsstring) (mt : MatchResult) (k : nat) : Chunk :=
  {| id := parentId ++ lit "-item-" ++ toString k;
     type := item;
     title := orElse (group 1 mt) (lit "Item");
     content := m_text mt;
     rawLatex := m_text mt;
     parentId := Some parentId;
     tags := None;
     metadata := Some (LatexParser.extractMetadata (m_text mt)) |}.

(** The matches of the three pattern families, family after family. *)
Definition itemMatches (content : jsstring) : list MatchResult :=
  matchAll LatexParser.subsectionPattern content
    ++ matchAll LatexParser.itemPattern content
    ++ matchAll LatexParser.cventryPattern content.

Definition itemsOf (content parentId : jsstring) : list Chunk :=
  mapi (itemOf parentId) (itemMatches content).

Definition sectionId (n : nat) : jsstring := lit "section-" ++ toString n.

(** The section chunk made of a match of the section pattern when the
    counter stands at [n]. *)
Definition sectionOf (mt : MatchResult) (n : nat) : Chunk :=
  {| id := sectionId n;
     type := section;
     title := capture 1 mt;
     content := trim (capture 2 mt);
     rawLatex := m_text mt;
     parentId := None;
     tags := Some [toLowerCase (capture 1 mt)];
     metadata := None |}.

(** The chunks made of a list of section matches, the counter starting at
    [n]: each section followed by its items. *)
Fixpoint sectionsFrom (n : nat) (ms : list MatchResult) : list Chunk :=
  match ms with
  | [] => []
  | mt :: ms' =>
      let items := itemsOf (trim (capture 2 mt)) (sectionId n) in
      sectionOf mt n :: items ++ sectionsFrom (S n + length items) ms'
  end.

(** The values the counter takes at the sections. *)
Fixpoint countersFrom (n : nat) (ms : list MatchResult) : list nat :=
  match ms with
  | [] => []
  | mt :: ms' =>
      n :: countersFrom (S n + length (itemsOf (trim (capture 2 mt)) (sectionId n))) ms'
  end.

(** The parts of the result of [parseLatexFile]. *)
Definition preambleOf (content : jsstring) : jsstring :=
  match str_match LatexParser.preambleRegex content with
  | Some mt => trim (capture 1 mt)
  | None => []
  end.

Definition bodyOf (content : jsstring) : jsstring :=
  match str_match LatexParser.bodyRegex content with
  | Some mt => trim (capture 1 mt)
  | None => []
  end.

Definition documentClassOf (preamble : jsstring) : jsstring :=
  match str_match LatexParser.docClassRegex preamble with
  | Some mt => capture 1 mt
  | None => lit "article"
  end.

Definition packagesOf (preamble : jsstring) : list jsstring :=
  map (capture 1) (matchAll LatexParser.packageRegex preamble).

End ParserNotions.

(** The numbers of items of the sections of a body: the numbers of arguments
    of the spread calls of [parseSections], call after call. *)
Definition itemCounts (body : jsstring) : list nat :=
  map (fun mt => length (itemMatches (trim (capture 2 mt))))
      (matchAll LatexParser.sectionRegex body).

(** No section of the body has more items than the host accepts as the
    arguments of one call. *)
Definition withinLimit (maxArguments : N) (body : jsstring) : bool :=
  forallb (fun k => (N.of_nat k <=? maxArguments)%N) (itemCounts body).

(** The outcome of a computation that returns [v] when every spread call
    is accepted, and throws otherwise. *)
Definition whenAccepted {A : Type} (accepted : bool) (v : A) : option A :=
  if accepted then Some v else None.

(** [String.prototype.includes] *)
Fixpoint includes (sub s : jsstring) : bool :=
  startsWith sub s ||
  match s with
  | [] => false
  | _ :: s' => includes sub s'
  end.

(** A host case mapping to run the examples with: the ASCII part of
    [toLowerCase] and [toUpperCase]. *)
Definition asciiLower (s : jsstring) : jsstring :=
  map (fun c => if isUpper c then (c + 32)%N else c) s.
Definition asciiUpper (s : jsstring) : jsstring :=
  map (fun c => if isLower c then (c - 32)%N else c) s.

(** A number of arguments to run the examples with; the usual hosts accept
    that many in one call. *)
Definition hostArguments : N := 65535.

(** The input of the worked example of the specification. *)
Definition exampleInput : jsstring :=
  lit "\section{Experience}" ++ [LF] ++ lit "\item Led a team".

(** What the worked example says of the chunks parsed from [exampleInput]. *)
Definition exampleChunks (chunks : list Chunk) : Prop :=
  exists sec it,
    chunks = [sec; it] /\
    type sec = section /\ title sec = lit "Experience" /\ id sec = lit "section-0" /\
    type it = item /\ id it = lit "section-0-item-0" /\
    parentId it = Some (lit "section-0") /\
    includes (lit "Led a team") (content it) = true.


Definition isSection (c : Chunk) : bool := ChunkType_eqb (type c) section.

(** The reading of the counter of section ids as one that goes on from one
    call of the parser to the next: any index of a later call lies above any
    index of an earlier call. *)
Definition counterGoesOnAcrossCalls (toLowerCase : jsstring -> jsstring)
           (maxArguments : N) : Prop :=
  forall body1 body2 chunks1 chunks2 n1 n2,
    LatexParser.parseSections toLowerCase maxArguments body1 = Some chunks1 ->
    LatexParser.parseSections toLowerCase maxArguments body2 = Some chunks2 ->
    In (sectionId n1) (map id chunks1) ->
    In (sectionId n2) (map id chunks2) ->
    n1 < n2.

(** The title [parseItems] gives a match: its first capture, or the fallback
    when the capture is absent or empty. *)
Definition titleOfMatch (mt : MatchResult) : jsstring :=
  match group 1 mt with
  | Some (c :: g) => c :: g
  | Some [] => lit "Item"
  | None => lit "Item"
  end.

(** The literal-rendering markup of one character, as the specification of
    the heuristic segmenter lists it: a backslash becomes
    [\textbackslash{}], each of [& % $ # _ { }] is preceded by a backslash,
    [~] becomes [\textasciitilde{}] and [^] becomes [\textasciicircum{}];
    any other character stands for itself. *)
Definition literalOf (c : char) : jsstring :=
  if N.eqb c (ch "\") then lit "\textbackslash{}"
  else if PdfParser.isSpecial c then [ch "\"; c]
  else if N.eqb c (ch "~") then lit "\textasciitilde{}"
  else if N.eqb c (ch "^") then lit "\textasciicircum{}"
  else [c].

(** Escaping as the specification words it: every character replaced by its
    literal-rendering markup. *)
Definition escapeSpec (text : jsstring) : jsstring := flat_map literalOf text.

(** The fallback chunk of the heuristic segmenter. *)
Definition fallbackChunk (text : jsstring) : Chunk :=
  {| id := lit "section-0";
     type := section;
     title := lit "Resume Content";
     content := text;
     rawLatex := lit "\section{Resume Content}" ++ [LF; LF] ++ text;
     parentId := None;
     tags := Some [lit "imported"];
     metadata := None |}.

Definition chunkId (c : ResumeChunk) : jsstring := id (chunk c).

(** [NoOcc L x]: the text [L] does not occur in [x]. *)
Definition NoOcc (L x : jsstring) : Prop :=
  forall a b, x = a ++ b -> startsWith L b = false.

(** [NoStart L x y]: no occurrence of [L] in [x ++ y] starts inside [x]. *)
Definition NoStart (L x y : jsstring) : Prop :=
  forall a b, x = a ++ b -> b <> [] -> startsWith L (b ++ y) = false.

(** The code unit before the position reached after reading [u]. *)
Fixpoint after (pv : option char) (u : jsstring) : option char :=
  match u with
  | [] => pv
  | x :: u' => after (Some x) u'
  end.

(** [x] is a piece of [s]. *)
Definition pieceOf (x s : jsstring) : Prop := exists u v, s = u ++ x ++ v.

Definition prefixOf (x s : jsstring) : Prop := exists v, s = x ++ v.

(** The texts the patterns of the structural parser look for. *)
Definition SECTION : jsstring := lit "\section".
Definition BEGIN : jsstring := lit "\begin{document}".
Definition END : jsstring := lit "\end{document}".

(** The head of a section: the command, an optional star and the braced
    title. *)
Definition header (star : bool) (t : jsstring) : jsstring :=
  SECTION ++ (if star then [ch "*"] else []) ++ ch "{" :: t ++ [ch "}"].

Definition notBrace : char -> bool := notChar (ch "}").

(** The tails of the section pattern. *)
Definition sectionTail5 : regex :=
  (Group 2 (Star true any) @@ Ahead (Str (lit "\section") <|> Eol false))%re.
Definition sectionTail3 : regex :=
  (Group 1 (Plus (notChar (ch "}"))) @@ Chr "}" @@ sectionTail5)%re.
Definition sectionTail1 : regex :=
  (Opt (Chr "*") @@ Chr "{" @@ sectionTail3)%re.

(** What ends the content of a section: the end of the input or the next
    section command. *)
Definition sectionEnds (rest : jsstring) : Prop :=
  rest = [] \/ startsWith SECTION rest = true.

(** The shape of a match of the section pattern: a header, and a content
    in which no section command starts. *)
Definition sectionShape (s : jsstring) (star : bool) (t c rest : jsstring) : Prop :=
  s = header star t ++ c ++ rest /\
  t <> [] /\ Forall (fun x => notBrace x = true) t /\
  NoStart SECTION c rest /\ sectionEnds rest.

(** [Sealed L x]: no occurrence of [L] starts inside [x], whatever
    follows. *)
Definition Sealed (L x : jsstring) : Prop := forall z, NoStart L x z.

(** What the generator writes after the raw text of a section: a line feed
    and the raw text of each child item, then two line feeds. *)
Definition glue (pieces : list jsstring) : jsstring :=
  concat (map (fun p => LF :: p) pieces) ++ [LF; LF].

(** The raw texts of the chunks whose parent is [sec]. *)
Definition childTexts (chunks : list Chunk) (sec : Chunk) : list jsstring :=
  map rawLatex (filter (fun c => isString (parentId c) (id sec)) chunks).

(** What the generator writes for a section. *)
Definition blockOf (chunks : list Chunk) (sec : Chunk) : jsstring :=
  rawLatex sec ++ glue (childTexts chunks sec).

(** A text that has [L] neither inside it nor at its start after a line
    feed. *)
Definition noLF (L : jsstring) : Prop := L <> [] /\ ~ In LF L.

(** The sections of a parsed document. *)
Definition sectionsOfData (data : ResumeData) : list Chunk :=
  filter isSection (map chunk (activeChunks data)).

(** What is known of a match of the section pattern in the body [B]. *)
Definition SectionFact (B : jsstring) (mt : MatchResult) : Prop :=
  exists star t c,
    m_text mt = header star t ++ c /\
    capture 1 mt = t /\ capture 2 mt = c /\
    t <> [] /\ Forall (fun x => notBrace x = true) t /\
    NoOcc SECTION c /\ pieceOf (m_text mt) B.

(** A section as the generator writes it: the head, the content and the
    glue that follows. *)
Record SectionDesc := MkDesc {
  d_star : bool;
  d_title : jsstring;
  d_content : jsstring;
  d_glue : jsstring
}.

Definition d_raw (d : SectionDesc) : jsstring :=
  header (d_star d) (d_title d) ++ d_content d.
Definition d_block (d : SectionDesc) : jsstring :=
  header (d_star d) (d_title d) ++ d_content d ++ d_glue d.

Definition GoodDesc (d : SectionDesc) : Prop :=
  d_title d <> [] /\ Forall (fun x => notBrace x = true) (d_title d) /\
  Sealed SECTION (d_content d ++ d_glue d) /\
  Sealed END (d_block d).

(** The sections as the parser finds them again in the generated text: the
    glue has become part of the content, and the end of the last section
    has been trimmed with the body. *)
Fixpoint reparsed (ds : list SectionDesc) : list SectionDesc :=
  match ds with
  | [] => []
  | d :: ds' =>
      match ds' with
      | [] => [MkDesc (d_star d) (d_title d) (trimEnd (d_content d ++ d_glue d)) []]
      | _ :: _ => MkDesc (d_star d) (d_title d) (d_content d ++ d_glue d) [] :: reparsed ds'
      end
  end.

(** Sections that the section pattern matches one after the other. *)
Fixpoint Matchable (rs : list SectionDesc) : Prop :=
  match rs with
  | [] => True
  | r :: rs' =>
      d_title r <> [] /\ Forall (fun x => notBrace x = true) (d_title r) /\
      NoStart SECTION (d_content r) (concat (map d_raw rs')) /\
      Matchable rs'
  end.

(** The round trip as the specification states it, at one source text: the
    document parsed from the text, generated and parsed again has the same
    raw texts, chunk by chunk. *)
Definition roundTripAt (toLowerCase : jsstring -> jsstring) (maxArguments : N)
           (content : jsstring) : Prop :=
  exists doc doc',
    LatexParser.parseLatexFile toLowerCase maxArguments content = Some doc /\
    LatexParser.parseLatexFile toLowerCase maxArguments (LatexGenerator.generateLatex doc)
    = Some doc' /\
    map rawLatex (map chunk (activeChunks doc'))
    = map rawLatex (map chunk (activeChunks doc)).

(** A document without item chunks. *)
Definition sectionsOnly (data : ResumeData) : Prop :=
  Forall (fun c => type (chunk c) = section) (activeChunks data).

(** What the generator writes for a section, in terms of the sorted list of
    active chunks it works on. *)
Definition blockOfR (sorted : list ResumeChunk) (sec : ResumeChunk) : jsstring :=
  rawLatex (chunk sec)
  ++ concat (map (fun it => LF :: rawLatex (chunk it))
               (filter (fun c => isString (parentId (chunk c)) (id (chunk sec))) sorted))
  ++ [LF; LF].

(** How [parseLatexFile] turns a chunk into an active chunk. *)
Definition activate (c : Chunk) (idx : nat) : ResumeChunk :=
  MkResumeChunk c (Z.of_nat idx) true.

(** The chunks parsed from a source text, and the text generated from the
    document parsed from it. *)
Definition parsedChunks (toLowerCase : jsstring -> jsstring) (content : jsstring) : list Chunk :=
  sectionsFrom toLowerCase 0 (matchAll LatexParser.sectionRegex (bodyOf content)).

Definition regenerated (toLowerCase : jsstring -> jsstring) (content : jsstring) : jsstring :=
  preambleOf content ++ [LF; LF] ++ BEGIN ++ [LF; LF]
  ++ concat (map (blockOf (parsedChunks toLowerCase content))
               (filter isSection (parsedChunks toLowerCase content)))
  ++ END.
(* ================================================================== *)
(** ** Notions used to state further properties *)
(* ================================================================== *)

(** The comparison of the sort, and its strict version. *)
Definition orderLe (a b : ResumeChunk) : Prop := (order a <= order b)%Z.
Definition orderLt (a b : ResumeChunk) : Prop := (order a < order b)%Z.

(** The orders a drag gives the chunks of the reordered list: the index of
    each. *)
Definition renumber (l : list ResumeChunk) : list ResumeChunk :=
  mapi (fun c i => Editor.withOrder c (Z.of_nat i)) l.

(** What a drag does to one chunk of the registry, given the reordered
    list. *)
Definition reorderStep (reordered : list ResumeChunk) (c : ResumeChunk) : ResumeChunk :=
  match find (Editor.hasId (id (chunk c))) reordered with
  | Some _ => Editor.withOrder c (Editor.findIndex (Editor.hasId (id (chunk c))) reordered)
  | None => c
  end.

(** The list a chunk is shown in: the active chunks or the standby chunks,
    each sorted by [order]. *)
Definition listOf (active : bool) (chunks : list ResumeChunk) : list ResumeChunk :=
  if active then Editor.activeChunks chunks else Editor.standbyChunks chunks.

Definition inList (active : bool) (c : ResumeChunk) : bool :=
  if active then isActive c else negb (isActive c).

Definition otherThan (i : jsstring) (c : ResumeChunk) : bool := negb (Editor.hasId i c).

(** What follows the number in a chunk id: nothing, or the item suffix. *)
Definition idTail (t : jsstring) : Prop :=
  t = [] \/ exists k, t = lit "-item-" ++ toString k.

Definition noDigitHead (t : jsstring) : Prop :=
  match t with
  | [] => True
  | c :: _ => isDigit c = false
  end.

(** A chunk id of a section numbered [n] or above, or of one of its
    items. *)
Definition idFrom (n : nat) (s : jsstring) : Prop :=
  exists j t, n <= j /\ s = sectionId j ++ t /\ idTail t.

Definition itemId (parentId : jsstring) (k : nat) : jsstring :=
  parentId ++ lit "-item-" ++ toString k.

(** A header line of the text and the lines collected under it. *)
Definition Segment : Type := (jsstring * list jsstring)%type.

Definition segmentLines (s : Segment) : list jsstring := fst s :: snd s.

Definition hasContent (s : Segment) : bool :=
  match snd s with
  | [] => false
  | _ :: _ => true
  end.

Definition goodSegment (s : Segment) : Prop :=
  PdfParser.isHeader (fst s) = true /\
  forall line, In line (snd s) -> PdfParser.isHeader line = false.

(** The chunks made of the segments that have content, numbered from
    [i]. *)
Definition segmentChunksFrom (toLowerCase toUpperCase : jsstring -> jsstring)
           (i : nat) (segs : list Segment) : list Chunk :=
  mapi_from i (fun s k => PdfParser.createChunk toLowerCase toUpperCase (fst s) (snd s) k)
            (filter hasContent segs).

Definition segmentChunks (toLowerCase toUpperCase : jsstring -> jsstring)
           (segs : list Segment) : list Chunk :=
  segmentChunksFrom toLowerCase toUpperCase 0 segs.

(** What the loop state of the segmenter keeps true. *)
Definition SegOk (st : PdfParser.SegState) : Prop :=
  PdfParser.chunkIndex st = length (PdfParser.chunks st) /\
  map id (PdfParser.chunks st) = map sectionId (seq 0 (length (PdfParser.chunks st))) /\
  Forall (fun c => type c = section /\ parentId c = None /\ metadata c = None)
         (PdfParser.chunks st).

(** The keywords of the ten header patterns of the segmenter. *)
Definition headerKeywords : list (list string) :=
  [ ["EXPERIENCE"; "WORK EXPERIENCE"; "PROFESSIONAL EXPERIENCE"; "EMPLOYMENT"];
    ["EDUCATION"; "ACADEMIC BACKGROUND"];
    ["SKILLS"; "TECHNICAL SKILLS"; "CORE COMPETENCIES"];
    ["PROJECTS"; "PERSONAL PROJECTS"; "KEY PROJECTS"];
    ["CERTIFICATIONS"; "CERTIFICATES"; "LICENSES"];
    ["AWARDS"; "ACHIEVEMENTS"; "HONORS"];
    ["SUMMARY"; "PROFESSIONAL SUMMARY"; "PROFILE"];
    ["PUBLICATIONS"; "RESEARCH"];
    ["VOLUNTEER"; "VOLUNTEER EXPERIENCE"];
    ["LANGUAGES"; "LANGUAGE SKILLS"] ]%string.

(** [r1|r2|...|rn] *)
Fixpoint alternatives (rs : list regex) : regex :=
  match rs with
  | [] => Class (fun _ => false)
  | [r] => r
  | r :: rs' => Alt r (alternatives rs')
  end.

(** The pattern [/^(K1|K2|...)/im]. *)
Definition headerPattern (ks : list string) : regex :=
  (Bol true @@ Group 1 (alternatives (map PdfParser.kw ks)))%re.

(** Two texts that differ at most in the case of the letters a to z. *)
Definition sameLetters (s k : jsstring) : Prop :=
  map canonicalize s = map canonicalize k.

(** A place where a line starts: the start of the text, or just after a
    line terminator. *)
Definition lineStart (u : jsstring) : Prop :=
  u = [] \/ exists u' c, u = u' ++ [c] /\ isLineTerminator c = true.

(** One of the keywords stands at a line start of the text, in any letter
    case. *)
Definition keywordAtLineStart (line : jsstring) : Prop :=
  exists ks k u s rest,
    In ks headerKeywords /\ In k ks /\
    line = u ++ s ++ rest /\ lineStart u /\ sameLetters s (lit k).

(** What [escapeLatex] makes of one character. *)
Definition escapeChar (c : char) : jsstring :=
  if N.eqb c (ch "\") then lit "\textbackslash\{\}" else literalOf c.

(** The ten characters [escapeLatex] replaces. *)
Definition needsEscape (c : char) : bool :=
  (N.eqb c (ch "\") || PdfParser.isSpecial c || N.eqb c (ch "~") || N.eqb c (ch "^"))%bool.

(** [clash L b]: the texts [L] and [b] differ at a place both have. *)
Fixpoint clash (L b : jsstring) : bool :=
  match L, b with
  | x :: L', y :: b' => negb (N.eqb x y) || clash L' b'
  | _, _ => false
  end.

(** A check that no occurrence of [L] can start inside [x]. *)
Fixpoint sealedb (L x : jsstring) : bool :=
  match x with
  | [] => true
  | _ :: x' => clash L x && sealedb L x'
  end.

(** [OneAfterAnother pieces s]: the pieces occur in [s] in this order,
    one after the other, without overlap. *)
Inductive OneAfterAnother : list jsstring -> jsstring -> Prop :=
| oaa_nil (s : jsstring) : OneAfterAnother [] s
| oaa_cons (gap x : jsstring) (xs : list jsstring) (s : jsstring) :
    OneAfterAnother xs s -> OneAfterAnother (x :: xs) (gap ++ x ++ s).

(** [bracedName name command text]: somewhere in [text] stands [command],
    an optional bracketed option list and [name] in braces; the name and the
    options hold no line terminator, and the name no closing brace. *)
Definition bracedName (name command text : jsstring) : Prop :=
  exists opt u r,
    text = u ++ command ++ opt ++ ch "{" :: name ++ ch "}" :: r /\
    Forall (fun x => dot x = true) name /\ ~ In (ch "}") name /\
    (opt = [] \/ exists o, opt = ch "[" :: o ++ [ch "]"] /\ Forall (fun x => dot x = true) o).

(** The lookahead that ends a lazily read text: one of the literals [Ls],
    or the end of the input. *)
Fixpoint stopAlts (Ls : list jsstring) : regex :=
  match Ls with
  | [] => Eol false
  | L :: Ls' => Alt (Str L) (stopAlts Ls')
  end.

Definition stops (Ls : list jsstring) (r : jsstring) : bool :=
  existsb (fun L => startsWith L r) Ls || negb (nonEmpty r).

(** A text in braces. *)
Definition braced (f : jsstring) : jsstring := ch "{" :: f ++ [ch "}"].

(** The three shapes of an item chunk, one for each pattern family. *)
Definition subsectionShape (it : Chunk) : Prop :=
  exists star t rest,
    rawLatex it = lit "\subsection" ++ star ++ braced t ++ rest /\
    (star = [] \/ star = [ch "*"]) /\
    t <> [] /\ ~ In (ch "}") t /\
    NoOcc (lit "\subsection") rest /\ NoOcc (lit "\section") rest /\
    title it = t.

Definition listItemShape (it : Chunk) : Prop :=
  exists ws body,
    rawLatex it = lit "\item" ++ ws ++ body /\
    ws <> [] /\ Forall (fun x => isSpace x = true) ws /\
    NoOcc (lit "\item") body /\ NoOcc (lit "\end{itemize}") body /\
    NoOcc (lit "\end{enumerate}") body /\
    title it = orElse (Some body) (lit "Item").

Definition cventryShape (it : Chunk) : Prop :=
  exists f1 f2 f3 f4 f5 f6,
    rawLatex it = lit "\cventry" ++ braced f1 ++ braced f2 ++ braced f3
                  ++ braced f4 ++ braced f5 ++ braced f6 /\
    Forall (fun f => ~ In (ch "}") f) [f1; f2; f3; f4; f5; f6] /\
    title it = orElse (Some f1) (lit "Item").

Definition isSectionChunk (c : ResumeChunk) : bool :=
  ChunkType_eqb (type (chunk c)) section.

(** The chunks that leave a trace in the text of the library's generator:
    the active sections, and the active chunks whose parent is one of
    them. *)
Definition emitted (chunks : list ResumeChunk) (c : ResumeChunk) : bool :=
  isActive c &&
  (isSectionChunk c ||
   existsb (fun s => isActive s && isSectionChunk s
                     && isString (parentId (chunk c)) (id (chunk s))) chunks).

(** The letters and digits of ASCII: what the title cleaner keeps, white
    space apart. *)
Definition isAlnum (c : char) : bool := isLetter c || isDigit c.

(** A capitalised word: letters and digits, the first of them no lower-case
    letter and none of the others an upper-case letter. *)
Definition capitalized (w : jsstring) : Prop :=
  exists c rest,
    w = c :: rest /\
    isAlnum c = true /\ isLower c = false /\
    Forall (fun x => isAlnum x = true /\ isUpper x = false) rest.

(** The shape of a cleaned title: empty, or capitalised words with one
    space between them, the first of which begins with an upper-case
    letter. *)
Definition titleShape (t : jsstring) : Prop :=
  t = [] \/
  exists c w ws,
    t = join (lit " ") ((c :: w) :: ws) /\
    isUpper c = true /\ Forall capitalized ((c :: w) :: ws).

(** A document with one section that holds [k + 1] list items, each on a
    line of its own. *)
Definition itemLines (k : nat) : jsstring :=
  concat (repeat (lit "\item x" ++ [LF]) k) ++ lit "\item x".
Definition manyItems (k : nat) : jsstring :=
  BEGIN ++ (lit "\section{A}" ++ itemLines k) ++ END.

(** A section without items: no chunk of the document names it as its
    parent. *)
Definition itemless (data : ResumeData) (sec : Chunk) : Prop :=
  childTexts (map chunk (activeChunks data)) sec = [].

(* ================================================================== *)
(** ** Facts about the matcher *)
(* ================================================================== *)

Unset Implicit Arguments.

Lemma star_inv lazy p k : forall s pv c res,
  star lazy p k pv s c = Some res ->
  exists pv' s' u, k (Cursor pv' s') c = Some res /\ s = u ++ s'.
Proof.
  induction s as [|x s IH]; intros pv c res H; destruct lazy; simpl in H.
  - destruct (k (Cursor pv []) c) eqn:E; [|discriminate].
    inversion H; subst. exists pv, [], []. auto.
  - exists pv, [], []. auto.
  - destruct (k (Cursor pv (x :: s)) c) eqn:E.
    + inversion H; subst. exists pv, (x :: s), []. auto.
    + destruct (p x); [|discriminate].
      apply IH in H. destruct H as (pv' & s' & u & Hk & ->).
      exists pv', s', (x :: u). auto.
  - destruct (p x).
    + destruct (star false p k (Some x) s c) eqn:E.
      * inversion H; subst. apply IH in E.
        destruct E as (pv' & s' & u & Hk & ->).
        exists pv', s', (x :: u). auto.
      * exists pv, (x :: s), []. auto.
    + exists pv, (x :: s), []. auto.
Qed.

Lemma bound_cons n k v c : bound n c -> bound n ((k, v) :: c).
Proof.
  unfold bound; simpl. destruct (Nat.eqb k n); [discriminate | auto].
Qed.

Lemma bound_head n v c : bound n ((n, v) :: c).
Proof.
  unfold bound; simpl. rewrite Nat.eqb_refl. discriminate.
Qed.

Local Ltac fin :=
  simpl; repeat split; simpl; auto; try lia; try (intros; discriminate).

Lemma m_inv : forall r k cur c res,
  m r k cur c = Some res -> reaches r k cur c res.
Proof.
  unfold reaches.
  induction r as [|p|r1 IH1 r2 IH2|r1 IH1 r2 IH2|lazy p|r1 IH1|n r1 IH1|r1 IH1|ml|ml];
    intros k cur c res H; cbn [m] in H.
  - exists cur, c, []. fin.
  - destruct cur as [pv [|x s]]; simpl in H; [discriminate|].
    destruct (p x); [|discriminate].
    exists (Cursor (Some x) s), c, [x]. fin.
  - apply IH1 in H. destruct H as (cur1 & c1 & u1 & H & E1 & L1 & S1 & B1).
    apply IH2 in H. destruct H as (cur2 & c2 & u2 & H & E2 & L2 & S2 & B2).
    exists cur2, c2, (u1 ++ u2). repeat split; auto.
    + rewrite E1, E2, app_assoc. reflexivity.
    + rewrite length_app. simpl. lia.
    + intros n Hn. simpl in Hn. apply orb_true_iff in Hn. destruct Hn; auto.
  - destruct (m r1 k cur c) eqn:E.
    + inversion H; subst. apply IH1 in E.
      destruct E as (cur1 & c1 & u1 & H1 & E1 & L1 & S1 & B1).
      exists cur1, c1, u1. repeat split; auto.
      * simpl. lia.
      * intros n Hn. simpl in Hn. apply andb_true_iff in Hn. apply S1, Hn.
    + apply IH2 in H.
      destruct H as (cur1 & c1 & u1 & H1 & E1 & L1 & S1 & B1).
      exists cur1, c1, u1. repeat split; auto.
      * simpl. lia.
      * intros n Hn. simpl in Hn. apply andb_true_iff in Hn. apply S1, Hn.
  - apply star_inv in H. destruct H as (pv' & s' & u & H & E).
    exists (Cursor pv' s'), c, u. fin.
  - destruct (m r1 k cur c) eqn:E.
    + inversion H; subst. apply IH1 in E.
      destruct E as (cur1 & c1 & u1 & H1 & E1 & L1 & S1 & B1).
      exists cur1, c1, u1. fin.
    + exists cur, c, []. fin.
  - apply IH1 in H. destruct H as (cur1 & c1 & u1 & H & E1 & L1 & S1 & B1).
    exists cur1, ((n, consumed cur cur1) :: c1), u1. simpl. repeat split; auto.
    + intros n' Hn. apply orb_true_iff in Hn. destruct Hn as [Hn|Hn].
      * apply Nat.eqb_eq in Hn; subst. apply bound_head.
      * apply bound_cons; auto.
    + intros n' Hn. apply bound_cons; auto.
  - destruct (m r1 _ cur c) as [[cur1 c1]|] eqn:E; [|discriminate].
    apply IH1 in E. destruct E as (cur2 & c2 & u2 & H2 & E2 & L2 & S2 & B2).
    inversion H2; subst.
    exists cur, c1, []. fin.
  - destruct (atBol ml cur); [|discriminate].
    exists cur, c, []. fin.
  - destruct (atEol ml cur); [|discriminate].
    exists cur, c, []. fin.
Qed.

Lemma consumed_app pv pv' (u s : jsstring) :
  consumed (Cursor pv (u ++ s)) (Cursor pv' s) = u.
Proof.
  unfold consumed; simpl. rewrite length_app.
  replace (length u + length s - length s) with (length u) by lia.
  rewrite firstn_app, firstn_all, Nat.sub_diag. simpl. apply app_nil_r.
Qed.

Lemma accept_inv r pv s cur' c :
  m r accept (Cursor pv s) [] = Some (cur', c) ->
  s = consumed (Cursor pv s) cur' ++ rest cur' /\
  minlen r <= length (consumed (Cursor pv s) cur') /\
  (forall n, sets n r = true -> bound n c).
Proof.
  intros E. apply m_inv in E.
  destruct E as (cur1 & c1 & u & Hk & Hu & L & St & _).
  inversion Hk; subst cur1 c1. destruct cur' as [pv' s']. simpl in Hu. subst s.
  rewrite consumed_app. auto.
Qed.

(** A match found by [search] splits the input into what was skipped, the
    match and what is left. *)
Lemma search_inv r : forall s idx pv mt,
  search r idx pv s = Some mt ->
  exists skipped s',
    s = skipped ++ m_text mt ++ s' /\
    m_index mt = idx + length skipped /\
    m_end mt = m_index mt + length (m_text mt) /\
    minlen r <= length (m_text mt) /\
    (forall n, sets n r = true -> bound n (m_groups mt)).
Proof.
  assert (Hit : forall s idx pv cur' c,
    m r accept (Cursor pv s) [] = Some (cur', c) ->
    let mt := MkMatch idx (consumed (Cursor pv s) cur') c
                      (idx + length (consumed (Cursor pv s) cur')) in
    exists skipped s',
      s = skipped ++ m_text mt ++ s' /\
      m_index mt = idx + length skipped /\
      m_end mt = m_index mt + length (m_text mt) /\
      minlen r <= length (m_text mt) /\
      (forall n, sets n r = true -> bound n (m_groups mt))).
  { intros s idx pv cur' c E. apply accept_inv in E. destruct E as (Hs & L & St).
    exists [], (rest cur'). simpl. repeat split; auto. }
  induction s as [|x s IH]; intros idx pv mt H; simpl in H.
  - destruct (m r accept (Cursor pv []) []) as [[cur' c]|] eqn:E; [|discriminate].
    inversion H; subst mt. apply Hit; auto.
  - destruct (m r accept (Cursor pv (x :: s)) []) as [[cur' c]|] eqn:E.
    + inversion H; subst mt. apply Hit; auto.
    + apply IH in H. destruct H as (sk & s' & Hs & Hi & He & L & St).
      exists (x :: sk), s'. simpl. repeat split; auto; try lia.
      rewrite Hs. reflexivity.
Qed.

Lemma firstn_exact (A : Type) (a b : list A) : firstn (length a) (a ++ b) = a.
Proof.
  rewrite firstn_app, firstn_all, Nat.sub_diag. simpl. apply app_nil_r.
Qed.

Lemma skipn_exact (A : Type) (a b : list A) : skipn (length a) (a ++ b) = b.
Proof.
  rewrite skipn_app, skipn_all, Nat.sub_diag. reflexivity.
Qed.

Lemma exec_inv r input i mt :
  exec r input i = Some mt ->
  i <= m_index mt /\
  m_end mt = m_index mt + length (m_text mt) /\
  m_end mt <= length input /\
  minlen r <= length (m_text mt) /\
  (forall n, sets n r = true -> bound n (m_groups mt)) /\
  input = firstn (m_index mt) input ++ m_text mt ++ skipn (m_end mt) input.
Proof.
  unfold exec. destruct (Nat.ltb (length input) i) eqn:Hi; [discriminate|].
  apply Nat.ltb_ge in Hi. intros H.
  apply search_inv in H. destruct H as (sk & s' & Hs & Hx & He & L & St).
  assert (Hlen : length (firstn i input ++ sk) = m_index mt).
  { rewrite length_app, length_firstn. lia. }
  assert (Hin : input = (firstn i input ++ sk) ++ m_text mt ++ s').
  { rewrite <- app_assoc, <- Hs. symmetry. apply firstn_skipn. }
  revert Hlen Hin. generalize (firstn i input ++ sk). intros pre Hlen Hin.
  assert (Hlen2 : length (pre ++ m_text mt) = m_end mt).
  { rewrite length_app. lia. }
  assert (F : firstn (m_index mt) input = pre).
  { rewrite Hin, <- Hlen. apply firstn_exact. }
  assert (K : skipn (m_end mt) input = s').
  { rewrite Hin, <- Hlen2, app_assoc. apply skipn_exact. }
  repeat split; auto; try lia.
  - rewrite Hin. rewrite !length_app. lia.
  - rewrite F, K. exact Hin.
Qed.

(** The [while]/[exec] loop of a pattern that cannot match the empty string
    ends, and sees the matches [matchAll] lists. *)
Lemma while_exec_forEach (S : Type) r input (body : MatchResult -> S -> option S) :
  0 < minlen r ->
  forall fuel i st,
    i <= length input -> length input < i + fuel ->
    while_exec fuel r input i body st = forEach (matchAll_from fuel r input i) body st.
Proof.
  intros Hr. induction fuel as [|fuel IH]; intros i st Hi Hf; [lia|].
  simpl. destruct (exec r input i) as [mt|] eqn:E; [|reflexivity].
  simpl. destruct (body mt st) as [st'|]; [|reflexivity]. simpl.
  apply exec_inv in E. destruct E as (H1 & H2 & H3 & H4 & _).
  replace (Nat.eqb (m_end mt) (m_index mt)) with false
    by (symmetry; apply Nat.eqb_neq; lia).
  apply IH; lia.
Qed.

Lemma matchAll_from_Forall r input (P : MatchResult -> Prop) :
  (forall i mt, exec r input i = Some mt -> P mt) ->
  forall fuel i, Forall P (matchAll_from fuel r input i).
Proof.
  intros HP. induction fuel as [|fuel IH]; intros i; simpl; [constructor|].
  destruct (exec r input i) as [mt|] eqn:E; [|constructor].
  constructor; eauto.
Qed.

Lemma mapi_from_app (A B : Type) (f : A -> nat -> B) : forall l1 l2 i,
  mapi_from i f (l1 ++ l2) = mapi_from i f l1 ++ mapi_from (i + length l1) f l2.
Proof.
  induction l1 as [|x l1 IH]; intros l2 i; simpl.
  - rewrite Nat.add_0_r. reflexivity.
  - rewrite IH. do 3 f_equal. lia.
Qed.


(* ================================================================== *)
(** ** Facts about the structural parser *)
(* ================================================================== *)

Section ParserFacts.

Variable toLowerCase : jsstring -> jsstring.
Variable maxArguments : N.

Lemma forEach_itemBody parentId : forall ms items k,
  forEach ms (LatexParser.itemBody parentId) (items, k)
  = Some (items ++ mapi_from k (itemOf parentId) ms, k + length ms).
Proof.
  induction ms as [|mt ms IH]; intros items k; simpl.
  - rewrite app_nil_r, Nat.add_0_r. reflexivity.
  - rewrite IH. rewrite <- app_assoc, Nat.add_succ_r. reflexivity.
Qed.

(** None of the three item patterns matches the empty string, so the three
    loops of [parseItems] end; the items are the matches of the three
    families, one family after the other, numbered along. *)
Lemma parseItems_spec content parentId :
  LatexParser.parseItems content parentId = Some (itemsOf content parentId).
Proof.
  unfold LatexParser.parseItems, LatexParser.patterns.
  cbn [forEach].
  assert (W : forall r st, 0 < minlen r ->
    while_exec (S (length content)) r content 0 (LatexParser.itemBody parentId) st
    = forEach (matchAll r content) (LatexParser.itemBody parentId) st).
  { intros r st Hr. apply while_exec_forEach; auto; lia. }
  rewrite W by (vm_compute; lia). rewrite forEach_itemBody. cbn [bind].
  rewrite W by (vm_compute; lia). rewrite forEach_itemBody. cbn [bind].
  rewrite W by (vm_compute; lia). rewrite forEach_itemBody. cbn [bind fst].
  unfold itemsOf, itemMatches, mapi. rewrite !mapi_from_app. simpl.
  rewrite <- app_assoc. reflexivity.
Qed.

Lemma capture_bound n mt :
  bound n (m_groups mt) -> group n mt = Some (capture n mt).
Proof.
  unfold bound, capture, group. destruct (lookup n (m_groups mt)); congruence.
Qed.

Lemma length_itemsOf content parentId :
  length (itemsOf content parentId) = length (itemMatches content).
Proof.
  unfold itemsOf, mapi. generalize 0 as i. generalize (itemMatches content) as ms.
  induction ms as [|mt ms IH]; intros i; simpl; auto.
Qed.

(** The loop body throws at the first section that has more items than the
    host accepts as arguments, and nowhere else. *)
Lemma forEach_sectionBody : forall ms chunks n,
  Forall (fun mt => bound 1 (m_groups mt) /\ bound 2 (m_groups mt)) ms ->
  exists n',
    forEach ms (LatexParser.sectionBody toLowerCase maxArguments) (chunks, n)
    = whenAccepted
        (forallb (fun k => (N.of_nat k <=? maxArguments)%N)
                 (map (fun mt => length (itemMatches (trim (capture 2 mt)))) ms))
        (chunks ++ sectionsFrom toLowerCase n ms, n').
Proof.
  induction ms as [|mt ms IH]; intros chunks n HF; cbn [forEach].
  - exists n. simpl. rewrite app_nil_r. reflexivity.
  - inversion HF as [|? ? [B1 B2] HF']; subst.
    unfold LatexParser.sectionBody at 1.
    rewrite (@capture_bound 1 mt B1), (@capture_bound 2 mt B2). cbn [bind].
    rewrite parseItems_spec. cbn [bind map forallb].
    unfold LatexParser.pushSpread. rewrite length_itemsOf.
    destruct (N.of_nat (length (itemMatches (trim (capture 2 mt)))) <=? maxArguments)%N;
      cbn [bind andb]; [|exists n; reflexivity].
    destruct (IH ((chunks ++ [sectionOf toLowerCase mt n])
                    ++ itemsOf (trim (capture 2 mt)) (sectionId n))
                 (S n + length (itemMatches (trim (capture 2 mt)))) HF')
      as [n' E].
    exists n'. unfold sectionOf, sectionId in *. rewrite E.
    cbn [sectionsFrom]. rewrite length_itemsOf, <- !app_assoc. reflexivity.
Qed.

Lemma sectionRegex_groups input i mt :
  exec LatexParser.sectionRegex input i = Some mt ->
  bound 1 (m_groups mt) /\ bound 2 (m_groups mt).
Proof.
  intros E. apply exec_inv in E. destruct E as (_ & _ & _ & _ & St & _).
  split; apply St; reflexivity.
Qed.

(** The loop of [parseSections] ends; its body throws when a section has
    more items than the host accepts as arguments, and only then; the
    chunks are the sections found by the section pattern, each followed by
    its items. *)
Lemma parseSections_spec body :
  LatexParser.parseSections toLowerCase maxArguments body
  = whenAccepted (withinLimit maxArguments body)
      (sectionsFrom toLowerCase 0 (matchAll LatexParser.sectionRegex body)).
Proof.
  unfold LatexParser.parseSections.
  rewrite while_exec_forEach by (try (vm_compute; lia); lia).
  destruct (@forEach_sectionBody (matchAll LatexParser.sectionRegex body) [] 0) as [n' E].
  { apply matchAll_from_Forall. intros i mt. apply sectionRegex_groups. }
  unfold matchAll in E. rewrite E. unfold withinLimit, itemCounts, matchAll.
  destruct (forallb _ _); reflexivity.
Qed.

Lemma forEach_packages : forall ms acc,
  Forall (fun mt => bound 1 (m_groups mt)) ms ->
  forEach ms (fun mt acc => g <- group 1 mt ;; Some (acc ++ [g])) acc
  = Some (acc ++ map (capture 1) ms).
Proof.
  induction ms as [|mt ms IH]; intros acc HF; simpl.
  - rewrite app_nil_r. reflexivity.
  - inversion HF as [|? ? B1 HF']; subst.
    rewrite (@capture_bound 1 mt B1). cbn [bind]. rewrite IH by auto.
    rewrite <- app_assoc. reflexivity.
Qed.

Lemma exec_sets r input i mt n :
  sets n r = true -> exec r input i = Some mt -> bound n (m_groups mt).
Proof.
  intros Hs E. apply exec_inv in E. destruct E as (_ & _ & _ & _ & St & _). auto.
Qed.

(** When [parseLatexFile] returns, and what it returns. *)
Lemma parseLatexFile_spec content :
  LatexParser.parseLatexFile toLowerCase maxArguments content
  = whenAccepted (withinLimit maxArguments (bodyOf content))
         {| preamble := preambleOf content;
            activeChunks :=
              mapi (fun chunk idx => MkResumeChunk chunk (Z.of_nat idx) true)
                   (sectionsFrom toLowerCase 0
                      (matchAll LatexParser.sectionRegex (bodyOf content)));
            standbyChunks := [];
            documentClass := documentClassOf (preambleOf content);
            packages := packagesOf (preambleOf content) |}.
Proof.
  unfold LatexParser.parseLatexFile.
  assert (E1 : match str_match LatexParser.preambleRegex content with
               | Some mt => g <- group 1 mt ;; Some (trim g)
               | None => Some []
               end = Some (preambleOf content)).
  { unfold preambleOf.
    destruct (str_match LatexParser.preambleRegex content) as [mt|] eqn:E; auto.
    rewrite (@capture_bound 1 mt); auto.
    eapply exec_sets; [|exact E]. reflexivity. }
  rewrite E1. simpl bind.
  assert (E2 : match str_match LatexParser.bodyRegex content with
               | Some mt => g <- group 1 mt ;; Some (trim g)
               | None => Some []
               end = Some (bodyOf content)).
  { unfold bodyOf.
    destruct (str_match LatexParser.bodyRegex content) as [mt|] eqn:E; auto.
    rewrite (@capture_bound 1 mt); auto.
    eapply exec_sets; [|exact E]. reflexivity. }
  rewrite E2. simpl bind.
  assert (E3 : match str_match LatexParser.docClassRegex (preambleOf content) with
               | Some mt => group 1 mt
               | None => Some (lit "article")
               end = Some (documentClassOf (preambleOf content))).
  { unfold documentClassOf.
    destruct (str_match LatexParser.docClassRegex (preambleOf content)) as [mt|] eqn:E; auto.
    apply capture_bound. eapply exec_sets; [|exact E]. reflexivity. }
  rewrite E3. simpl bind.
  rewrite forEach_packages.
  2:{ apply matchAll_from_Forall. intros i mt. apply exec_sets. reflexivity. }
  simpl bind. rewrite parseSections_spec.
  destruct (withinLimit maxArguments (bodyOf content)); reflexivity.
Qed.

End ParserFacts.

Lemma mapi_from_Forall (A B : Type) (f : A -> nat -> B) (P : B -> Prop) :
  (forall x i, P (f x i)) -> forall l i, Forall P (mapi_from i f l).
Proof.
  intros H. induction l as [|x l IH]; intros i; simpl; constructor; auto.
Qed.

Lemma itemsOf_type content parentId :
  Forall (fun c => type c = item) (itemsOf content parentId).
Proof.
  apply mapi_from_Forall. reflexivity.
Qed.

Lemma itemsOf_ids content parentId :
  map id (itemsOf content parentId)
  = map (fun k => parentId ++ lit "-item-" ++ toString k)
        (seq 0 (length (itemsOf content parentId))).
Proof.
  unfold itemsOf, mapi. generalize (itemMatches content) as ms. generalize 0 as i.
  intros i ms. revert i. induction ms as [|mt ms IH]; intros i; simpl; auto.
  f_equal. apply IH.
Qed.

Lemma mapi_from_map (A B C : Type) (f : A -> nat -> B) (g : B -> C) (h : A -> C) :
  (forall x i, g (f x i) = h x) ->
  forall l i, map g (mapi_from i f l) = map h l.
Proof.
  intros H. induction l as [|x l IH]; intros i; simpl; auto.
  rewrite H, IH. reflexivity.
Qed.

Lemma filter_items_nil (l : list Chunk) :
  Forall (fun c => type c = item) l -> filter isSection l = [].
Proof.
  induction 1 as [|c l Hc _ IH]; simpl; auto.
  unfold isSection at 1. rewrite Hc. simpl. exact IH.
Qed.

Section SectionFacts.

Variable toLowerCase : jsstring -> jsstring.

(** The section chunks among the chunks carry the values of the counter. *)
Lemma sectionsFrom_ids : forall ms n,
  map id (filter isSection (sectionsFrom toLowerCase n ms))
  = map sectionId (countersFrom n ms).
Proof.
  induction ms as [|mt ms IH]; intros n; simpl; auto.
  rewrite filter_app, filter_items_nil by apply itemsOf_type.
  simpl. f_equal. apply IH.
Qed.

Lemma countersFrom_lower : forall ms n,
  Forall (fun k => n <= k) (countersFrom n ms).
Proof.
  induction ms as [|mt ms IH]; intros n; simpl; constructor; auto.
  eapply Forall_impl; [|apply IH]. simpl. intros; lia.
Qed.

(** The counter increases strictly from one section to the next. *)
Lemma countersFrom_sorted : forall ms n,
  StronglySorted lt (countersFrom n ms).
Proof.
  induction ms as [|mt ms IH]; intros n; simpl; constructor; auto.
  eapply Forall_impl; [|apply countersFrom_lower]. simpl. intros; lia.
Qed.

(** The value of the counter at a section is the number of chunks before
    it. *)
Lemma sectionsFrom_position : forall ms n p c,
  nth_error (sectionsFrom toLowerCase n ms) p = Some c ->
  type c = section -> id c = sectionId (n + p).
Proof.
  induction ms as [|mt ms IH]; intros n p c Hp Hc; simpl in Hp.
  - destruct p; discriminate.
  - destruct p as [|p]; simpl in Hp.
    + inversion Hp; subst. simpl. rewrite Nat.add_0_r. reflexivity.
    + set (items := itemsOf (trim (capture 2 mt)) (sectionId n)) in *.
      destruct (Nat.lt_ge_cases p (length items)) as [Hlt|Hge].
      * rewrite nth_error_app1 in Hp by exact Hlt.
        apply nth_error_In in Hp.
        pose proof (itemsOf_type (trim (capture 2 mt)) (sectionId n)) as HF.
        rewrite Forall_forall in HF. apply HF in Hp. congruence.
      * rewrite nth_error_app2 in Hp by exact Hge.
        apply IH in Hp; auto. rewrite Hp. f_equal. lia.
Qed.

(** Every section chunk is followed by the items [parseItems] finds in its
    content, under its id; then comes the next section, if any. *)
Lemma sectionsFrom_split : forall ms n pre sec post,
  sectionsFrom toLowerCase n ms = pre ++ sec :: post ->
  type sec = section ->
  exists rest,
    post = itemsOf (content sec) (id sec) ++ rest /\
    (forall c, hd_error rest = Some c -> type c = section).
Proof.
  induction ms as [|mt ms IH]; intros n pre sec post E Hs; simpl in E.
  - destruct pre; discriminate.
  - destruct pre as [|c pre]; simpl in E.
    + inversion E; subst. simpl.
      eexists. split; [reflexivity|].
      intros c Hc. destruct ms; simpl in Hc; [discriminate|].
      inversion Hc; subst. reflexivity.
    + inversion E as [[Ec E']]. subst c.
      set (items := itemsOf (trim (capture 2 mt)) (sectionId n)) in *.
      pose proof (itemsOf_type (trim (capture 2 mt)) (sectionId n)) as HF.
      fold items in HF. clear E. revert E'.
      generalize (S (n + length items)) as k. clearbody items. intros k E'.
      revert pre E'. induction HF as [|it items Hit HF IHF]; intros pre E'; simpl in E'.
      * eapply IH; eauto.
      * destruct pre as [|c pre]; simpl in E'.
        -- inversion E'; subst. congruence.
        -- inversion E'. eapply IHF; eauto.
Qed.

End SectionFacts.

(* ================================================================== *)
(** ** Facts about the segmenter and the registry *)
(* ================================================================== *)

Lemma str_eqb_eq : forall a b, str_eqb a b = true <-> a = b.
Proof.
  induction a as [|x a IH]; intros [|y b]; simpl; split; intros H;
    try reflexivity; try discriminate.
  - apply andb_true_iff in H. destruct H as [H1 H2].
    apply N.eqb_eq in H1. apply IH in H2. congruence.
  - inversion H; subst. rewrite N.eqb_refl. simpl. apply IH. reflexivity.
Qed.

Lemma In_insertByOrder x y : forall l, In y (insertByOrder x l) -> y = x \/ In y l.
Proof.
  induction l as [|z l IH]; simpl; intros H.
  - destruct H as [H|[]]; auto.
  - destruct (order x <=? order z)%Z; simpl in H.
    + destruct H as [H|H]; auto.
    + destruct H as [H|H]; auto. apply IH in H. tauto.
Qed.

Lemma In_sortByOrder y : forall l, In y (sortByOrder l) -> In y l.
Proof.
  induction l as [|x l IH]; simpl; intros H; auto.
  apply In_insertByOrder in H. destruct H as [H|H]; auto.
Qed.

Lemma In_firstn_list (A : Type) (x : A) n l : In x (firstn n l) -> In x l.
Proof.
  intros H. rewrite <- (firstn_skipn n l). apply in_or_app. auto.
Qed.

Lemma In_skipn_list (A : Type) (x : A) n l : In x (skipn n l) -> In x l.
Proof.
  intros H. rewrite <- (firstn_skipn n l). apply in_or_app. auto.
Qed.

(** [arrayMove] only moves elements around. *)
Lemma In_arrayMove (A : Type) (x : A) l from to :
  In x (Editor.arrayMove l from to) -> In x l.
Proof.
  unfold Editor.arrayMove.
  destruct (nth_error l (Editor.spliceStart (length l) from)) as [y|] eqn:E; auto.
  intros H. apply in_app_or in H. destruct H as [H|[H|H]].
  - apply In_firstn_list in H. apply in_app_or in H.
    destruct H as [H|H]; [eapply In_firstn_list | eapply In_skipn_list]; eauto.
  - subst. eapply nth_error_In; eauto.
  - apply In_skipn_list in H. apply in_app_or in H.
    destruct H as [H|H]; [eapply In_firstn_list | eapply In_skipn_list]; eauto.
Qed.

Lemma NoDup_map_inj (A B : Type) (f : A -> B) : forall l x y,
  NoDup (map f l) -> In x l -> In y l -> f x = f y -> x = y.
Proof.
  induction l as [|z l IH]; simpl; intros x y Hn Hx Hy E; [tauto|].
  inversion Hn as [|? ? Hz Hn']; subst.
  destruct Hx as [Hx|Hx], Hy as [Hy|Hy]; subst; auto.
  - exfalso. apply Hz. rewrite E. apply in_map. assumption.
  - exfalso. apply Hz. rewrite <- E. apply in_map. assumption.
Qed.

Lemma find_hasId i l c :
  find (Editor.hasId i) l = Some c -> In c l /\ chunkId c = i.
Proof.
  intros H. apply find_some in H. destruct H as [H1 H2].
  split; auto. apply str_eqb_eq. exact H2.
Qed.

Lemma withActive_twice c :
  Editor.withActive (Editor.withActive c (negb (isActive c)))
                    (negb (isActive (Editor.withActive c (negb (isActive c))))) = c.
Proof.
  destruct c as [ck o a]. unfold Editor.withActive. simpl.
  rewrite negb_involutive. reflexivity.
Qed.

(** A run of the segmenter over lines none of which is a header leaves the
    loop state as it started. *)
Lemma segStep_no_header toLowerCase toUpperCase : forall lines,
  (forall line, In line lines -> PdfParser.isHeader line = false) ->
  fold_left (PdfParser.segStep toLowerCase toUpperCase) lines
            (PdfParser.MkSegState [] None [] 0)
  = PdfParser.MkSegState [] None [] 0.
Proof.
  induction lines as [|line lines IH]; intros H; simpl; auto.
  unfold PdfParser.segStep at 2. rewrite (H line) by (left; reflexivity). simpl.
  apply IH. intros l Hl. apply H. right. exact Hl.
Qed.

(** *** Escaping, character by character *)

Lemma escapeLatex_app a b :
  PdfParser.escapeLatex (a ++ b) = PdfParser.escapeLatex a ++ PdfParser.escapeLatex b.
Proof.
  unfold PdfParser.escapeLatex, PdfParser.replaceChars.
  rewrite !flat_map_app. reflexivity.
Qed.

Lemma isSpecial_cases c :
  PdfParser.isSpecial c = true ->
  N.eqb c (ch "\") = false /\ N.eqb c (ch "~") = false /\ N.eqb c (ch "^") = false.
Proof.
  unfold PdfParser.isSpecial. rewrite !orb_true_iff.
  intros H. repeat destruct H as [H|H]; apply N.eqb_eq in H; subst c; repeat split.
Qed.

(** What the four replacements make of one character that is not a
    backslash: its literal-rendering markup. *)
Lemma flat_map_one (f : char -> jsstring) c : flat_map f [c] = f c.
Proof. simpl. apply app_nil_r. Qed.

Lemma flat_map_two (f : char -> jsstring) c d : flat_map f [c; d] = f c ++ f d.
Proof. simpl. rewrite app_nil_r. reflexivity. Qed.

Lemma escapeLatex_char c :
  N.eqb c (ch "\") = false -> PdfParser.escapeLatex [c] = literalOf c.
Proof.
  intros Hb. unfold PdfParser.escapeLatex, PdfParser.replaceChars, literalOf.
  rewrite Hb. rewrite flat_map_one, Hb.
  destruct (PdfParser.isSpecial c) eqn:Hs.
  - destruct (isSpecial_cases c Hs) as (_ & Ht & Hc).
    rewrite flat_map_one, Hs, flat_map_two, Ht.
    change (N.eqb (ch "\") (ch "~")) with false. cbn [app].
    rewrite flat_map_two, Hc.
    change (N.eqb (ch "\") (ch "^")) with false. reflexivity.
  - rewrite flat_map_one, Hs, flat_map_one.
    destruct (N.eqb c (ch "~")) eqn:Ht; [reflexivity|].
    rewrite flat_map_one. reflexivity.
Qed.

Lemma escapeLatex_without_backslash : forall text,
  ~ In (ch "\") text -> PdfParser.escapeLatex text = escapeSpec text.
Proof.
  induction text as [|c text IH]; intros H; [reflexivity|].
  change (c :: text) with ([c] ++ text).
  rewrite escapeLatex_app. unfold escapeSpec. cbn [flat_map app].
  fold (escapeSpec text). rewrite <- IH.
  - f_equal. apply escapeLatex_char.
    apply N.eqb_neq. intros E. apply H. left. exact E.
  - intros Hin. apply H. right. exact Hin.
Qed.

(* ================================================================== *)
(** ** Occurrences of a text in a string, and trimming *)
(* ================================================================== *)

Lemma startsWith_app L s : startsWith L (L ++ s) = true.
Proof.
  induction L as [|x L IH]; simpl; auto. rewrite N.eqb_refl. exact IH.
Qed.

Lemma startsWith_inv : forall L s, startsWith L s = true -> exists r, s = L ++ r.
Proof.
  induction L as [|x L IH]; intros s H; simpl in *.
  - exists s. reflexivity.
  - destruct s as [|y s]; [discriminate|].
    apply andb_true_iff in H. destruct H as [H1 H2].
    apply N.eqb_eq in H1. subst. apply IH in H2. destruct H2 as [r ->].
    exists r. reflexivity.
Qed.

Lemma startsWith_weaken L b y : startsWith L b = true -> startsWith L (b ++ y) = true.
Proof.
  intros H. apply startsWith_inv in H. destruct H as [r ->].
  rewrite <- app_assoc. apply startsWith_app.
Qed.

(** An occurrence that runs into a code unit foreign to [L] ends before
    it. *)
Lemma startsWith_glue c : forall L b y,
  ~ In c L -> startsWith L (b ++ c :: y) = true -> startsWith L b = true.
Proof.
  induction L as [|x L IH]; intros b y Hc H; simpl in *; auto.
  destruct b as [|z b]; simpl in H.
  - apply andb_true_iff in H. destruct H as [H _]. apply N.eqb_eq in H.
    exfalso. apply Hc. left. exact H.
  - apply andb_true_iff in H. destruct H as [H1 H2]. rewrite H1. simpl.
    eapply IH; eauto.
Qed.

Lemma NoOcc_piece L x s : pieceOf x s -> NoOcc L s -> NoOcc L x.
Proof.
  intros (u & v & ->) H a b E. subst x.
  specialize (H (u ++ a) (b ++ v)).
  rewrite <- !app_assoc in H. specialize (H eq_refl).
  destruct (startsWith L b) eqn:S; auto.
  apply (startsWith_weaken _ _ v) in S. congruence.
Qed.

Lemma NoOcc_glue L x c y : NoOcc L x -> ~ In c L -> NoStart L x (c :: y).
Proof.
  intros H Hc a b E _.
  destruct (startsWith L (b ++ c :: y)) eqn:S; auto.
  apply startsWith_glue in S; auto. rewrite (H a b E) in S. discriminate.
Qed.

Lemma NoOcc_end L x : NoOcc L x -> NoStart L x [].
Proof.
  intros H a b E _. rewrite app_nil_r. eauto.
Qed.

Lemma NoStart_NoOcc L x y : L <> [] -> NoStart L x y -> NoOcc L x.
Proof.
  intros HL H a b E.
  destruct b as [|z b].
  - destruct L; [congruence | reflexivity].
  - destruct (startsWith L (z :: b)) eqn:S; auto.
    apply (startsWith_weaken _ _ y) in S.
    rewrite (H a (z :: b) E) in S; [discriminate | congruence].
Qed.

Lemma NoStart_app L x y z :
  NoStart L x (y ++ z) -> NoStart L y z -> NoStart L (x ++ y) z.
Proof.
  intros Hx Hy a b E Hb.
  apply app_eq_app in E. destruct E as (l & [[-> ->] | [-> ->]]).
  - destruct l as [|w l].
    + simpl in *. apply (Hy [] y); auto.
    + rewrite <- app_assoc. apply (Hx a (w :: l)); [reflexivity | congruence].
  - apply (Hy l b); auto.
Qed.

Lemma NoStart_single L c y :
  startsWith L [c] = false -> ~ In c L -> NoStart L [c] y.
Proof.
  intros H Hc a b E Hb.
  destruct a as [|w a].
  - simpl in E. subst b. simpl.
    destruct (startsWith L (c :: y)) eqn:S; auto.
    apply (startsWith_glue c L [] y) in S; auto.
    destruct L; simpl in *; congruence.
  - destruct a; simpl in E; inversion E; subst; congruence.
Qed.

Lemma NoStart_nil L y : NoStart L [] y.
Proof.
  intros a b E Hb. destruct a, b; simpl in E; congruence.
Qed.

(** *** Trimming *)

Lemma dropWhile_split p : forall s, exists w,
  s = w ++ dropWhile p s /\ Forall (fun c => p c = true) w.
Proof.
  induction s as [|x s IH]; simpl.
  - exists []. auto.
  - destruct (p x) eqn:E.
    + destruct IH as (w & Hs & Hw). exists (x :: w). split.
      * simpl. congruence.
      * constructor; auto.
    + exists []. auto.
Qed.

Lemma dropWhile_all p : forall w s,
  Forall (fun c => p c = true) w -> dropWhile p (w ++ s) = dropWhile p s.
Proof.
  induction w as [|x w IH]; intros s H; simpl; auto.
  inversion H; subst. rewrite H2. auto.
Qed.

Lemma trimEnd_split s : exists w,
  s = trimEnd s ++ w /\ Forall (fun c => isSpace c = true) w.
Proof.
  unfold trimEnd. destruct (dropWhile_split isSpace (rev s)) as (w & Hs & Hw).
  exists (rev w). split.
  - rewrite <- rev_app_distr, <- Hs, rev_involutive. reflexivity.
  - apply Forall_rev. exact Hw.
Qed.

Lemma trimEnd_spaces x w :
  Forall (fun c => isSpace c = true) w -> trimEnd (x ++ w) = trimEnd x.
Proof.
  intros H. unfold trimEnd. rewrite rev_app_distr.
  rewrite dropWhile_all; auto. apply Forall_rev. exact H.
Qed.

Lemma dropWhile_app_cases p : forall u v,
  dropWhile p (u ++ v) = if forallb p u then dropWhile p v else dropWhile p u ++ v.
Proof.
  induction u as [|y u IH]; intros v; simpl; auto.
  destruct (p y); simpl; auto.
Qed.

Lemma dropWhile_forallb p : forall u, forallb p u = true -> dropWhile p u = [].
Proof.
  induction u as [|y u IH]; simpl; auto.
  destruct (p y); simpl; auto. discriminate.
Qed.

Lemma trimEnd_keep h x y :
  isSpace x = false -> trimEnd (h ++ x :: y) = h ++ x :: trimEnd y.
Proof.
  intros H. unfold trimEnd.
  rewrite rev_app_distr. simpl. rewrite <- app_assoc. simpl.
  rewrite dropWhile_app_cases.
  destruct (forallb isSpace (rev y)) eqn:F.
  - rewrite (dropWhile_forallb _ _ F). simpl. rewrite H. simpl.
    rewrite rev_involutive. reflexivity.
  - rewrite rev_app_distr. simpl. rewrite rev_involutive, <- app_assoc. reflexivity.
Qed.

Lemma trimEnd_prefix x : prefixOf (trimEnd x) x.
Proof.
  destruct (trimEnd_split x) as (w & Hs & _). exists w. exact Hs.
Qed.

Lemma trimStart_piece x : exists u, x = u ++ trimStart x.
Proof.
  destruct (dropWhile_split isSpace x) as (w & Hs & _). exists w. exact Hs.
Qed.

Lemma trim_piece x : pieceOf (trim x) x.
Proof.
  unfold trim. destruct (trimStart_piece x) as (u & Hu).
  destruct (trimEnd_split (trimStart x)) as (w & Hs & _).
  exists u, w. rewrite <- Hs. exact Hu.
Qed.

Lemma pieceOf_trans x y z : pieceOf x y -> pieceOf y z -> pieceOf x z.
Proof.
  intros (u & v & ->) (u' & v' & ->).
  exists (u' ++ u), (v ++ v'). rewrite <- !app_assoc. reflexivity.
Qed.


(* ================================================================== *)
(** ** Evaluating the patterns of the structural parser *)
(* ================================================================== *)

Lemma m_Str_app k c : forall L pv rest,
  m (Str L) k (Cursor pv (L ++ rest)) c = k (Cursor (after pv L) rest) c.
Proof.
  induction L as [|x L IH]; intros pv rest; simpl; auto.
  unfold isChar. rewrite N.eqb_refl. apply IH.
Qed.

Lemma m_Str_fail k c : forall L pv s,
  startsWith L s = false -> m (Str L) k (Cursor pv s) c = None.
Proof.
  induction L as [|x L IH]; intros pv s H; simpl in *; [discriminate|].
  destruct s as [|y s]; auto.
  unfold isChar. rewrite (N.eqb_sym y x).
  destruct (N.eqb x y); simpl in *; auto.
Qed.

Lemma m_Str_cases k c L pv s :
  m (Str L) k (Cursor pv s) c =
  if startsWith L s then k (Cursor (after pv L) (skipn (length L) s)) c else None.
Proof.
  destruct (startsWith L s) eqn:E.
  - apply startsWith_inv in E. destruct E as [r ->].
    rewrite m_Str_app, skipn_exact. reflexivity.
  - apply m_Str_fail. exact E.
Qed.

(** *** The lazy star *)

Lemma star_lazy_hit p k pv s c r :
  k (Cursor pv s) c = Some r -> star true p k pv s c = Some r.
Proof.
  intros H. destruct s; simpl; rewrite H; reflexivity.
Qed.

Lemma star_lazy_skip p k c : forall u pv s,
  Forall (fun x => p x = true) u ->
  (forall u1 u2, u = u1 ++ u2 -> u2 <> [] ->
     k (Cursor (after pv u1) (u2 ++ s)) c = None) ->
  star true p k pv (u ++ s) c = star true p k (after pv u) s c.
Proof.
  induction u as [|x u IH]; intros pv s Hp H; auto.
  simpl app. cbn [star].
  pose proof (H [] (x :: u) eq_refl) as H0. simpl in H0.
  rewrite H0 by discriminate.
  inversion Hp as [|? ? Hx Hp']; subst. rewrite Hx. simpl after.
  apply IH; auto.
  intros u1 u2 E Hu. apply (H (x :: u1) u2); auto. simpl. congruence.
Qed.

Lemma star_lazy_inv p k c : forall s pv res,
  star true p k pv s c = Some res ->
  exists u s',
    s = u ++ s' /\ k (Cursor (after pv u) s') c = Some res /\
    (forall u1 u2, u = u1 ++ u2 -> u2 <> [] ->
       k (Cursor (after pv u1) (u2 ++ s')) c = None).
Proof.
  assert (Hnil : forall (u1 u2 : jsstring), [] = u1 ++ u2 -> u2 <> [] -> False).
  { intros u1 u2 E Hu. destruct u1, u2; simpl in E; congruence. }
  induction s as [|x s IH]; intros pv res H; cbn [star] in H.
  - destruct (k (Cursor pv []) c) eqn:E; [|discriminate].
    exists [], []. simpl. split; auto. split; [congruence|].
    intros u1 u2 E' Hu. exfalso. eauto.
  - destruct (k (Cursor pv (x :: s)) c) eqn:E.
    + exists [], (x :: s). simpl. split; auto. split; [congruence|].
      intros u1 u2 E' Hu. exfalso. eauto.
    + destruct (p x); [|discriminate].
      apply IH in H. destruct H as (u & s' & -> & Hk & Hn).
      exists (x :: u), s'. split; [reflexivity|]. split; [exact Hk|].
      intros u1 u2 E' Hu. destruct u1 as [|y u1]; simpl in E'.
      * subst u2. simpl. exact E.
      * inversion E'; subst. simpl. apply Hn; auto.
Qed.

(** *** The greedy star before something its class excludes *)

Lemma star_greedy_commit p k c :
  (forall pv' x s', p x = true -> k (Cursor pv' (x :: s')) c = None) ->
  forall s pv,
    star false p k pv s c
    = k (Cursor (after pv (takeWhile p s)) (dropWhile p s)) c.
Proof.
  intros Hk. induction s as [|x s IH]; intros pv; cbn [star]; auto.
  simpl. destruct (p x) eqn:E; auto.
  rewrite IH. simpl.
  destruct (k (Cursor (after (Some x) (takeWhile p s)) (dropWhile p s)) c) eqn:K; auto.
Qed.

Lemma takeWhile_dropWhile p : forall s, s = takeWhile p s ++ dropWhile p s.
Proof.
  induction s as [|x s IH]; simpl; auto.
  destruct (p x); simpl; congruence.
Qed.

Lemma takeWhile_Forall p : forall s, Forall (fun x => p x = true) (takeWhile p s).
Proof.
  induction s as [|x s IH]; simpl; auto.
  destruct (p x) eqn:E; auto.
Qed.

Lemma takeWhile_app_stop p : forall t x s,
  Forall (fun y => p y = true) t -> p x = false ->
  takeWhile p (t ++ x :: s) = t /\ dropWhile p (t ++ x :: s) = x :: s.
Proof.
  induction t as [|y t IH]; intros x s Ht Hx; simpl.
  - rewrite Hx. auto.
  - inversion Ht; subst. rewrite H1.
    destruct (IH x s H2 Hx) as [-> ->]. auto.
Qed.

(** *** The lookahead that ends a section *)

Lemma m_sectionEnd L pv s c :
  m (Ahead (Alt (Str L) (Eol false))) accept (Cursor pv s) c =
  if startsWith L s || negb (nonEmpty s) then Some (Cursor pv s, c) else None.
Proof.
  cbn [m]. rewrite m_Str_cases.
  destruct (startsWith L s); simpl; auto.
  unfold atEol. simpl. destruct s; reflexivity.
Qed.

(** *** The section pattern, piece by piece *)

Lemma m_sectionTail5_star pv s caps :
  m sectionTail5 accept (Cursor pv s) caps =
  star true any
    (fun cur' c' =>
       m (Ahead (Str (lit "\section") <|> Eol false)) accept cur'
         ((2, consumed (Cursor pv s) cur') :: c'))
    pv s caps.
Proof. reflexivity. Qed.

(** A lazy [[\s\S]*?] in front of a continuation that only looks at what
    is left: the match stops at the first place where the continuation
    succeeds. *)
Lemma star_lazy_cases (good : jsstring -> bool)
      (out : option char -> jsstring -> jsstring -> outcome) k pv s caps res :
  (forall pv' u r, s = u ++ r ->
     k (Cursor pv' r) caps = if good r then Some (out pv' u r) else None) ->
  (star true any k pv s caps = Some res <->
   exists c r,
     s = c ++ r /\ res = out (after pv c) c r /\ good r = true /\
     (forall a b, c = a ++ b -> b <> [] -> good (b ++ r) = false)).
Proof.
  intros Hk. split.
  - intros H. apply star_lazy_inv in H.
    destruct H as (u & s' & Hs & Hhit & Hno).
    rewrite (Hk _ u s' Hs) in Hhit.
    destruct (good s') eqn:E; [|discriminate].
    exists u, s'. split; auto. split; [congruence|]. split; auto.
    intros a b Ea Hb.
    specialize (Hno a b Ea Hb).
    rewrite (Hk _ a (b ++ s')) in Hno by (subst; rewrite <- app_assoc; reflexivity).
    destruct (good (b ++ s')); auto. discriminate.
  - intros (c & r & -> & -> & Hg & Hno).
    rewrite star_lazy_skip.
    + apply star_lazy_hit. rewrite (Hk _ c r eq_refl), Hg. reflexivity.
    + clear. induction c; constructor; auto.
    + intros u1 u2 -> Hu.
      rewrite (Hk _ u1 (u2 ++ r)) by (rewrite <- app_assoc; reflexivity).
      rewrite (Hno u1 u2 eq_refl Hu). reflexivity.
Qed.

Lemma m_sectionTail5_cases pv s caps res :
  m sectionTail5 accept (Cursor pv s) caps = Some res <->
  exists c rest,
    s = c ++ rest /\ res = (Cursor (after pv c) rest, (2, c) :: caps) /\
    NoStart SECTION c rest /\ (rest = [] \/ startsWith SECTION rest = true).
Proof.
  rewrite m_sectionTail5_star.
  rewrite (star_lazy_cases
             (fun r => startsWith SECTION r || negb (nonEmpty r))
             (fun pv' u r => (Cursor pv' r, (2, u) :: caps))).
  - split; intros (c & r & Hs & Hres & H1 & H2); exists c, r;
      (split; [exact Hs|]); (split; [exact Hres|]).
    + split.
      * intros a b Ea Hb. specialize (H2 a b Ea Hb).
        apply orb_false_iff in H2. tauto.
      * apply orb_true_iff in H1. destruct H1 as [H1|H1]; auto.
        left. destruct r; auto. discriminate.
    + split.
      * destruct H2 as [-> | ->]; auto.
      * intros a b Ea Hb. rewrite (H1 a b Ea Hb). simpl.
        destruct b; [congruence|reflexivity].
  - intros pv' u r ->. rewrite m_sectionEnd, consumed_app. reflexivity.
Qed.

Lemma m_sectionTail3_cases pv s caps :
  m sectionTail3 accept (Cursor pv s) caps =
  match s with
  | x :: s1 =>
      if notBrace x then
        match dropWhile notBrace s1 with
        | y :: s2 =>
            m sectionTail5 accept (Cursor (Some y) s2)
              ((1, x :: takeWhile notBrace s1) :: caps)
        | [] => None
        end
      else None
  | [] => None
  end.
Proof.
  unfold sectionTail3, Plus. cbn [m]. simpl rest.
  destruct s as [|x s1]; auto. fold notBrace.
  destruct (notBrace x) eqn:Ex; auto.
  rewrite star_greedy_commit.
  - cbn [rest prev].
    pose proof (takeWhile_dropWhile notBrace s1) as Hs.
    destruct (dropWhile notBrace s1) as [|y s2] eqn:D; [reflexivity|].
    assert (Hy : notBrace y = false).
    { clear - D. induction s1 as [|q l IH]; simpl in D; [discriminate|].
      destruct (notBrace q) eqn:Q; auto. inversion D; subst. exact Q. }
    unfold Chr. cbn [m rest]. unfold isChar.
    unfold notBrace, notChar in Hy. apply negb_false_iff in Hy.
    rewrite Hy.
    replace (consumed (Cursor pv (x :: s1)) (Cursor (after (Some x) (takeWhile notBrace s1)) (y :: s2)))
      with (x :: takeWhile notBrace s1); [reflexivity|].
    rewrite Hs at 2.
    change (x :: takeWhile notBrace s1 ++ y :: s2)
      with ((x :: takeWhile notBrace s1) ++ y :: s2).
    rewrite consumed_app. reflexivity.
  - intros pv' y s' Hy. unfold Chr. cbn [m rest]. unfold isChar.
    unfold notChar in Hy. apply negb_true_iff in Hy. rewrite Hy. reflexivity.
Qed.

Lemma m_sectionTail1_cases pv s caps :
  m sectionTail1 accept (Cursor pv s) caps =
  match s with
  | x :: s1 =>
      if N.eqb x (ch "{") then m sectionTail3 accept (Cursor (Some x) s1) caps
      else if N.eqb x (ch "*") then
        match s1 with
        | y :: s2 =>
            if N.eqb y (ch "{") then m sectionTail3 accept (Cursor (Some y) s2) caps
            else None
        | [] => None
        end
      else None
  | [] => None
  end.
Proof.
  unfold sectionTail1, Chr. cbn [m rest]. unfold isChar.
  destruct s as [|x s1]; auto.
  destruct (N.eqb x (ch "{")) eqn:E1.
  - apply N.eqb_eq in E1. subst x. reflexivity.
  - destruct (N.eqb x (ch "*")) eqn:E2; auto.
    destruct s1 as [|y s2]; auto.
    destruct (N.eqb y (ch "{")); auto.
    destruct (m sectionTail3 accept (Cursor (Some y) s2) caps); reflexivity.
Qed.

Lemma sectionRegex_unfold pv s :
  m LatexParser.sectionRegex accept (Cursor pv s) [] =
  if startsWith SECTION s
  then m sectionTail1 accept (Cursor (after pv SECTION) (skipn (length SECTION) s)) []
  else None.
Proof.
  unfold LatexParser.sectionRegex.
  change (m (Str SECTION) (fun cur' c' => m sectionTail1 accept cur' c') (Cursor pv s) [] =
          if startsWith SECTION s
          then m sectionTail1 accept (Cursor (after pv SECTION) (skipn (length SECTION) s)) []
          else None).
  apply m_Str_cases.
Qed.

Lemma notBrace_close : notBrace (ch "}") = false.
Proof. reflexivity. Qed.

Lemma sectionTail3_fwd pv t c rest caps :
  t <> [] -> Forall (fun x => notBrace x = true) t ->
  NoStart SECTION c rest -> sectionEnds rest ->
  m sectionTail3 accept (Cursor pv (t ++ ch "}" :: c ++ rest)) caps
  = Some (Cursor (after (Some (ch "}")) c) rest, (2, c) :: (1, t) :: caps).
Proof.
  intros Ht Hnb Hno Hend. rewrite m_sectionTail3_cases.
  destruct t as [|x t]; [congruence|]. rewrite <- app_comm_cons.
  inversion Hnb as [|? ? Hx Hnb']; subst. rewrite Hx.
  destruct (takeWhile_app_stop notBrace t (ch "}") (c ++ rest) Hnb' notBrace_close)
    as [-> ->].
  apply m_sectionTail5_cases. exists c, rest. auto.
Qed.

Lemma sectionTail3_inv pv s caps res :
  m sectionTail3 accept (Cursor pv s) caps = Some res ->
  exists t c rest,
    s = t ++ ch "}" :: c ++ rest /\
    t <> [] /\ Forall (fun x => notBrace x = true) t /\
    NoStart SECTION c rest /\ sectionEnds rest /\
    res = (Cursor (after (Some (ch "}")) c) rest, (2, c) :: (1, t) :: caps).
Proof.
  rewrite m_sectionTail3_cases.
  destruct s as [|x s1]; [discriminate|].
  destruct (notBrace x) eqn:Hx; [|discriminate].
  pose proof (takeWhile_dropWhile notBrace s1) as Hs.
  pose proof (takeWhile_Forall notBrace s1) as Hf.
  destruct (dropWhile notBrace s1) as [|y s2] eqn:D; [discriminate|].
  assert (Hy : y = ch "}").
  { assert (notBrace y = false).
    { clear - D. induction s1 as [|q l IH]; simpl in D; [discriminate|].
      destruct (notBrace q) eqn:Q; auto. inversion D; subst. exact Q. }
    unfold notBrace, notChar in H. apply negb_false_iff in H.
    apply N.eqb_eq in H. exact H. }
  subst y. intros H. apply m_sectionTail5_cases in H.
  destruct H as (c & rest & Hs2 & Hres & Hno & Hend).
  exists (x :: takeWhile notBrace s1), c, rest.
  split; [simpl; rewrite Hs at 1; rewrite Hs2; reflexivity|].
  split; [discriminate|]. split; [constructor; auto|]. auto.
Qed.

(** A match of the section pattern has the shape of a section; and text of
    that shape is matched, whole, where it starts. *)
Lemma sectionRegex_inv pv s cur' caps :
  m LatexParser.sectionRegex accept (Cursor pv s) [] = Some (cur', caps) ->
  exists star t c,
    sectionShape s star t c (rest cur') /\ caps = [(2, c); (1, t)].
Proof.
  rewrite sectionRegex_unfold.
  destruct (startsWith SECTION s) eqn:E; [|discriminate].
  apply startsWith_inv in E. destruct E as [s0 ->]. rewrite skipn_exact.
  rewrite m_sectionTail1_cases.
  destruct s0 as [|x s1]; [discriminate|].
  destruct (N.eqb x (ch "{")) eqn:E1.
  - apply N.eqb_eq in E1. subst x. intros H. apply sectionTail3_inv in H.
    destruct H as (t & c & r & Hs & Ht & Hnb & Hno & Hend & Hres).
    inversion Hres; subst. exists false, t, c. split; auto.
    unfold sectionShape, header. simpl rest.
    repeat split; auto. rewrite <- !app_assoc. simpl. rewrite <- app_assoc. reflexivity.
  - destruct (N.eqb x (ch "*")) eqn:E2; [|discriminate].
    apply N.eqb_eq in E2. subst x.
    destruct s1 as [|y s2]; [discriminate|].
    destruct (N.eqb y (ch "{")) eqn:E3; [|discriminate].
    apply N.eqb_eq in E3. subst y. intros H. apply sectionTail3_inv in H.
    destruct H as (t & c & r & Hs & Ht & Hnb & Hno & Hend & Hres).
    inversion Hres; subst. exists true, t, c. split; auto.
    unfold sectionShape, header. simpl rest.
    repeat split; auto. rewrite <- !app_assoc. simpl. rewrite <- app_assoc. reflexivity.
Qed.

Lemma header_app star t y :
  header star t ++ y
  = SECTION ++ (if star then [ch "*"] else []) ++ ch "{" :: (t ++ ch "}" :: y).
Proof.
  unfold header. rewrite <- !app_assoc. f_equal. f_equal.
  rewrite <- app_comm_cons. f_equal. rewrite <- app_assoc. reflexivity.
Qed.

Lemma sectionRegex_fwd pv star t c rest :
  t <> [] -> Forall (fun x => notBrace x = true) t ->
  NoStart SECTION c rest -> sectionEnds rest ->
  exists pv',
    m LatexParser.sectionRegex accept (Cursor pv (header star t ++ c ++ rest)) []
    = Some (Cursor pv' rest, [(2, c); (1, t)]).
Proof.
  intros Ht Hnb Hno Hend. exists (after (Some (ch "}")) c).
  rewrite header_app, sectionRegex_unfold, startsWith_app, skipn_exact.
  rewrite m_sectionTail1_cases.
  assert (E1 : N.eqb (ch "*") (ch "{") = false) by reflexivity.
  destruct star; cbn [app]; rewrite ?E1, ?N.eqb_refl;
    apply sectionTail3_fwd; auto.
Qed.

(** *** A lazy capture up to a literal text: [([\s\S]*?)L] *)

Lemma lazy_until_star n L pv s caps :
  m (Group n (Star true any) @@ Str L) accept (Cursor pv s) caps =
  star true any
    (fun cur' c' => m (Str L) accept cur' ((n, consumed (Cursor pv s) cur') :: c'))
    pv s caps.
Proof. reflexivity. Qed.

Lemma lazy_until_cases n L pv s caps res :
  m (Group n (Star true any) @@ Str L) accept (Cursor pv s) caps = Some res <->
  exists c r,
    s = c ++ L ++ r /\ NoStart L c (L ++ r) /\
    res = (Cursor (after (after pv c) L) r, (n, c) :: caps).
Proof.
  rewrite lazy_until_star.
  rewrite (star_lazy_cases
             (fun r => startsWith L r)
             (fun pv' u r => (Cursor (after pv' L) (skipn (length L) r), (n, u) :: caps))).
  - split.
    + intros (c & r & Hs & Hres & H1 & H2).
      apply startsWith_inv in H1. destruct H1 as [r' ->].
      exists c, r'. rewrite skipn_exact in Hres. auto.
    + intros (c & r & Hs & Hno & Hres).
      exists c, (L ++ r). rewrite skipn_exact, startsWith_app. auto.
  - intros pv' u r ->. rewrite m_Str_cases, consumed_app. reflexivity.
Qed.

(** *** Searching *)

Lemma search_hit r idx pv s cur' c :
  m r accept (Cursor pv s) [] = Some (cur', c) ->
  search r idx pv s
  = Some (MkMatch idx (consumed (Cursor pv s) cur') c
                  (idx + length (consumed (Cursor pv s) cur'))).
Proof.
  intros H. destruct s; simpl; rewrite H; reflexivity.
Qed.

Lemma search_skip r : forall a idx pv s,
  (forall a1 a2, a = a1 ++ a2 -> a2 <> [] ->
     m r accept (Cursor (after pv a1) (a2 ++ s)) [] = None) ->
  search r idx pv (a ++ s) = search r (idx + length a) (after pv a) s.
Proof.
  induction a as [|x a IH]; intros idx pv s H; simpl.
  - rewrite Nat.add_0_r. reflexivity.
  - pose proof (H [] (x :: a) eq_refl) as H0. simpl in H0.
    rewrite H0 by discriminate.
    rewrite IH.
    + f_equal. lia.
    + intros a1 a2 E Ha. apply (H (x :: a1) a2); auto. simpl. congruence.
Qed.

(** The match found by a search was made by the matcher somewhere in the
    input. *)
Lemma search_m r : forall s idx pv mt,
  search r idx pv s = Some mt ->
  exists a s1 pv1 cur',
    s = a ++ s1 /\
    m r accept (Cursor pv1 s1) [] = Some (cur', m_groups mt) /\
    m_text mt = consumed (Cursor pv1 s1) cur'.
Proof.
  induction s as [|x s IH]; intros idx pv mt H; simpl in H.
  - destruct (m r accept (Cursor pv []) []) as [[cur' c]|] eqn:E; [|discriminate].
    inversion H; subst mt. exists [], [], pv, cur'. simpl. auto.
  - destruct (m r accept (Cursor pv (x :: s)) []) as [[cur' c]|] eqn:E.
    + inversion H; subst mt. exists [], (x :: s), pv, cur'. simpl. auto.
    + apply IH in H. destruct H as (a & s1 & pv1 & cur' & Hs & Hm & Ht).
      exists (x :: a), s1, pv1, cur'. simpl. rewrite Hs. auto.
Qed.

Lemma exec_m r input i mt :
  exec r input i = Some mt ->
  exists s1 pv1 cur',
    pieceOf s1 input /\
    m r accept (Cursor pv1 s1) [] = Some (cur', m_groups mt) /\
    m_text mt = consumed (Cursor pv1 s1) cur'.
Proof.
  unfold exec. destruct (Nat.ltb (length input) i); [discriminate|].
  intros H. apply search_m in H. destruct H as (a & s1 & pv1 & cur' & Hs & Hm & Ht).
  exists s1, pv1, cur'. split; auto.
  exists (firstn i input ++ a), []. rewrite app_nil_r, <- app_assoc, <- Hs.
  symmetry. apply firstn_skipn.
Qed.

Lemma exec_at r pre s :
  exec r (pre ++ s) (length pre)
  = search r (length pre) (charBefore (pre ++ s) (length pre)) s.
Proof.
  unfold exec. rewrite skipn_exact.
  replace (Nat.ltb (length (pre ++ s)) (length pre)) with false; auto.
  symmetry. apply Nat.ltb_ge. rewrite length_app. lia.
Qed.

Lemma matchAll_from_Forall_in r input (P : MatchResult -> Prop) fuel i :
  (forall j mt, exec r input j = Some mt -> P mt) ->
  forall mt, In mt (matchAll_from fuel r input i) -> P mt.
Proof.
  intros H mt Hin.
  pose proof (matchAll_from_Forall r input P H fuel i) as HF.
  rewrite Forall_forall in HF. auto.
Qed.

(* ================================================================== *)
(** ** What the generator writes for a parsed document *)
(* ================================================================== *)

Lemma Sealed_nil L : Sealed L [].
Proof. intros z. apply NoStart_nil. Qed.

Lemma Sealed_app L x y : Sealed L x -> Sealed L y -> Sealed L (x ++ y).
Proof.
  intros Hx Hy z. apply NoStart_app; auto.
Qed.

Lemma Sealed_LF L : noLF L -> Sealed L [LF].
Proof.
  intros [HL Hn] z. apply NoStart_single; auto.
  destruct L as [|x L]; [congruence|]. simpl.
  destruct (N.eqb x LF) eqn:E; auto.
  apply N.eqb_eq in E. exfalso. apply Hn. left. exact E.
Qed.

Lemma NoOcc_Sealed L x : noLF L -> NoOcc L x -> Sealed L (x ++ [LF]).
Proof.
  intros HL Hx z. apply NoStart_app.
  - apply NoOcc_glue; auto. apply HL.
  - apply Sealed_LF. exact HL.
Qed.

Lemma Sealed_NoOcc L x : noLF L -> Sealed L x -> NoOcc L x.
Proof.
  intros [HL _] H. apply (NoStart_NoOcc L x []); auto.
Qed.

Lemma Sealed_concat L xs : Forall (Sealed L) xs -> Sealed L (concat xs).
Proof.
  induction 1; simpl; [apply Sealed_nil | apply Sealed_app; auto].
Qed.

Lemma noLF_SECTION : noLF SECTION.
Proof. split; [discriminate|]. simpl. intuition discriminate. Qed.

Lemma noLF_BEGIN : noLF BEGIN.
Proof. split; [discriminate|]. simpl. intuition discriminate. Qed.

Lemma noLF_END : noLF END.
Proof. split; [discriminate|]. simpl. intuition discriminate. Qed.

(** The glue, with each line feed moved to the end of what is before it. *)
Lemma glue_shift : forall ps x,
  x ++ glue ps = (x ++ [LF]) ++ concat (map (fun p => p ++ [LF]) ps) ++ [LF].
Proof.
  unfold glue. induction ps as [|p ps IH]; intros x; simpl.
  - rewrite <- app_assoc. reflexivity.
  - rewrite <- !app_assoc. simpl. f_equal. f_equal.
    specialize (IH p). rewrite <- !app_assoc in IH. simpl in IH. exact IH.
Qed.

Lemma glue_Sealed L ps x :
  noLF L -> NoOcc L x -> Forall (NoOcc L) ps -> Sealed L (x ++ glue ps).
Proof.
  intros HL Hx Hps. rewrite glue_shift.
  apply Sealed_app; [apply NoOcc_Sealed; auto|].
  apply Sealed_app; [|apply Sealed_LF; auto].
  apply Sealed_concat. apply Forall_map.
  eapply Forall_impl; [|exact Hps]. intros p Hp. apply NoOcc_Sealed; auto.
Qed.

(** *** The loops of [generateLatex] *)

Lemma fold_left_append (A : Type) (f : A -> jsstring) : forall l init,
  fold_left (fun latex x => latex ++ f x) l init = init ++ concat (map f l).
Proof.
  induction l as [|x l IH]; intros init; simpl.
  - rewrite app_nil_r. reflexivity.
  - rewrite IH, <- app_assoc. reflexivity.
Qed.

Lemma fold_left_same (A B : Type) (f g : A -> B -> A) :
  (forall a x, f a x = g a x) ->
  forall l init, fold_left f l init = fold_left g l init.
Proof.
  intros H. induction l as [|x l IH]; intros init; simpl; auto.
  rewrite H. apply IH.
Qed.

Lemma generateLatex_shape data :
  LatexGenerator.generateLatex data =
  let sorted := sortByOrder (filter isActive (activeChunks data)) in
  preamble data ++ [LF; LF] ++ BEGIN ++ [LF; LF]
  ++ concat (map (blockOfR sorted)
               (filter (fun c => ChunkType_eqb (type (chunk c)) section) sorted))
  ++ END.
Proof.
  unfold LatexGenerator.generateLatex. cbv zeta.
  set (sorted := sortByOrder (filter isActive (activeChunks data))).
  rewrite (fold_left_same _ _ _ (fun latex sec => latex ++ blockOfR sorted sec)).
  - rewrite fold_left_append. rewrite <- !app_assoc. reflexivity.
  - intros latex sec. unfold blockOfR.
    rewrite (fold_left_append _ (fun it => [LF] ++ rawLatex (chunk it))).
    rewrite <- !app_assoc. reflexivity.
Qed.

(** *** On the output of the structural parser *)

Lemma filter_isActive_activate : forall l i,
  filter isActive (mapi_from i activate l) = mapi_from i activate l.
Proof.
  induction l as [|c l IH]; intros i; simpl; auto. rewrite IH. reflexivity.
Qed.

Lemma sortByOrder_activate : forall l i,
  sortByOrder (mapi_from i activate l) = mapi_from i activate l.
Proof.
  induction l as [|c l IH]; intros i; simpl; auto.
  unfold sortByOrder in *. rewrite IH.
  destruct l as [|d l]; cbn [mapi_from insertByOrder]; auto.
  assert (E : (order (activate c i) <=? order (activate d (S i)))%Z = true).
  { apply Z.leb_le. simpl. lia. }
  rewrite E. reflexivity.
Qed.

Lemma map_filter_mapi (A B C : Type) (f : A -> nat -> B) (g : B -> C) (g' : A -> C)
      (q : B -> bool) (p : A -> bool) :
  (forall c idx, g (f c idx) = g' c) ->
  (forall c idx, q (f c idx) = p c) ->
  forall l i, map g (filter q (mapi_from i f l)) = map g' (filter p l).
Proof.
  intros Hg Hq. induction l as [|c l IH]; intros i; simpl; auto.
  rewrite Hq. destruct (p c); simpl; rewrite ?Hg, IH; reflexivity.
Qed.

Lemma blockOfR_activate chunks c idx i :
  blockOfR (mapi_from i activate chunks) (activate c idx) = blockOf chunks c.
Proof.
  unfold blockOfR, blockOf, glue, childTexts. simpl. f_equal. f_equal.
  rewrite map_map. f_equal.
  apply (map_filter_mapi _ _ _ activate
           (fun it => LF :: rawLatex (chunk it)) (fun c => LF :: rawLatex c)); reflexivity.
Qed.

(** The text generated for a document that comes out of the parser. *)
Lemma generateLatex_parsed P chunks dc pk :
  LatexGenerator.generateLatex
    {| preamble := P;
       activeChunks := mapi (fun chunk idx => MkResumeChunk chunk (Z.of_nat idx) true) chunks;
       standbyChunks := [];
       documentClass := dc;
       packages := pk |}
  = P ++ [LF; LF] ++ BEGIN ++ [LF; LF]
      ++ concat (map (blockOf chunks) (filter isSection chunks)) ++ END.
Proof.
  rewrite generateLatex_shape. cbv zeta. simpl preamble. simpl activeChunks.
  unfold mapi. fold activate.
  rewrite filter_isActive_activate, sortByOrder_activate.
  rewrite (map_filter_mapi _ _ _ activate
             (blockOfR (mapi_from 0 activate chunks)) (blockOf chunks)
             (fun c => ChunkType_eqb (type (chunk c)) section) isSection).
  - reflexivity.
  - intros c idx. apply blockOfR_activate.
  - reflexivity.
Qed.

(* ================================================================== *)
(** ** What the parser knows of the text it has parsed *)
(* ================================================================== *)

Lemma capture_of_groups n mt g :
  lookup n (m_groups mt) = Some g -> capture n mt = g.
Proof.
  unfold capture, group. intros ->. reflexivity.
Qed.

(** Every match of the section pattern has the shape of a section. *)
Lemma sectionRegex_fact B i mt :
  exec LatexParser.sectionRegex B i = Some mt -> SectionFact B mt.
Proof.
  intros H. apply exec_m in H.
  destruct H as (s1 & pv1 & [pv' rest'] & Hp & Hm & Ht).
  apply sectionRegex_inv in Hm.
  destruct Hm as (star & t & c & (Hs & Hne & Hnb & Hno & Hend) & Hc).
  cbn [rest] in Hs, Hno, Hend.
  assert (Hx : m_text mt = header star t ++ c).
  { rewrite Ht, Hs, app_assoc. apply consumed_app. }
  exists star, t, c. rewrite Hx.
  split; auto. split; [apply capture_of_groups; rewrite Hc; reflexivity|].
  split; [apply capture_of_groups; rewrite Hc; reflexivity|].
  split; auto. split; auto. split.
  - apply (NoStart_NoOcc SECTION c rest'); auto. discriminate.
  - eapply pieceOf_trans; [|exact Hp].
    exists [], rest'. simpl. rewrite Hs, app_assoc. reflexivity.
Qed.

Lemma exec_piece r input i mt :
  exec r input i = Some mt -> pieceOf (m_text mt) input.
Proof.
  intros H. apply exec_inv in H. destruct H as (_ & _ & _ & _ & _ & H).
  eexists _, _. exact H.
Qed.

Lemma In_mapi_from (A B : Type) (f : A -> nat -> B) y : forall l i,
  In y (mapi_from i f l) -> exists x k, In x l /\ y = f x k.
Proof.
  induction l as [|x l IH]; intros i H; simpl in H; [tauto|].
  destruct H as [H|H].
  - exists x, i. split; [left; reflexivity | auto].
  - apply IH in H. destruct H as (x' & k & Hin & Hy).
    exists x', k. split; [right; assumption | assumption].
Qed.

(** An item is a piece of the content it was found in. *)
Lemma itemsOf_piece content pid it :
  In it (itemsOf content pid) ->
  pieceOf (rawLatex it) content /\ parentId it = Some pid.
Proof.
  intros H. apply In_mapi_from in H. destruct H as (mt & k & Hin & ->).
  split; [|reflexivity]. simpl.
  unfold itemMatches in Hin.
  apply in_app_or in Hin. destruct Hin as [Hin|Hin];
    [|apply in_app_or in Hin; destruct Hin as [Hin|Hin]];
    revert mt Hin; apply matchAll_from_Forall_in; intros j mt; apply exec_piece.
Qed.

Section Original.

Variable toLowerCase : jsstring -> jsstring.
Variable B : jsstring.
Hypothesis B_clean : NoOcc END B.

(** The chunks made of section matches in [B] are sections of the known
    shape, or items in which neither a section command nor the end of the
    document occurs. *)
Lemma sectionsFrom_chunks : forall ms n ch,
  Forall (SectionFact B) ms ->
  In ch (sectionsFrom toLowerCase n ms) ->
  (parentId ch = None /\ type ch = section) \/
  (exists pid, parentId ch = Some pid /\
     NoOcc SECTION (rawLatex ch) /\ NoOcc END (rawLatex ch)).
Proof.
  induction ms as [|mt ms IH]; intros n ch HF Hin; simpl in Hin; [tauto|].
  inversion HF as [|? ? Hmt HF']; subst.
  destruct Hin as [Hin|Hin].
  - left. subst ch. split; reflexivity.
  - apply in_app_or in Hin. destruct Hin as [Hin|Hin].
    + right. apply itemsOf_piece in Hin. destruct Hin as [Hp Hpid].
      destruct Hmt as (star & t & c & Hx & _ & Hc & _ & _ & Hno & HB).
      rewrite Hc in Hp.
      assert (Hpc : pieceOf (rawLatex ch) c).
      { eapply pieceOf_trans; [exact Hp | apply trim_piece]. }
      eexists. split; [exact Hpid|]. split.
      * eapply NoOcc_piece; eauto.
      * eapply NoOcc_piece; [|exact B_clean].
        eapply pieceOf_trans; [exact Hpc|].
        eapply pieceOf_trans; [|exact HB].
        exists (header star t), []. rewrite Hx, app_nil_r. reflexivity.
    + eapply IH; eauto.
Qed.

Lemma childTexts_clean ms n sec :
  Forall (SectionFact B) ms ->
  Forall (fun p => NoOcc SECTION p /\ NoOcc END p)
         (childTexts (sectionsFrom toLowerCase n ms) sec).
Proof.
  intros HF. unfold childTexts. apply Forall_map. apply Forall_forall.
  intros ch Hin. apply filter_In in Hin. destruct Hin as [Hin Hp].
  destruct (sectionsFrom_chunks ms n ch HF Hin) as [[Hnone _]|(pid & _ & H1 & H2)]; auto.
  rewrite Hnone in Hp. discriminate.
Qed.

(** The section chunks, one for each match, in order. *)
Lemma sectionsFrom_sections : forall ms n,
  Forall2 (fun sec mt => rawLatex sec = m_text mt /\ title sec = capture 1 mt /\
                         content sec = trim (capture 2 mt))
          (filter isSection (sectionsFrom toLowerCase n ms)) ms.
Proof.
  induction ms as [|mt ms IH]; intros n; simpl; [constructor|].
  rewrite filter_app, filter_items_nil by apply itemsOf_type. simpl.
  constructor; auto.
Qed.

(** Each section of the parsed body, described as the generator will write
    it. *)
Lemma section_descs ms n :
  Forall (SectionFact B) ms ->
  let chunks := sectionsFrom toLowerCase n ms in
  exists ds,
    Forall2 (fun sec d =>
               rawLatex sec = d_raw d /\ title sec = d_title d /\
               blockOf chunks sec = d_block d /\
               d_glue d = glue (childTexts chunks sec) /\
               content sec = trim (d_content d))
            (filter isSection chunks) ds /\
    Forall GoodDesc ds.
Proof.
  intros HF chunks.
  assert (HC : forall sec, Forall (fun p => NoOcc SECTION p /\ NoOcc END p)
                             (childTexts chunks sec)).
  { intros sec. apply childTexts_clean. exact HF. }
  pose proof (sectionsFrom_sections ms n) as H2. fold chunks in H2.
  revert HF H2. generalize (filter isSection chunks) as secs.
  clearbody chunks. intros secs HF H2. revert HF.
  induction H2 as [|sec mt secs ms (Hraw & Htitle & Hcontent) H2 IH]; intros HF.
  - exists []. split; constructor.
  - inversion HF as [|? ? Hmt HF']; subst.
    destruct (IH HF') as (ds & Hds & Hgood).
    destruct Hmt as (star & t & c & Hx & Ht & Hc & Hne & Hnb & Hno & HB).
    exists (MkDesc star t c (glue (childTexts chunks sec)) :: ds).
    split; constructor; auto.
    + unfold d_raw, d_block, blockOf. cbn [d_star d_title d_content d_glue].
      rewrite Hraw, Htitle, Hcontent, Hx, Ht, Hc, <- app_assoc. auto.
    + unfold GoodDesc, d_block. cbn [d_star d_title d_content d_glue].
      specialize (HC sec).
      split; auto. split; auto. split.
      * apply glue_Sealed; auto using noLF_SECTION.
        eapply Forall_impl; [|exact HC]. simpl. tauto.
      * rewrite app_assoc. apply glue_Sealed; auto using noLF_END.
        -- rewrite <- Hx. eapply NoOcc_piece; eauto.
        -- eapply Forall_impl; [|exact HC]. simpl. tauto.
Qed.

End Original.

(* ================================================================== *)
(** ** Parsing the generated text again *)
(* ================================================================== *)

(** *** The preamble and the body *)

Lemma preambleOf_clean content : NoOcc BEGIN (preambleOf content).
Proof.
  unfold preambleOf, str_match.
  destruct (exec LatexParser.preambleRegex content 0) as [mt|] eqn:E.
  - apply exec_m in E. destruct E as (s1 & pv1 & cur' & _ & Hm & _).
    apply (lazy_until_cases 1 BEGIN) in Hm.
    destruct Hm as (c & r & Hs & Hno & Hres). inversion Hres as [[Hcur Hcaps]].
    rewrite (capture_of_groups 1 mt c) by (rewrite Hcaps; reflexivity).
    eapply NoOcc_piece; [apply trim_piece|].
    eapply NoStart_NoOcc; [|exact Hno]. discriminate.
  - intros a b E'. destruct a, b; simpl in E'; try discriminate. reflexivity.
Qed.

Lemma bodyRegex_unfold pv s :
  m LatexParser.bodyRegex accept (Cursor pv s) [] =
  if startsWith BEGIN s
  then m (Group 1 (Star true any) @@ Str END) accept
         (Cursor (after pv BEGIN) (skipn (length BEGIN) s)) []
  else None.
Proof.
  unfold LatexParser.bodyRegex.
  change (m (Str BEGIN)
            (fun cur' c' => m (Group 1 (Star true any) @@ Str END) accept cur' c')
            (Cursor pv s) [] =
          if startsWith BEGIN s
          then m (Group 1 (Star true any) @@ Str END) accept
                 (Cursor (after pv BEGIN) (skipn (length BEGIN) s)) []
          else None).
  apply m_Str_cases.
Qed.

Lemma bodyRegex_inv pv s cur' caps :
  m LatexParser.bodyRegex accept (Cursor pv s) [] = Some (cur', caps) ->
  exists c r, s = BEGIN ++ c ++ END ++ r /\ NoStart END c (END ++ r) /\ caps = [(1, c)].
Proof.
  rewrite bodyRegex_unfold.
  destruct (startsWith BEGIN s) eqn:E; [|discriminate].
  apply startsWith_inv in E. destruct E as [s0 ->]. rewrite skipn_exact.
  intros H. apply lazy_until_cases in H.
  destruct H as (c & r & Hs & Hno & Hres). inversion Hres; subst.
  exists c, r. auto.
Qed.

Lemma bodyRegex_fwd pv c r :
  NoStart END c (END ++ r) ->
  exists pv',
    m LatexParser.bodyRegex accept (Cursor pv (BEGIN ++ c ++ END ++ r)) []
    = Some (Cursor pv' r, [(1, c)]).
Proof.
  intros Hno. eexists. rewrite bodyRegex_unfold, startsWith_app, skipn_exact.
  apply lazy_until_cases. exists c, r. auto.
Qed.

Lemma bodyOf_clean content : NoOcc END (bodyOf content).
Proof.
  unfold bodyOf, str_match.
  destruct (exec LatexParser.bodyRegex content 0) as [mt|] eqn:E.
  - apply exec_m in E. destruct E as (s1 & pv1 & cur' & _ & Hm & _).
    apply bodyRegex_inv in Hm. destruct Hm as (c & r & Hs & Hno & Hcaps).
    rewrite (capture_of_groups 1 mt c) by (rewrite Hcaps; reflexivity).
    eapply NoOcc_piece; [apply trim_piece|].
    eapply NoStart_NoOcc; [|exact Hno]. discriminate.
  - intros a b E'. destruct a, b; simpl in E'; try discriminate. reflexivity.
Qed.

(** The body of a text made of a preamble without [\begin{document}], the
    opening of the document, a text [Y] in which no [\end{document}] starts,
    and the end of the document. *)
Lemma bodyOf_generated P Y :
  NoOcc BEGIN P -> Sealed END Y ->
  bodyOf (P ++ [LF; LF] ++ BEGIN ++ Y ++ END) = trim Y.
Proof.
  intros HP HY. unfold bodyOf, str_match, exec.
  replace (Nat.ltb (length (P ++ [LF; LF] ++ BEGIN ++ Y ++ END)) 0) with false
    by (symmetry; apply Nat.ltb_ge; lia).
  cbn [skipn charBefore].
  replace (P ++ [LF; LF] ++ BEGIN ++ Y ++ END)
    with ((P ++ [LF; LF]) ++ BEGIN ++ Y ++ END ++ [])
    by (rewrite app_nil_r, <- app_assoc; reflexivity).
  rewrite search_skip.
  - destruct (bodyRegex_fwd (after None (P ++ [LF; LF])) Y []) as [pv' Hm].
    { apply HY. }
    rewrite (search_hit _ _ _ _ _ _ Hm).
    unfold capture, group. reflexivity.
  - intros a1 a2 Ea Ha. rewrite bodyRegex_unfold.
    assert (HS : Sealed BEGIN (P ++ [LF; LF])).
    { change [LF; LF] with ([LF] ++ [LF]). rewrite app_assoc.
      apply Sealed_app; [apply NoOcc_Sealed | apply Sealed_LF];
        auto using noLF_BEGIN. }
    rewrite (HS _ a1 a2 Ea Ha). reflexivity.
Qed.

(** *** The body of the generated text, trimmed *)

Lemma header_close star t z :
  header star t ++ z
  = (SECTION ++ (if star then [ch "*"] else []) ++ ch "{" :: t) ++ ch "}" :: z.
Proof.
  unfold header. rewrite <- !app_assoc. f_equal. f_equal.
  rewrite <- !app_comm_cons. f_equal. rewrite <- app_assoc. reflexivity.
Qed.

Lemma header_cons star t z : exists w, header star t ++ z = ch "\" :: w.
Proof.
  unfold header, SECTION. simpl. eexists. reflexivity.
Qed.

Lemma trimEnd_header star t z :
  trimEnd (header star t ++ z) = header star t ++ trimEnd z.
Proof.
  rewrite !header_close. apply trimEnd_keep. reflexivity.
Qed.

Lemma trimEnd_app_nonempty x y :
  trimEnd y <> [] -> trimEnd (x ++ y) = x ++ trimEnd y.
Proof.
  intros H. unfold trimEnd in *. rewrite rev_app_distr, dropWhile_app_cases.
  destruct (forallb isSpace (rev y)) eqn:F.
  - rewrite (dropWhile_forallb _ _ F) in H. simpl in H. congruence.
  - rewrite rev_app_distr, rev_involutive. reflexivity.
Qed.

Lemma trimEnd_idem x : trimEnd (trimEnd x) = trimEnd x.
Proof.
  destruct (trimEnd_split x) as (w & Hx & Hw).
  rewrite Hx at 2. rewrite trimEnd_spaces by exact Hw. reflexivity.
Qed.

Lemma d_raw_length r : 0 < length (d_raw r).
Proof.
  unfold d_raw. destruct (header_cons (d_star r) (d_title r) (d_content r)) as [w ->].
  simpl. lia.
Qed.

Lemma d_raw_reparsed_nonempty d ds :
  concat (map d_raw (reparsed (d :: ds))) <> [].
Proof.
  destruct ds; cbn [reparsed map concat]; intros H;
    apply app_eq_nil in H; destruct H as [H _];
    match type of H with d_raw ?r = [] => pose proof (d_raw_length r) as Hl end;
    rewrite H in Hl; simpl in Hl; lia.
Qed.

Lemma trimEnd_blocks : forall ds,
  trimEnd (concat (map d_block ds)) = concat (map d_raw (reparsed ds)).
Proof.
  induction ds as [|d ds IH]; [reflexivity|].
  destruct ds as [|d2 ds].
  - simpl. rewrite !app_nil_r. unfold d_block, d_raw. cbn [d_star d_title d_content].
    apply trimEnd_header.
  - change (concat (map d_block (d :: d2 :: ds)))
      with (d_block d ++ concat (map d_block (d2 :: ds))).
    rewrite trimEnd_app_nonempty.
    + rewrite IH. cbn [reparsed map concat]. f_equal.
    + rewrite IH. apply d_raw_reparsed_nonempty.
Qed.

Lemma trim_generated_body ds :
  trim ([LF; LF] ++ concat (map d_block ds)) = concat (map d_raw (reparsed ds)).
Proof.
  unfold trim. rewrite <- trimEnd_blocks. f_equal.
  destruct ds as [|d ds]; [reflexivity|].
  assert (H : exists w, concat (map d_block (d :: ds)) = ch "\" :: w).
  { cbn [map concat]. unfold d_block. rewrite <- !app_assoc. apply header_cons. }
  destruct H as [w ->]. reflexivity.
Qed.

(** *** The section pattern on the trimmed body *)

Lemma Matchable_reparsed : forall ds,
  Forall GoodDesc ds -> Matchable (reparsed ds).
Proof.
  induction ds as [|d ds IH]; intros HF; [exact I|].
  inversion HF as [|? ? (Ht & Hnb & HS & _) HF']; subst.
  destruct ds as [|d2 ds].
  - simpl. repeat split; auto.
    apply NoOcc_end. eapply NoOcc_piece.
    + destruct (trimEnd_prefix (d_content d ++ d_glue d)) as [v Hv].
      exists [], v. exact Hv.
    + apply Sealed_NoOcc; auto using noLF_SECTION.
  - cbn [reparsed]. cbn [Matchable d_title d_content]. repeat split; auto.
Qed.

Lemma sectionEnds_blocks rs : sectionEnds (concat (map d_raw rs)).
Proof.
  destruct rs as [|r rs]; [left; reflexivity|].
  right. cbn [map concat]. unfold d_raw. rewrite <- app_assoc, header_app.
  apply startsWith_app.
Qed.

Lemma sectionRegex_nil pv : m LatexParser.sectionRegex accept (Cursor pv []) [] = None.
Proof.
  rewrite sectionRegex_unfold. reflexivity.
Qed.

(** The loop over the trimmed body finds the sections one after the other,
    each whole. *)
Lemma matchAll_Matchable : forall rs pre fuel,
  Matchable rs ->
  length (concat (map d_raw rs)) < fuel ->
  Forall2 (fun mt r =>
             m_text mt = d_raw r /\ capture 1 mt = d_title r /\
             capture 2 mt = d_content r)
          (matchAll_from fuel LatexParser.sectionRegex
                         (pre ++ concat (map d_raw rs)) (length pre))
          rs.
Proof.
  induction rs as [|r rs IH]; intros pre fuel HM Hf.
  - destruct fuel as [|fuel]; [simpl in Hf; lia|].
    cbn [map concat matchAll_from]. rewrite exec_at.
    cbn [search]. rewrite sectionRegex_nil. constructor.
  - destruct fuel as [|fuel]; [lia|].
    destruct HM as (Ht & Hnb & Hno & HM').
    cbn [map concat] in *. cbn [matchAll_from]. rewrite exec_at.
    set (rest := concat (map d_raw rs)) in *.
    generalize (charBefore (pre ++ d_raw r ++ rest) (length pre)) as pv. intros pv.
    destruct (sectionRegex_fwd pv (d_star r) (d_title r) (d_content r) rest
                Ht Hnb Hno (sectionEnds_blocks rs)) as [pv' Hm].
    assert (Hin : d_raw r ++ rest = header (d_star r) (d_title r) ++ d_content r ++ rest).
    { unfold d_raw. rewrite <- app_assoc. reflexivity. }
    pose proof (search_hit _ (length pre) _ _ _ _ Hm) as Hs.
    rewrite <- Hin in Hs. rewrite consumed_app in Hs. rewrite Hs.
    cbn [m_end m_index].
    pose proof (d_raw_length r) as Hl.
    replace (Nat.eqb (length pre + length (d_raw r)) (length pre)) with false
      by (symmetry; apply Nat.eqb_neq; lia).
    constructor.
    + repeat split.
    + rewrite <- length_app.
      replace (pre ++ d_raw r ++ rest) with ((pre ++ d_raw r) ++ rest)
        by (rewrite <- app_assoc; reflexivity).
      apply IH; auto. rewrite length_app in Hf. lia.
Qed.

(** *** The sections of the document parsed again *)

Lemma Forall2_compose (A B C : Type) (R1 : A -> B -> Prop) (R2 : B -> C -> Prop) :
  forall l1 l2 l3,
    Forall2 R1 l1 l2 -> Forall2 R2 l2 l3 ->
    Forall2 (fun a c => exists b, R1 a b /\ R2 b c) l1 l3.
Proof.
  intros l1 l2 l3 H1. revert l3.
  induction H1 as [|a b l1 l2 Hab H1 IH]; intros l3 H2; inversion H2; subst;
    constructor; eauto.
Qed.

Lemma Forall2_swap (A B : Type) (R : A -> B -> Prop) l1 l2 :
  Forall2 R l1 l2 -> Forall2 (fun b a => R a b) l2 l1.
Proof.
  induction 1; constructor; auto.
Qed.

Lemma Forall2_weaken (A B : Type) (R R' : A -> B -> Prop) l1 l2 :
  (forall a b, R a b -> R' a b) -> Forall2 R l1 l2 -> Forall2 R' l1 l2.
Proof.
  intros H. induction 1; constructor; auto.
Qed.

Lemma reparsed_rel : forall ds,
  Forall2 (fun d r =>
             d_title r = d_title d /\
             (d_raw r = d_block d \/ d_raw r = trimEnd (d_block d)) /\
             (d_content r = d_content d ++ d_glue d \/
              d_content r = trimEnd (d_content d ++ d_glue d)))
          ds (reparsed ds).
Proof.
  induction ds as [|d ds IH]; [constructor|].
  destruct ds as [|d2 ds].
  - constructor; [|constructor]. split; [reflexivity|]. split.
    + right. unfold d_raw, d_block. cbn [d_star d_title d_content].
      symmetry. apply trimEnd_header.
    + right. reflexivity.
  - cbn [reparsed]. constructor; [|exact IH].
    split; [reflexivity|]. split; left; reflexivity.
Qed.

Lemma trim_spaces_end x w :
  Forall (fun c => isSpace c = true) w -> trim (x ++ w) = trim x.
Proof.
  intros Hw. unfold trim, trimStart. rewrite dropWhile_app_cases.
  destruct (forallb isSpace x) eqn:F.
  - rewrite (dropWhile_forallb _ _ F).
    rewrite <- (app_nil_r w), (dropWhile_all isSpace w [] Hw). reflexivity.
  - now apply trimEnd_spaces.
Qed.

Lemma trim_trimEnd y : trim (trimEnd y) = trim y.
Proof.
  destruct (trimEnd_split y) as (w & Hy & Hw).
  rewrite Hy at 2. symmetry. now apply trim_spaces_end.
Qed.

Lemma map_chunk_activate : forall l i, map chunk (mapi_from i activate l) = l.
Proof.
  induction l as [|c l IH]; intros i; simpl; auto. rewrite IH. reflexivity.
Qed.

(** Parsing the generated text again finds the sections of the document,
    each with the text the generator wrote for it; the last one trimmed. *)
Lemma reparse_sections toLowerCase source :
  Forall2 (fun sec sec' =>
             title sec' = title sec /\
             (rawLatex sec' = blockOf (parsedChunks toLowerCase source) sec \/
              rawLatex sec' = trimEnd (blockOf (parsedChunks toLowerCase source) sec)) /\
             (childTexts (parsedChunks toLowerCase source) sec = [] ->
              content sec' = content sec))
          (filter isSection (parsedChunks toLowerCase source))
          (filter isSection
             (parsedChunks toLowerCase (regenerated toLowerCase source))).
Proof.
  set (B := bodyOf source).
  set (chunks := parsedChunks toLowerCase source).
  set (G := regenerated toLowerCase source).
  assert (HF : Forall (SectionFact B) (matchAll LatexParser.sectionRegex B)).
  { apply matchAll_from_Forall. intros i mt. apply sectionRegex_fact. }
  pose proof (section_descs toLowerCase B (bodyOf_clean source) _ 0 HF) as HD.
  cbv zeta in HD.
  change (sectionsFrom toLowerCase 0 (matchAll LatexParser.sectionRegex B))
    with chunks in HD.
  destruct HD as (ds & F2 & Hgood).
  assert (Hblocks : map (blockOf chunks) (filter isSection chunks) = map d_block ds).
  { clear - F2. induction F2 as [|sec d secs ds (_ & _ & Hb & _) _ IH]; simpl; congruence. }
  assert (HG : G = preambleOf source ++ [LF; LF] ++ BEGIN
                     ++ ([LF; LF] ++ concat (map d_block ds)) ++ END).
  { unfold G, regenerated. fold chunks. rewrite Hblocks, <- !app_assoc. reflexivity. }
  assert (HB' : bodyOf G = concat (map d_raw (reparsed ds))).
  { rewrite HG, bodyOf_generated.
    - apply trim_generated_body.
    - apply preambleOf_clean.
    - apply Sealed_app.
      + change [LF; LF] with ([LF] ++ [LF]).
        apply Sealed_app; apply Sealed_LF, noLF_END.
      + apply Sealed_concat, Forall_map.
        eapply Forall_impl; [|exact Hgood]. intros d Hd. apply Hd. }
  pose proof (matchAll_Matchable (reparsed ds) [] (S (length (bodyOf G)))
                (Matchable_reparsed ds Hgood)) as HM.
  rewrite <- HB' in HM. specialize (HM (Nat.lt_succ_diag_r _)).
  cbn [app length] in HM. fold (matchAll LatexParser.sectionRegex (bodyOf G)) in HM.
  pose proof (sectionsFrom_sections toLowerCase
                (matchAll LatexParser.sectionRegex (bodyOf G)) 0) as HS'.
  fold (parsedChunks toLowerCase G) in HS'.
  pose proof (Forall2_compose _ _ _ _ _ _ _ _ F2 (reparsed_rel ds)) as C1.
  pose proof (Forall2_compose _ _ _ _ _ _ _ _ C1 (Forall2_swap _ _ _ _ _ HM)) as C2.
  pose proof (Forall2_compose _ _ _ _ _ _ _ _ C2 (Forall2_swap _ _ _ _ _ HS')) as C3.
  eapply Forall2_weaken; [|exact C3]. cbv beta.
  intros sec sec'
         (mt & (r & (d & (Hraw & Htitle & Hblock & Hglue & Hcontent) & Ht & Hr & Hcr) & Hm)
             & Hs').
  destruct Hm as (Hmt & Hc1 & Hc2). destruct Hs' as (Hraw' & Htitle' & Hcontent').
  split; [congruence|]. split.
  - rewrite Hraw', Hmt, Hblock. exact Hr.
  - intros Hno. rewrite Hcontent', Hc2, Hcontent.
    rewrite Hglue, Hno in Hcr.
    assert (Hsp : Forall (fun c => isSpace c = true) (glue [])) by (repeat constructor).
    destruct Hcr as [-> | ->]; [|rewrite trim_trimEnd]; now apply trim_spaces_end.
Qed.

Lemma sectionsFrom_parent toLowerCase : forall ms n ch,
  In ch (sectionsFrom toLowerCase n ms) -> type ch = section -> parentId ch = None.
Proof.
  induction ms as [|mt ms IH]; intros n ch Hin Ht; simpl in Hin; [tauto|].
  destruct Hin as [Hin|Hin]; [subst; reflexivity|].
  apply in_app_or in Hin. destruct Hin as [Hin|Hin]; [|eauto].
  pose proof (itemsOf_type (trim (capture 2 mt)) (sectionId n)) as HF.
  rewrite Forall_forall in HF. apply HF in Hin. congruence.
Qed.

Lemma childTexts_sectionsOnly toLowerCase ms n sec :
  Forall (fun c => type c = section) (sectionsFrom toLowerCase n ms) ->
  childTexts (sectionsFrom toLowerCase n ms) sec = [].
Proof.
  intros H. unfold childTexts.
  replace (filter (fun c => isString (parentId c) (id sec)) (sectionsFrom toLowerCase n ms))
    with (@nil Chunk); [reflexivity|].
  symmetry. rewrite Forall_forall in H.
  assert (Hall : forall ch, In ch (sectionsFrom toLowerCase n ms) ->
                            isString (parentId ch) (id sec) = false).
  { intros ch Hin. rewrite (sectionsFrom_parent toLowerCase ms n ch Hin (H ch Hin)).
    reflexivity. }
  revert Hall. generalize (sectionsFrom toLowerCase n ms) as l.
  induction l as [|c l IH]; intros Hall; simpl; auto.
  rewrite (Hall c) by (left; reflexivity). apply IH.
  intros ch Hin. apply Hall. right. exact Hin.
Qed.

(* ================================================================== *)
(** ** The sort by [order] *)
(* ================================================================== *)

Lemma insertByOrder_perm x : forall l, Permutation (x :: l) (insertByOrder x l).
Proof.
  induction l as [|y l IH]; cbn [insertByOrder]; [apply Permutation_refl|].
  destruct (order x <=? order y)%Z; [apply Permutation_refl|].
  eapply Permutation_trans; [apply perm_swap|]. now apply perm_skip.
Qed.

Lemma sortByOrder_perm : forall l, Permutation l (sortByOrder l).
Proof.
  induction l as [|x l IH]; cbn [sortByOrder fold_right]; [constructor|].
  eapply Permutation_trans; [apply perm_skip, IH|]. apply insertByOrder_perm.
Qed.

Lemma insertByOrder_sorted x : forall l,
  StronglySorted orderLe l -> StronglySorted orderLe (insertByOrder x l).
Proof.
  induction l as [|y l IH]; intros Hs; cbn [insertByOrder].
  - repeat constructor.
  - apply StronglySorted_inv in Hs. destruct Hs as [Hs Hy].
    destruct (order x <=? order y)%Z eqn:E.
    + apply Z.leb_le in E. constructor; [now constructor|].
      constructor; [exact E|].
      eapply Forall_impl; [|exact Hy]. unfold orderLe. intros; lia.
    + apply Z.leb_gt in E. constructor; [now apply IH|].
      apply Forall_forall. intros z Hz.
      apply (Permutation_in z (Permutation_sym (insertByOrder_perm x l))) in Hz.
      destruct Hz as [<-|Hz]; [unfold orderLe; lia|].
      now apply (proj1 (Forall_forall _ _) Hy).
Qed.

Lemma sortByOrder_sorted : forall l, StronglySorted orderLe (sortByOrder l).
Proof.
  induction l as [|x l IH]; cbn [sortByOrder fold_right]; [constructor|].
  now apply insertByOrder_sorted.
Qed.

Lemma insertByOrder_head x l :
  Forall (orderLe x) l -> insertByOrder x l = x :: l.
Proof.
  destruct l as [|y l]; [reflexivity|]. intros H.
  apply Forall_inv in H. unfold orderLe in H. cbn [insertByOrder].
  apply Z.leb_le in H. now rewrite H.
Qed.


Lemma Forall_filter_list (A : Type) (P : A -> Prop) (p : A -> bool) l :
  Forall P l -> Forall P (filter p l).
Proof.
  intros H. apply Forall_forall. intros x Hx. apply filter_In in Hx.
  now apply (proj1 (Forall_forall _ _) H).
Qed.

(** The sort is stable, so it commutes with [filter]. *)
Lemma filter_insertByOrder (p : ResumeChunk -> bool) x : forall l,
  StronglySorted orderLe l ->
  filter p (insertByOrder x l)
  = if p x then insertByOrder x (filter p l) else filter p l.
Proof.
  induction l as [|y l IH]; intros Hs.
  - cbn. now destruct (p x).
  - apply StronglySorted_inv in Hs. destruct Hs as [Hs Hy].
    cbn [insertByOrder]. destruct (order x <=? order y)%Z eqn:E.
    + cbn [filter]. destruct (p x) eqn:Px; [|reflexivity].
      rewrite insertByOrder_head; [reflexivity|].
      apply Z.leb_le in E.
      assert (Hall : Forall (orderLe x) (y :: l)).
      { constructor; [exact E|]. eapply Forall_impl; [|exact Hy].
        unfold orderLe. intros; lia. }
      change (Forall (orderLe x) (filter p (y :: l))).
      now apply Forall_filter_list.
    + cbn [filter]. rewrite (IH Hs).
      destruct (p y) eqn:Py, (p x) eqn:Px; try reflexivity.
      cbn [insertByOrder]. now rewrite E.
Qed.

Lemma filter_sortByOrder (p : ResumeChunk -> bool) : forall l,
  filter p (sortByOrder l) = sortByOrder (filter p l).
Proof.
  induction l as [|x l IH]; [reflexivity|].
  change (sortByOrder (x :: l)) with (insertByOrder x (sortByOrder l)).
  rewrite filter_insertByOrder by apply sortByOrder_sorted.
  cbn [filter]. rewrite IH. now destruct (p x).
Qed.

(** A list sorted by [order] and a list strictly sorted by [order] that
    have the same elements are the same list. *)
Lemma sorted_perm_unique : forall l1 l2,
  StronglySorted orderLe l1 -> StronglySorted orderLt l2 ->
  Permutation l1 l2 -> l1 = l2.
Proof.
  induction l1 as [|a l1 IH]; intros l2 H1 H2 HP.
  - now apply Permutation_nil in HP.
  - destruct l2 as [|b l2].
    + apply Permutation_sym, Permutation_nil in HP. discriminate.
    + apply StronglySorted_inv in H1. destruct H1 as [H1 Ha].
      apply StronglySorted_inv in H2. destruct H2 as [H2 Hb].
      assert (a = b) as ->.
      { pose proof (Permutation_in a HP (or_introl eq_refl)) as Ia.
        pose proof (Permutation_in b (Permutation_sym HP) (or_introl eq_refl)) as Ib.
        destruct Ia as [Ia|Ia]; [now symmetry|].
        destruct Ib as [Ib|Ib]; [exact Ib|].
        pose proof (proj1 (Forall_forall _ _) Ha _ Ib) as L1.
        pose proof (proj1 (Forall_forall _ _) Hb _ Ia) as L2.
        unfold orderLe, orderLt in *. lia. }
      f_equal. apply IH; auto. now apply Permutation_cons_inv in HP.
Qed.

Lemma sortByOrder_unique l t :
  StronglySorted orderLt t -> Permutation l t -> sortByOrder l = t.
Proof.
  intros Ht HP. apply sorted_perm_unique; [apply sortByOrder_sorted|exact Ht|].
  eapply Permutation_trans; [apply Permutation_sym, sortByOrder_perm|exact HP].
Qed.
(* ================================================================== *)
(** ** Indices, [arrayMove] and the registry update of a drag *)
(* ================================================================== *)

Lemma str_eqb_same a : str_eqb a a = true.
Proof. now apply str_eqb_eq. Qed.

Lemma str_eqb_neq a b : a <> b -> str_eqb a b = false.
Proof.
  intros H. destruct (str_eqb a b) eqn:E; [|reflexivity].
  apply str_eqb_eq in E. contradiction.
Qed.

Lemma find_first_from (A : Type) (p : A -> bool) : forall l i k x,
  nth_error l k = Some x -> p x = true ->
  (forall j y, j < k -> nth_error l j = Some y -> p y = false) ->
  find p l = Some x /\ Editor.findIndex_from i p l = (i + Z.of_nat k)%Z.
Proof.
  induction l as [|y l IH]; intros i k x N Px Hb.
  - destruct k; discriminate.
  - destruct k as [|k].
    + injection N as ->. cbn. rewrite Px. split; [reflexivity|lia].
    + cbn. rewrite (Hb 0 y) by (cbn; auto; lia).
      destruct (IH (i + 1)%Z k x N Px) as [F E].
      { intros j z Hj Hz. apply (Hb (S j) z); [lia|exact Hz]. }
      split; [exact F|]. rewrite E. lia.
Qed.

Lemma find_first (A : Type) (p : A -> bool) l k x :
  nth_error l k = Some x -> p x = true ->
  (forall j y, j < k -> nth_error l j = Some y -> p y = false) ->
  find p l = Some x /\ Editor.findIndex p l = Z.of_nat k.
Proof.
  intros N Px Hb. unfold Editor.findIndex.
  destruct (find_first_from _ p l 0%Z k x N Px Hb) as [F E]. split; [exact F|].
  rewrite E. lia.
Qed.

(** In a list without duplicate ids, looking a chunk up by its id finds
    the chunk, at its index. *)
Lemma find_by_id l k c :
  NoDup (map chunkId l) -> nth_error l k = Some c ->
  find (Editor.hasId (chunkId c)) l = Some c /\
  Editor.findIndex (Editor.hasId (chunkId c)) l = Z.of_nat k.
Proof.
  intros ND N. apply find_first; [exact N|apply str_eqb_same|].
  intros j y Hj Ny. unfold Editor.hasId. apply str_eqb_neq. intros E.
  assert (Hk : k < length l) by (apply nth_error_Some; congruence).
  assert (Hj' : j < length l) by lia.
  pose proof (proj1 (NoDup_nth_error (map chunkId l)) ND j k) as Inj.
  rewrite length_map in Inj.
  assert (j = k); [|lia].
  apply Inj; [exact Hj'|].
  rewrite !nth_error_map, Ny, N. cbn. unfold chunkId. now rewrite E.
Qed.

Lemma nth_error_cut (A : Type) : forall (l : list A) i x,
  nth_error l i = Some x -> l = firstn i l ++ x :: skipn (S i) l.
Proof.
  induction l as [|y l IH]; intros [|i] x N; try discriminate.
  - now injection N as ->.
  - cbn. f_equal. now apply IH.
Qed.

Lemma arrayMove_in_range (A : Type) (l : list A) i j x :
  nth_error l i = Some x -> j < length l ->
  Editor.arrayMove l (Z.of_nat i) (Z.of_nat j)
  = firstn j (firstn i l ++ skipn (S i) l) ++ x :: skipn j (firstn i l ++ skipn (S i) l).
Proof.
  intros N Hj.
  assert (Hi : i < length l) by (apply nth_error_Some; congruence).
  unfold Editor.arrayMove, Editor.spliceStart.
  destruct (Z.ltb_spec (Z.of_nat j) 0); [lia|].
  destruct (Z.ltb_spec (Z.of_nat i) 0); [lia|].
  rewrite !Nat2Z.id. rewrite (Nat.min_l i) by lia. rewrite N.
  assert (L : length (firstn i l ++ skipn (S i) l) = length l - 1).
  { rewrite length_app, length_firstn, length_skipn. lia. }
  rewrite L. rewrite (Nat.min_l j) by lia.
  destruct (Z.ltb_spec (Z.of_nat j) 0); [lia|reflexivity].
Qed.

Lemma arrayMove_perm (A : Type) (l : list A) from to :
  Permutation l (Editor.arrayMove l from to).
Proof.
  unfold Editor.arrayMove.
  destruct (nth_error l (Editor.spliceStart (length l) from)) as [x|] eqn:N;
    [|apply Permutation_refl].
  rewrite (nth_error_cut _ _ _ _ N) at 1.
  eapply Permutation_trans; [apply Permutation_sym, Permutation_middle|].
  eapply Permutation_trans; [|apply Permutation_middle].
  apply perm_skip. now rewrite firstn_skipn.
Qed.

Lemma nth_error_mapi_from (A B : Type) (f : A -> nat -> B) : forall l i k,
  nth_error (mapi_from i f l) k = option_map (fun x => f x (i + k)) (nth_error l k).
Proof.
  induction l as [|x l IH]; intros i [|k]; cbn; try reflexivity.
  - now rewrite Nat.add_0_r.
  - rewrite IH. replace (S i + k) with (i + S k) by lia. reflexivity.
Qed.

Lemma renumber_lower : forall l i y,
  In y (mapi_from i (fun c k => Editor.withOrder c (Z.of_nat k)) l) ->
  (Z.of_nat i <= order y)%Z.
Proof.
  induction l as [|x l IH]; intros i y H; cbn [mapi_from] in H; [destruct H|].
  destruct H as [<-|H]; [cbn; lia|].
  apply IH in H. lia.
Qed.

Lemma renumber_sorted_from : forall l i,
  StronglySorted orderLt (mapi_from i (fun c k => Editor.withOrder c (Z.of_nat k)) l).
Proof.
  induction l as [|x l IH]; intros i; cbn [mapi_from]; constructor; [apply IH|].
  apply Forall_forall. intros y Hy. apply renumber_lower in Hy.
  unfold orderLt. cbn. lia.
Qed.

Lemma renumber_sorted l : StronglySorted orderLt (renumber l).
Proof. apply renumber_sorted_from. Qed.

(** On the reordered list itself the update of a drag is the renumbering. *)
Lemma map_reorderStep reordered :
  NoDup (map chunkId reordered) ->
  map (reorderStep reordered) reordered = renumber reordered.
Proof.
  intros ND. apply nth_error_ext. intros k.
  unfold renumber, mapi. rewrite nth_error_map, nth_error_mapi_from.
  destruct (nth_error reordered k) as [c|] eqn:N; [|reflexivity].
  cbn. f_equal. unfold reorderStep.
  destruct (find_by_id reordered k c ND N) as [F E].
  unfold chunkId in F, E. now rewrite F, E.
Qed.

Lemma reorderStep_fields reordered c :
  chunk (reorderStep reordered c) = chunk c /\
  isActive (reorderStep reordered c) = isActive c.
Proof.
  unfold reorderStep.
  destruct (find (Editor.hasId (id (chunk c))) reordered); split; reflexivity.
Qed.

Lemma handleDragEnd_cases chunks active over :
  Editor.handleDragEnd chunks active over = chunks \/
  exists reordered,
    Editor.handleDragEnd chunks active over = map (reorderStep reordered) chunks.
Proof.
  unfold Editor.handleDragEnd.
  destruct over as [o|]; [|now left].
  destruct (str_eqb active o); [now left|].
  destruct (find (Editor.hasId active) chunks) as [ac|]; [|now left].
  destruct (find (Editor.hasId o) chunks) as [oc|]; [|now left].
  destruct (Bool.eqb (isActive ac) (isActive oc)); [|now left].
  right. eexists. reflexivity.
Qed.

(** The drag that takes effect. *)
Lemma handleDragEnd_effect chunks a o ac oc :
  a <> o ->
  find (Editor.hasId a) chunks = Some ac ->
  find (Editor.hasId o) chunks = Some oc ->
  isActive ac = isActive oc ->
  Editor.handleDragEnd chunks a (Some o)
  = map (reorderStep
           (Editor.arrayMove (listOf (isActive ac) chunks)
              (Editor.findIndex (Editor.hasId a) (listOf (isActive ac) chunks))
              (Editor.findIndex (Editor.hasId o) (listOf (isActive ac) chunks))))
        chunks.
Proof.
  intros Hne Fa Fo Hsame. unfold Editor.handleDragEnd.
  rewrite (str_eqb_neq _ _ Hne), Fa, Fo, Hsame, Bool.eqb_reflx.
  unfold listOf. rewrite <- Hsame. destruct (isActive ac); reflexivity.
Qed.

Lemma inList_reorderStep b reordered c :
  inList b (reorderStep reordered c) = inList b c.
Proof.
  unfold inList. now rewrite (proj2 (reorderStep_fields reordered c)).
Qed.

Lemma listOf_filter b chunks :
  listOf b chunks = sortByOrder (filter (inList b) chunks).
Proof. destruct b; reflexivity. Qed.

Lemma filter_same (A : Type) (p q : A -> bool) : forall l,
  (forall x, In x l -> p x = q x) -> filter p l = filter q l.
Proof.
  induction l as [|x l IH]; intros H; [reflexivity|].
  cbn. rewrite (H x (or_introl eq_refl)), IH; [reflexivity|].
  intros y Hy. apply H. now right.
Qed.

(** After a drag, the list of the dragged chunk is the reordered list,
    numbered from 0. *)
Lemma drag_list b chunks reordered :
  NoDup (map chunkId reordered) ->
  Permutation (filter (inList b) chunks) reordered ->
  listOf b (map (reorderStep reordered) chunks) = renumber reordered.
Proof.
  intros ND HP. rewrite listOf_filter, filter_map_swap.
  rewrite (filter_same _ (fun a => inList b (reorderStep reordered a)) (inList b))
    by (intros; apply inList_reorderStep).
  apply sortByOrder_unique; [apply renumber_sorted|].
  rewrite <- (map_reorderStep _ ND). now apply Permutation_map.
Qed.

Lemma NoDup_ids_filter (p : ResumeChunk -> bool) : forall l,
  NoDup (map chunkId l) -> NoDup (map chunkId (filter p l)).
Proof.
  induction l as [|x l IH]; intros ND; [constructor|].
  cbn in ND. apply NoDup_cons_iff in ND. destruct ND as [Hx ND].
  cbn. destruct (p x); [|now apply IH].
  cbn. constructor; [|now apply IH].
  intros H. apply Hx. apply in_map_iff in H. destruct H as (y & E & Hy).
  apply in_map_iff. exists y. split; [exact E|]. now apply filter_In in Hy.
Qed.

Lemma NoDup_ids_perm l l' :
  Permutation l l' -> NoDup (map chunkId l) -> NoDup (map chunkId l').
Proof.
  intros HP. apply Permutation_NoDup. now apply Permutation_map.
Qed.

Lemma NoDup_ids_listOf b chunks :
  NoDup (map chunkId chunks) -> NoDup (map chunkId (listOf b chunks)).
Proof.
  intros ND. rewrite listOf_filter.
  eapply NoDup_ids_perm; [apply sortByOrder_perm|]. now apply NoDup_ids_filter.
Qed.

Lemma find_in_list b chunks i c :
  NoDup (map chunkId chunks) ->
  find (Editor.hasId i) chunks = Some c -> inList b c = true ->
  exists k,
    nth_error (listOf b chunks) k = Some c /\
    find (Editor.hasId i) (listOf b chunks) = Some c /\
    Editor.findIndex (Editor.hasId i) (listOf b chunks) = Z.of_nat k.
Proof.
  intros ND F Hb. destruct (find_hasId _ _ _ F) as [Hin Hid].
  assert (Hl : In c (listOf b chunks)).
  { rewrite listOf_filter. apply (Permutation_in c (sortByOrder_perm _)).
    apply filter_In. now split. }
  apply In_nth_error in Hl. destruct Hl as [k N]. exists k.
  split; [exact N|]. rewrite <- Hid.
  now apply find_by_id; [apply NoDup_ids_listOf|].
Qed.

Lemma map_order_renumber_from : forall l i,
  map order (mapi_from i (fun c k => Editor.withOrder c (Z.of_nat k)) l)
  = map Z.of_nat (seq i (length l)).
Proof.
  induction l as [|x l IH]; intros i; [reflexivity|].
  cbn [mapi_from map length seq]. now rewrite IH.
Qed.

Lemma filter_twice (A : Type) (p q : A -> bool) : forall l,
  filter p (filter q l) = filter (fun x => p x && q x) l.
Proof.
  induction l as [|x l IH]; [reflexivity|].
  cbn [filter]. destruct (q x); cbn [filter]; rewrite IH;
    [now rewrite andb_true_r | now rewrite andb_false_r].
Qed.

Lemma filter_all (A : Type) (p : A -> bool) : forall l,
  (forall x, In x l -> p x = true) -> filter p l = l.
Proof.
  induction l as [|x l IH]; intros H; [reflexivity|].
  cbn [filter]. rewrite (H x (or_introl eq_refl)). f_equal.
  apply IH. intros y Hy. apply H. now right.
Qed.

Lemma filter_none (A : Type) (p : A -> bool) : forall l,
  (forall x, In x l -> p x = false) -> filter p l = [].
Proof.
  induction l as [|x l IH]; intros H; [reflexivity|].
  cbn [filter]. rewrite (H x (or_introl eq_refl)).
  apply IH. intros y Hy. apply H. now right.
Qed.

(** A map that changes no element the filter lets through, and does not
    change what the filter says of an element, does not change the
    filtered list. *)
Lemma filter_map_fixed (A : Type) (q : A -> bool) (t : A -> A) : forall l,
  (forall x, In x l -> q (t x) = q x /\ (q x = true -> t x = x)) ->
  filter q (map t l) = filter q l.
Proof.
  induction l as [|x l IH]; intros H; [reflexivity|].
  destruct (H x (or_introl eq_refl)) as [Hq Hfix].
  cbn [map filter]. rewrite Hq, IH by (intros y Hy; apply H; now right).
  destruct (q x) eqn:Q; [|reflexivity]. now rewrite Hfix.
Qed.

(** With unique ids, the chunk found under an id is the only one that has
    it. *)
Lemma hasId_only chunks i c x :
  NoDup (map chunkId chunks) ->
  find (Editor.hasId i) chunks = Some c ->
  In x chunks -> Editor.hasId i x = true -> x = c.
Proof.
  intros ND F Hx Hi. destruct (find_hasId _ _ _ F) as [Hc Hid].
  apply (NoDup_map_inj _ _ chunkId chunks x c ND Hx Hc).
  unfold Editor.hasId in Hi. apply str_eqb_eq in Hi. unfold chunkId in *. congruence.
Qed.

Lemma hasId_found i l c : find (Editor.hasId i) l = Some c -> Editor.hasId i c = true.
Proof.
  intros F. destruct (find_hasId _ _ _ F) as [_ Hid].
  unfold Editor.hasId. apply str_eqb_eq. exact Hid.
Qed.

Lemma find_none_hasId i : forall l x,
  find (Editor.hasId i) l = None -> In x l -> Editor.hasId i x = false.
Proof.
  intros l x H Hx. now apply (find_none _ _ H).
Qed.

Lemma find_deleteChunk i : forall chunks,
  find (Editor.hasId i) (Editor.deleteChunk chunks i) = None.
Proof.
  intros chunks. unfold Editor.deleteChunk.
  destruct (find (Editor.hasId i) (filter (fun c => negb (Editor.hasId i c)) chunks))
    as [c|] eqn:F; [|reflexivity].
  apply find_some in F. destruct F as [Hin Hi].
  apply filter_In in Hin. destruct Hin as [_ Hn]. rewrite Hi in Hn. discriminate.
Qed.

Lemma toggle_absent i chunks :
  find (Editor.hasId i) chunks = None -> Editor.toggleChunkActive chunks i = chunks.
Proof.
  intros F. unfold Editor.toggleChunkActive.
  rewrite <- (map_id chunks) at 2. apply map_ext_in. intros c Hc.
  now rewrite (find_none_hasId i chunks c F Hc).
Qed.

Lemma drag_absent i chunks over :
  find (Editor.hasId i) chunks = None -> Editor.handleDragEnd chunks i over = chunks.
Proof.
  intros F. unfold Editor.handleDragEnd. destruct over as [o|]; [|reflexivity].
  destruct (str_eqb i o); [reflexivity|]. now rewrite F.
Qed.

(** A drag of a chunk of one list does not touch the chunks of the other
    list. *)
Lemma reorderStep_other b chunks reordered c :
  NoDup (map chunkId chunks) ->
  (forall r, In r reordered -> In r chunks /\ inList b r = true) ->
  In c chunks -> inList b c = false ->
  reorderStep reordered c = c.
Proof.
  intros ND HR Hc Hb. unfold reorderStep.
  destruct (find (Editor.hasId (id (chunk c))) reordered) as [r|] eqn:F; [|reflexivity].
  destruct (find_hasId _ _ _ F) as [Hr Hid].
  destruct (HR r Hr) as [Hrc Hrb].
  assert (r = c) by (apply (NoDup_map_inj _ _ chunkId chunks r c ND Hrc Hc); exact Hid).
  subst r. congruence.
Qed.

Lemma inList_negb b c : inList (negb b) c = negb (inList b c).
Proof. destruct b; cbn; [reflexivity|now rewrite negb_involutive]. Qed.

Lemma drag_other_list b chunks a over ac :
  NoDup (map chunkId chunks) ->
  find (Editor.hasId a) chunks = Some ac -> inList b ac = false ->
  filter (inList b) (Editor.handleDragEnd chunks a over) = filter (inList b) chunks.
Proof.
  intros ND Fa Hb.
  destruct over as [o|]; [|reflexivity].
  destruct (str_eqb a o) eqn:Eao.
  { unfold Editor.handleDragEnd. now rewrite Eao. }
  assert (Hne : a <> o).
  { intros ->. rewrite str_eqb_same in Eao. discriminate. }
  destruct (find (Editor.hasId o) chunks) as [oc|] eqn:Fo.
  2:{ unfold Editor.handleDragEnd. now rewrite Eao, Fa, Fo. }
  destruct (Bool.eqb (isActive ac) (isActive oc)) eqn:Es.
  2:{ unfold Editor.handleDragEnd. now rewrite Eao, Fa, Fo, Es. }
  apply Bool.eqb_prop in Es.
  rewrite (handleDragEnd_effect chunks a o ac oc Hne Fa Fo Es).
  apply filter_map_fixed. intros x Hx. split; [apply inList_reorderStep|].
  intros Hbx. apply (reorderStep_other (isActive ac) chunks); [exact ND| |exact Hx|].
  - intros r Hr. apply In_arrayMove in Hr. rewrite listOf_filter in Hr.
    apply In_sortByOrder in Hr. now apply filter_In in Hr.
  - unfold inList in *. destruct b, (isActive ac), (isActive x); cbn in *; congruence.
Qed.

Lemma Editor_generateLatex_shape chunks preamble :
  Editor.generateLatex chunks preamble
  = preamble ++ [LF; LF]
    ++ concat (map (fun c => rawLatex (chunk c) ++ [LF; LF]) (Editor.activeChunks chunks))
    ++ END.
Proof.
  unfold Editor.generateLatex. rewrite fold_left_append. now rewrite <- !app_assoc.
Qed.

Lemma Permutation_filter_list (A : Type) (p : A -> bool) (l l' : list A) :
  Permutation l l' -> Permutation (filter p l) (filter p l').
Proof.
  induction 1 as [|x l l' HP IH|x y l|l l' l'' HP1 IH1 HP2 IH2]; cbn [filter].
  - constructor.
  - destruct (p x); [now constructor|exact IH].
  - destruct (p x), (p y); try apply Permutation_refl. apply perm_swap.
  - eapply Permutation_trans; eassumption.
Qed.

Lemma sorted_strict : forall l,
  StronglySorted orderLe l -> NoDup (map order l) -> StronglySorted orderLt l.
Proof.
  induction l as [|x l IH]; intros Hs ND; [constructor|].
  apply StronglySorted_inv in Hs. destruct Hs as [Hs Hx].
  cbn in ND. apply NoDup_cons_iff in ND. destruct ND as [Hn ND].
  constructor; [now apply IH|].
  apply Forall_forall. intros y Hy.
  pose proof (proj1 (Forall_forall _ _) Hx y Hy) as Hle.
  unfold orderLe, orderLt in *.
  assert (order x <> order y); [|lia].
  intros E. apply Hn. rewrite E. now apply in_map.
Qed.

(** The sorted list of the active chunks depends on the chunks and their
    orders, not on their places in the array, when the orders differ. *)
Lemma sorted_active_perm chunks chunks' :
  Permutation chunks chunks' ->
  NoDup (map order (filter isActive chunks)) ->
  sortByOrder (filter isActive chunks) = sortByOrder (filter isActive chunks').
Proof.
  intros HP ND.
  assert (HPf : Permutation (filter isActive chunks) (filter isActive chunks'))
    by now apply Permutation_filter_list.
  apply sortByOrder_unique.
  - apply sorted_strict; [apply sortByOrder_sorted|].
    apply (Permutation_NoDup (l := map order (filter isActive chunks))); [|exact ND].
    apply Permutation_map.
    eapply Permutation_trans; [exact HPf|apply sortByOrder_perm].
  - eapply Permutation_trans; [exact HPf|apply sortByOrder_perm].
Qed.
(* ================================================================== *)
(** ** Chunk ids are unique *)
(* ================================================================== *)

Lemma lit_inj s t : lit s = lit t -> s = t.
Proof.
  unfold lit. intros H.
  rewrite <- (string_of_list_ascii_of_string s), <- (string_of_list_ascii_of_string t).
  f_equal. revert H.
  generalize (list_ascii_of_string s) as a, (list_ascii_of_string t) as b.
  induction a as [|x a IH]; destruct b as [|y b]; cbn; intros H; try discriminate;
    [reflexivity|].
  injection H as Hx Hab. f_equal; [|now apply IH].
  rewrite <- (ascii_N_embedding x), <- (ascii_N_embedding y). now rewrite Hx.
Qed.

Lemma string_of_uint_inj : forall d e,
  NilEmpty.string_of_uint d = NilEmpty.string_of_uint e -> d = e.
Proof.
  induction d; destruct e; cbn; intros H; try discriminate; try reflexivity;
    injection H as H; f_equal; now apply IHd.
Qed.

Lemma toString_uint n :
  toString n = lit (NilEmpty.string_of_uint (Nat.to_uint n)).
Proof.
  unfold toString, NilZero.string_of_uint.
  destruct (Nat.to_uint n) eqn:E; try reflexivity.
  exfalso. pose proof (DecimalNat.Unsigned.to_of (Nat.to_uint n)) as H.
  rewrite DecimalNat.Unsigned.of_to, E in H. discriminate H.
Qed.

Lemma toString_inj n k : toString n = toString k -> n = k.
Proof.
  rewrite !toString_uint. intros H.
  apply DecimalNat.Unsigned.to_uint_inj, string_of_uint_inj, lit_inj. exact H.
Qed.

Lemma string_of_uint_digits : forall d,
  Forall (fun c => isDigit c = true) (lit (NilEmpty.string_of_uint d)).
Proof.
  induction d; cbn; constructor; try reflexivity; exact IHd.
Qed.

Lemma toString_digits n : Forall (fun c => isDigit c = true) (toString n).
Proof. rewrite toString_uint. apply string_of_uint_digits. Qed.

(** Two texts that begin with digits and go on with something that is not
    a digit are equal only if the digits and the rests are. *)
Lemma digits_split : forall d1 d2 t1 t2,
  Forall (fun c => isDigit c = true) d1 -> Forall (fun c => isDigit c = true) d2 ->
  noDigitHead t1 -> noDigitHead t2 ->
  d1 ++ t1 = d2 ++ t2 -> d1 = d2 /\ t1 = t2.
Proof.
  induction d1 as [|a d1 IH]; intros [|b d2] t1 t2 H1 H2 N1 N2 E; cbn in E.
  - now split.
  - subst t1. cbn in N1. apply Forall_inv in H2. congruence.
  - subst t2. cbn in N2. apply Forall_inv in H1. congruence.
  - injection E as -> E.
    destruct (IH d2 t1 t2) as [-> ->]; auto; [now inversion H1|now inversion H2].
Qed.

Lemma idTail_noDigitHead t : idTail t -> noDigitHead t.
Proof. intros [->|[k ->]]; [exact I|reflexivity]. Qed.

Lemma sectionId_clash j j' t t' :
  idTail t -> idTail t' ->
  sectionId j ++ t = sectionId j' ++ t' -> j = j' /\ t = t'.
Proof.
  intros Ht Ht' E. unfold sectionId in E. rewrite <- !app_assoc in E.
  apply app_inv_head in E.
  destruct (digits_split (toString j) (toString j') t t') as [Ej Et];
    auto using toString_digits, idTail_noDigitHead.
  split; [now apply toString_inj|exact Et].
Qed.

Lemma itemId_inj pid k k' : itemId pid k = itemId pid k' -> k = k'.
Proof.
  unfold itemId. intros E. apply app_inv_head in E. apply app_inv_head in E.
  now apply toString_inj.
Qed.

Lemma itemsOf_ids_from content n c :
  In c (itemsOf content (sectionId n)) ->
  exists k, id c = sectionId n ++ lit "-item-" ++ toString k.
Proof.
  intros H. unfold itemsOf, mapi in H. apply In_mapi_from in H.
  destruct H as (mt & k & _ & ->). exists k. reflexivity.
Qed.

Lemma sectionsFrom_idFrom toLowerCase : forall ms n c,
  In c (sectionsFrom toLowerCase n ms) -> idFrom n (id c).
Proof.
  induction ms as [|mt ms IH]; intros n c H; [destruct H|].
  cbn [sectionsFrom] in H. cbv zeta in H. destruct H as [<-|H].
  - exists n, []. split; [lia|]. split; [now rewrite app_nil_r|now left].
  - apply in_app_or in H. destruct H as [H|H].
    + apply itemsOf_ids_from in H. destruct H as [k ->].
      exists n, (lit "-item-" ++ toString k). split; [lia|].
      split; [reflexivity|]. right. now exists k.
    + apply IH in H. destruct H as (j & t & Hj & E & Ht).
      exists j, t. split; [lia|]. now split.
Qed.

Lemma sectionsFrom_NoDup toLowerCase : forall ms n,
  NoDup (map id (sectionsFrom toLowerCase n ms)).
Proof.
  induction ms as [|mt ms IH]; intros n; [constructor|].
  cbn [sectionsFrom]. cbv zeta.
  set (items := itemsOf (trim (capture 2 mt)) (sectionId n)).
  cbn [map]. rewrite map_app.
  assert (Hitems : forall x, In x (map id items) ->
                             exists k, x = sectionId n ++ lit "-item-" ++ toString k).
  { intros x Hx. apply in_map_iff in Hx. destruct Hx as (c & <- & Hc).
    now apply itemsOf_ids_from in Hc. }
  assert (Hrest : forall x,
             In x (map id (sectionsFrom toLowerCase (S n + length items) ms)) ->
             idFrom (S n) x).
  { intros x Hx. apply in_map_iff in Hx. destruct Hx as (c & <- & Hc).
    apply sectionsFrom_idFrom in Hc. destruct Hc as (j & t & Hj & E & Ht).
    exists j, t. split; [lia|]. now split. }
  constructor.
  - cbn [id sectionOf]. intros H. apply in_app_or in H. destruct H as [H|H].
    + apply Hitems in H. destruct H as [k E].
      rewrite <- (app_nil_r (sectionId n)) in E at 1.
      apply app_inv_head in E. discriminate.
    + apply Hrest in H. destruct H as (j & t & Hj & E & Ht).
      rewrite <- (app_nil_r (sectionId n)) in E at 1.
      apply sectionId_clash in E; [|now left|exact Ht]. lia.
  - apply NoDup_app; [| apply IH |].
    + unfold items. rewrite itemsOf_ids.
      apply Finite.Injective_map_NoDup_in; [|apply seq_NoDup].
      intros k k' _ _. apply itemId_inj.
    + intros x Hx Hr. apply Hitems in Hx. destruct Hx as [k ->].
      apply Hrest in Hr. destruct Hr as (j & t & Hj & E & Ht).
      apply sectionId_clash in E; [lia| |exact Ht]. right. now exists k.
Qed.
(* ================================================================== *)
(** ** More on the structural parser *)
(* ================================================================== *)

Lemma NoOcc_includes L : forall x, includes L x = false -> NoOcc L x.
Proof.
  intros x H a. revert x H.
  induction a as [|c a IH]; intros x H b E; cbn in E; subst x.
  - destruct b; cbn in H; apply orb_false_elim in H; tauto.
  - cbn [includes] in H. apply orb_false_elim in H. destruct H as [_ H].
    now apply (IH _ H b).
Qed.

Lemma NoOcc_inside L x u r : NoOcc L x -> x <> u ++ L ++ r.
Proof.
  intros H E. pose proof (H u (L ++ r) E) as F.
  rewrite startsWith_app in F. discriminate.
Qed.

Lemma minlen_Str : forall L, minlen (Str L) = length L.
Proof. induction L as [|c L IH]; cbn; [reflexivity|now rewrite IH]. Qed.

Lemma startsWith_short : forall L u v,
  startsWith L (u ++ v) = true -> length L <= length u -> startsWith L u = true.
Proof.
  induction L as [|c L IH]; intros u v H Hl; [reflexivity|].
  destruct u as [|x u]; cbn in Hl; [lia|]. cbn in *.
  apply andb_prop in H. destruct H as [-> H]. cbn. apply (IH u v H). lia.
Qed.

(** A match of a pattern that begins with a literal begins with the
    literal, which therefore occurs in the input. *)
Lemma exec_literal L r input i mt :
  exec (Str L @@ r) input i = Some mt ->
  startsWith L (m_text mt) = true /\ ~ NoOcc L input.
Proof.
  intros E. destruct (exec_m _ _ _ _ E) as (s1 & pv1 & cur' & Hp & Hm & Ht).
  pose proof (accept_inv _ _ _ _ _ Hm) as (Hs & Hlen & _).
  cbn [m] in Hm. rewrite m_Str_cases in Hm.
  destruct (startsWith L s1) eqn:S1; [|discriminate]. split.
  - rewrite Ht. rewrite Hs in S1. apply (startsWith_short _ _ _ S1).
    cbn [minlen] in Hlen. rewrite minlen_Str in Hlen. lia.
  - intros HN. pose proof (NoOcc_piece _ _ _ Hp HN [] s1 eq_refl). congruence.
Qed.

Lemma exec_literal_none L r input i :
  NoOcc L input -> exec (Str L @@ r) input i = None.
Proof.
  intros HN. destruct (exec (Str L @@ r) input i) as [mt|] eqn:E; [|reflexivity].
  apply exec_literal in E. tauto.
Qed.

Lemma matchAll_none r input :
  (forall i, exec r input i = None) -> matchAll r input = [].
Proof. intros H. unfold matchAll. cbn [matchAll_from]. now rewrite H. Qed.

Lemma preambleRegex_none content :
  NoOcc BEGIN content -> str_match LatexParser.preambleRegex content = None.
Proof.
  intros HN. unfold str_match.
  destruct (exec LatexParser.preambleRegex content 0) as [mt|] eqn:E; [|reflexivity].
  apply exec_m in E. destruct E as (s1 & pv1 & cur' & (u & v & Hp) & Hm & _).
  apply (lazy_until_cases 1 BEGIN) in Hm. destruct Hm as (c & r & Hs & _ & _).
  exfalso. apply (NoOcc_inside BEGIN content (u ++ c) (r ++ v) HN).
  rewrite Hp, Hs. now rewrite <- !app_assoc.
Qed.

Lemma bodyRegex_none content :
  NoOcc BEGIN content \/ NoOcc END content ->
  str_match LatexParser.bodyRegex content = None.
Proof.
  intros HN. unfold str_match.
  destruct (exec LatexParser.bodyRegex content 0) as [mt|] eqn:E; [|reflexivity].
  apply exec_m in E. destruct E as (s1 & pv1 & cur' & (u & v & Hp) & Hm & _).
  apply bodyRegex_inv in Hm. destruct Hm as (c & r & Hs & _ & _).
  exfalso. destruct HN as [HN|HN].
  - apply (NoOcc_inside BEGIN content u (c ++ END ++ r ++ v) HN).
    rewrite Hp, Hs. now rewrite <- !app_assoc.
  - apply (NoOcc_inside END content (u ++ BEGIN ++ c) (r ++ v) HN).
    rewrite Hp, Hs. now rewrite <- !app_assoc.
Qed.

(** *** The shape of the chunks *)

Lemma sectionsFrom_section toLowerCase : forall ms n c,
  In c (sectionsFrom toLowerCase n ms) -> type c = section ->
  exists mt k, In mt ms /\ c = sectionOf toLowerCase mt k.
Proof.
  induction ms as [|mt ms IH]; intros n c H Ht; [destruct H|].
  cbn [sectionsFrom] in H. cbv zeta in H. destruct H as [<-|H].
  - exists mt, n. split; [now left|reflexivity].
  - apply in_app_or in H. destruct H as [H|H].
    + pose proof (itemsOf_type (trim (capture 2 mt)) (sectionId n)) as Hit.
      rewrite Forall_forall in Hit. rewrite (Hit c H) in Ht. discriminate.
    + destruct (IH _ _ H Ht) as (mt' & k & Hin & E).
      exists mt', k. split; [now right|exact E].
Qed.

Lemma sectionsFrom_item toLowerCase : forall ms n c,
  In c (sectionsFrom toLowerCase n ms) -> type c = item ->
  exists sec,
    In sec (sectionsFrom toLowerCase n ms) /\ type sec = section /\
    In c (itemsOf (content sec) (id sec)).
Proof.
  induction ms as [|mt ms IH]; intros n c H Ht; [destruct H|].
  cbn [sectionsFrom] in H. cbv zeta in H. destruct H as [<-|H]; [discriminate|].
  apply in_app_or in H. destruct H as [H|H].
  - exists (sectionOf toLowerCase mt n). split; [now left|]. split; [reflexivity|exact H].
  - destruct (IH _ _ H Ht) as (sec & Hin & Hs & Hc).
    exists sec. split; [|now split].
    cbn [sectionsFrom]. cbv zeta. right. apply in_or_app. now right.
Qed.

Lemma sectionsFrom_types toLowerCase : forall ms n,
  Forall (fun c => type c = section \/ type c = item) (sectionsFrom toLowerCase n ms).
Proof.
  induction ms as [|mt ms IH]; intros n; [constructor|].
  cbn [sectionsFrom]. cbv zeta. constructor; [now left|].
  apply Forall_app. split; [|apply IH].
  eapply Forall_impl; [|apply itemsOf_type]. intros c Hc. now right.
Qed.

Lemma itemMatches_literal content mt :
  In mt (itemMatches content) ->
  startsWith (lit "\subsection") (m_text mt) = true \/
  startsWith (lit "\item") (m_text mt) = true \/
  startsWith (lit "\cventry") (m_text mt) = true.
Proof.
  unfold itemMatches. intros H.
  apply in_app_or in H. destruct H as [H|H]; [|apply in_app_or in H; destruct H as [H|H]].
  - left. revert mt H. apply matchAll_from_Forall_in.
    intros j mt E. now apply exec_literal in E.
  - right. left. revert mt H. apply matchAll_from_Forall_in.
    intros j mt E. now apply exec_literal in E.
  - right. right. revert mt H. apply matchAll_from_Forall_in.
    intros j mt E. now apply exec_literal in E.
Qed.

(** *** Trimmed texts *)

Lemma trim_head x : trim x = [] \/ exists c r, trim x = c :: r /\ isSpace c = false.
Proof.
  unfold trim, trimStart.
  destruct (dropWhile_split isSpace x) as (w & E & Hw).
  destruct (dropWhile isSpace x) as [|c r] eqn:D; [now left|]. right.
  assert (Hc : isSpace c = false).
  { clear E Hw. revert D. induction x as [|y x IH]; cbn; [discriminate|].
    destruct (isSpace y) eqn:Y; [exact IH|]. intros D. injection D as -> _. exact Y. }
  exists c, (trimEnd r). split; [|exact Hc].
  now apply (trimEnd_keep [] c r).
Qed.

Lemma trim_trim_spaces x w :
  Forall (fun c => isSpace c = true) w -> trim (trim x ++ w) = trim x.
Proof.
  intros Hw. destruct (trim_head x) as [E|(c & r & E & Hc)].
  - rewrite E. cbn [app]. unfold trim, trimStart.
    rewrite <- (app_nil_r w), (dropWhile_all isSpace w [] Hw). reflexivity.
  - unfold trim at 1. unfold trimStart. rewrite E. cbn [app dropWhile]. rewrite Hc.
    change (c :: r ++ w) with ((c :: r) ++ w). rewrite (trimEnd_spaces _ _ Hw).
    rewrite <- E. unfold trim. apply trimEnd_idem.
Qed.

Lemma preambleOf_trimmed content : exists y, preambleOf content = trim y.
Proof.
  unfold preambleOf.
  destruct (str_match LatexParser.preambleRegex content) as [mt|];
    [now eexists|now exists []].
Qed.

(** The preamble of a text made of a preamble without [\begin{document}]
    and the opening of the document. *)
Lemma preambleOf_generated P Z :
  NoOcc BEGIN P -> preambleOf (P ++ [LF; LF] ++ BEGIN ++ Z) = trim (P ++ [LF; LF]).
Proof.
  intros HP. unfold preambleOf, str_match, exec.
  replace (Nat.ltb (length (P ++ [LF; LF] ++ BEGIN ++ Z)) 0) with false
    by (symmetry; apply Nat.ltb_ge; lia).
  cbn [skipn charBefore].
  assert (HS : Sealed BEGIN (P ++ [LF; LF])).
  { change [LF; LF] with ([LF] ++ [LF]). rewrite app_assoc.
    apply Sealed_app; [apply NoOcc_Sealed | apply Sealed_LF];
      auto using noLF_BEGIN. }
  assert (Hm : m LatexParser.preambleRegex accept
                 (Cursor None ((P ++ [LF; LF]) ++ BEGIN ++ Z)) []
               = Some (Cursor (after (after None (P ++ [LF; LF])) BEGIN) Z,
                       [(1, P ++ [LF; LF])])).
  { apply (lazy_until_cases 1 BEGIN). exists (P ++ [LF; LF]), Z.
    split; [reflexivity|]. split; [apply HS|reflexivity]. }
  rewrite <- app_assoc in Hm. cbn [app] in Hm. cbn [app].
  rewrite (search_hit _ _ _ _ _ _ Hm).
  unfold capture, group. reflexivity.
Qed.

Lemma map_order_activate : forall l i,
  map order (mapi_from i (fun chunk idx => MkResumeChunk chunk (Z.of_nat idx) true) l)
  = map Z.of_nat (seq i (length l)).
Proof.
  induction l as [|x l IH]; intros i; [reflexivity|].
  cbn [mapi_from map length seq]. now rewrite IH.
Qed.

Lemma length_mapi_from (A B : Type) (f : A -> nat -> B) : forall l i,
  length (mapi_from i f l) = length l.
Proof. induction l as [|x l IH]; intros i; cbn; [reflexivity|now rewrite IH]. Qed.

Lemma matchAll_section_facts body mt :
  In mt (matchAll LatexParser.sectionRegex body) -> SectionFact body mt.
Proof.
  revert mt. unfold matchAll. apply matchAll_from_Forall_in.
  intros j mt E. now apply sectionRegex_fact in E.
Qed.

Lemma notBrace_Forall t :
  Forall (fun x => notBrace x = true) t -> ~ In (ch "}") t.
Proof.
  intros H Hin. rewrite Forall_forall in H. specialize (H _ Hin).
  rewrite notBrace_close in H. discriminate.
Qed.

Lemma pieceOf_app_r x u v : pieceOf x v -> pieceOf x (u ++ v).
Proof.
  intros (a & b & ->). exists (u ++ a), b. now rewrite <- app_assoc.
Qed.

(** The texts of the chunks are pieces of the body. *)
Lemma sectionsFrom_pieces toLowerCase body c :
  In c (sectionsFrom toLowerCase 0 (matchAll LatexParser.sectionRegex body)) ->
  pieceOf (rawLatex c) body /\ pieceOf (content c) body.
Proof.
  intros Hc.
  assert (Hsec : forall sec,
             In sec (sectionsFrom toLowerCase 0 (matchAll LatexParser.sectionRegex body)) ->
             type sec = section ->
             pieceOf (rawLatex sec) body /\ pieceOf (content sec) body).
  { intros sec Hs Ht. destruct (sectionsFrom_section _ _ _ _ Hs Ht) as (mt & k & Hmt & ->).
    destruct (matchAll_section_facts _ _ Hmt) as (star & t & c0 & Ht0 & _ & Hc0 & _ & _ & _ & Hp).
    cbn [rawLatex content sectionOf]. split; [exact Hp|].
    eapply pieceOf_trans; [apply trim_piece|].
    eapply pieceOf_trans; [|exact Hp].
    rewrite Ht0, Hc0. apply pieceOf_app_r. exists [], []. now rewrite app_nil_r. }
  destruct (type c) eqn:Ht.
  - now apply Hsec.
  - pose proof (sectionsFrom_types toLowerCase (matchAll LatexParser.sectionRegex body) 0) as HT.
    rewrite Forall_forall in HT. destruct (HT c Hc); congruence.
  - destruct (sectionsFrom_item _ _ _ _ Hc Ht) as (sec & Hs & Hst & Hin).
    destruct (Hsec sec Hs Hst) as [_ Hpc].
    destruct (itemsOf_piece _ _ _ Hin) as [Hp _].
    assert (Hraw : pieceOf (rawLatex c) body) by (eapply pieceOf_trans; eauto).
    split; [exact Hraw|].
    unfold itemsOf, mapi in Hin. apply In_mapi_from in Hin.
    destruct Hin as (mt & k & _ & ->). exact Hraw.
Qed.
(* ================================================================== *)
(** ** Escaping, as a code *)
(* ================================================================== *)

Lemma escapeLatex_flat : forall text,
  PdfParser.escapeLatex text = flat_map escapeChar text.
Proof.
  induction text as [|c text IH]; [reflexivity|].
  change (c :: text) with ([c] ++ text).
  rewrite escapeLatex_app, IH. cbn [flat_map app]. f_equal.
  unfold escapeChar. destruct (N.eqb c (ch "\")) eqn:E.
  - apply N.eqb_eq in E. subst c. reflexivity.
  - now apply escapeLatex_char.
Qed.

Lemma escapeChar_cases c :
  (c = ch "\" /\ escapeChar c = lit "\textbackslash\{\}") \/
  (PdfParser.isSpecial c = true /\ escapeChar c = [ch "\"; c]) \/
  (c = ch "~" /\ escapeChar c = lit "\textasciitilde{}") \/
  (c = ch "^" /\ escapeChar c = lit "\textasciicircum{}") \/
  (needsEscape c = false /\ escapeChar c = [c]).
Proof.
  unfold escapeChar, literalOf, needsEscape.
  destruct (N.eqb c (ch "\")) eqn:Eb.
  { left. apply N.eqb_eq in Eb. now split. }
  destruct (PdfParser.isSpecial c) eqn:Es.
  { right. left. now split. }
  destruct (N.eqb c (ch "~")) eqn:Et.
  { right. right. left. apply N.eqb_eq in Et. now split. }
  destruct (N.eqb c (ch "^")) eqn:Ec.
  { right. right. right. left. apply N.eqb_eq in Ec. now split. }
  right. right. right. right. now split.
Qed.

Local Ltac escape_cases c H :=
  destruct (escapeChar_cases c) as [[-> ->]|[[H ->]|[[-> ->]|[[-> ->]|[H ->]]]]].

(** The images of the characters form a prefix code. *)
Lemma escapeChar_prefix_free c c' r r' :
  escapeChar c ++ r = escapeChar c' ++ r' -> c = c' /\ r = r'.
Proof.
  escape_cases c H; escape_cases c' H'; intros E; vm_compute in E;
    inversion E; subst; try (split; reflexivity);
    try (vm_compute in H; discriminate H);
    try (vm_compute in H'; discriminate H').
Qed.

Lemma escapeChar_nonempty c : escapeChar c <> [].
Proof. escape_cases c H; discriminate. Qed.

Lemma escapeLatex_inj : forall a b,
  PdfParser.escapeLatex a = PdfParser.escapeLatex b -> a = b.
Proof.
  intros a b. rewrite !escapeLatex_flat. revert b.
  induction a as [|c a IH]; intros [|c' b] E; cbn [flat_map] in E.
  - reflexivity.
  - symmetry in E. apply app_eq_nil in E. destruct E as [E _].
    now apply escapeChar_nonempty in E.
  - apply app_eq_nil in E. destruct E as [E _]. now apply escapeChar_nonempty in E.
  - apply escapeChar_prefix_free in E. destruct E as [-> E]. f_equal. now apply IH.
Qed.

Lemma escapeChar_length c :
  1 <= length (escapeChar c) /\ (needsEscape c = true -> 2 <= length (escapeChar c)).
Proof.
  escape_cases c H; cbn; split; try lia; intros; try lia; congruence.
Qed.

Lemma escapeLatex_length : forall text,
  length text <= length (PdfParser.escapeLatex text) /\
  (existsb needsEscape text = true -> length text < length (PdfParser.escapeLatex text)).
Proof.
  intros text. rewrite escapeLatex_flat.
  induction text as [|c text [IH1 IH2]]; [cbn; split; [lia|discriminate]|].
  cbn [flat_map existsb length]. rewrite length_app.
  destruct (escapeChar_length c) as [L1 L2]. split; [lia|].
  intros E. apply orb_prop in E. destruct E as [E|E]; [specialize (L2 E)|specialize (IH2 E)]; lia.
Qed.

Lemma escapeLatex_plain : forall text,
  existsb needsEscape text = false -> PdfParser.escapeLatex text = text.
Proof.
  intros text. rewrite escapeLatex_flat.
  induction text as [|c text IH]; [reflexivity|].
  cbn [existsb flat_map]. intros E. apply orb_false_elim in E. destruct E as [Ec Et].
  rewrite (IH Et). escape_cases c H; try discriminate Ec; try reflexivity.
  unfold needsEscape in Ec. rewrite H in Ec. rewrite orb_true_r in Ec. discriminate.
Qed.

(** *** No section command in converted text *)

Lemma clash_startsWith : forall L b z,
  clash L b = true -> startsWith L (b ++ z) = false.
Proof.
  induction L as [|x L IH]; intros [|y b] z H; try discriminate.
  cbn in *. destruct (N.eqb x y); [|reflexivity]. cbn in H. now rewrite (IH b z H).
Qed.

Lemma sealedb_Sealed L : forall x, sealedb L x = true -> Sealed L x.
Proof.
  induction x as [|c x IH]; intros H z a b E Hb.
  - destruct a, b; try discriminate. contradiction.
  - cbn [sealedb] in H. apply andb_prop in H. destruct H as [Hc Hx].
    destruct a as [|a0 a].
    + cbn in E. subst b. now apply clash_startsWith.
    + injection E as -> E. now apply (IH Hx z a b).
Qed.

Lemma escapeChar_sealed c : Sealed SECTION (escapeChar c).
Proof.
  apply sealedb_Sealed.
  escape_cases c H; try (vm_compute; reflexivity).
  - unfold PdfParser.isSpecial in H.
    repeat (apply orb_prop in H; destruct H as [H|H]);
      apply N.eqb_eq in H; subst c; vm_compute; reflexivity.
  - cbn [sealedb clash SECTION]. unfold needsEscape in H.
    apply orb_false_elim in H. destruct H as [H _].
    apply orb_false_elim in H. destruct H as [H _].
    apply orb_false_elim in H. destruct H as [H _].
    change SECTION with (ch "\" :: lit "section"). cbn [clash].
    rewrite N.eqb_sym, H. reflexivity.
Qed.

Lemma escapeLatex_sealed : forall text, Sealed SECTION (PdfParser.escapeLatex text).
Proof.
  intros text. rewrite escapeLatex_flat.
  induction text as [|c text IH]; [apply Sealed_nil|].
  cbn [flat_map]. apply Sealed_app; [apply escapeChar_sealed|exact IH].
Qed.

Lemma convertLine_app latex line :
  PdfParser.convertLine latex line = latex ++ PdfParser.convertLine [] line.
Proof.
  unfold PdfParser.convertLine. cbv zeta.
  destruct (trim line) as [|c rest]; [reflexivity|].
  destruct (PdfParser.isBullet c); [reflexivity|].
  destruct (Nat.ltb (length (c :: rest)) 100 && isUpper c); reflexivity.
Qed.

Lemma convertToLatex_concat text :
  PdfParser.convertToLatex text
  = concat (map (PdfParser.convertLine []) (filter nonEmpty (split LF text))).
Proof.
  unfold PdfParser.convertToLatex. cbv zeta.
  rewrite (fold_left_same _ _ PdfParser.convertLine
             (fun latex line => latex ++ PdfParser.convertLine [] line))
    by (intros; apply convertLine_app).
  now rewrite fold_left_append.
Qed.

Lemma convertLine_sealed line : Sealed SECTION (PdfParser.convertLine [] line).
Proof.
  unfold PdfParser.convertLine. cbv zeta.
  assert (Hrest : forall t, Sealed SECTION (PdfParser.escapeLatex t ++ lit "\\" ++ [LF])).
  { intros t. apply Sealed_app; [apply escapeLatex_sealed|].
    apply sealedb_Sealed. vm_compute. reflexivity. }
  destruct (trim line) as [|c rest]; [apply (Hrest [])|].
  destruct (PdfParser.isBullet c).
  - cbn [app].
    apply (Sealed_app SECTION (lit "  \item ")); [apply sealedb_Sealed; vm_compute; reflexivity|].
    apply Sealed_app; [apply escapeLatex_sealed|apply sealedb_Sealed; vm_compute; reflexivity].
  - destruct (Nat.ltb (length (c :: rest)) 100 && isUpper c).
    + cbn [app].
      apply (Sealed_app SECTION (lit "\subsection{")); [apply sealedb_Sealed; vm_compute; reflexivity|].
      apply Sealed_app; [apply escapeLatex_sealed|apply sealedb_Sealed; vm_compute; reflexivity].
    + cbn [app]. apply Hrest.
Qed.

Lemma convertToLatex_sealed text : Sealed SECTION (PdfParser.convertToLatex text).
Proof.
  rewrite convertToLatex_concat. apply Sealed_concat.
  apply Forall_forall. intros x Hx. apply in_map_iff in Hx.
  destruct Hx as (line & <- & _). apply convertLine_sealed.
Qed.

(** *** Lines in, lines out *)

Lemma split_aux_no_sep sep : forall s acc piece,
  ~ In sep acc -> In piece (split_aux sep acc s) -> ~ In sep piece.
Proof.
  induction s as [|c s IH]; intros acc piece Hacc Hin; cbn [split_aux] in Hin.
  - destruct Hin as [<-|[]]. now rewrite <- in_rev.
  - destruct (N.eqb c sep) eqn:E.
    + destruct Hin as [<-|Hin]; [now rewrite <- in_rev|].
      apply (IH [] piece); [intros []|exact Hin].
    + apply (IH (c :: acc) piece); [|exact Hin].
      intros [->|H]; [|now apply Hacc]. rewrite N.eqb_refl in E. discriminate.
Qed.

Lemma split_no_sep sep s piece : In piece (split sep s) -> ~ In sep piece.
Proof. apply split_aux_no_sep. intros []. Qed.

Lemma In_dropWhile (p : char -> bool) x : forall s, In x (dropWhile p s) -> In x s.
Proof.
  induction s as [|c s IH]; cbn; [auto|].
  destruct (p c); [intros H; right; now apply IH|auto].
Qed.

Lemma In_trim x s : In x (trim s) -> In x s.
Proof.
  intros H. destruct (trim_piece s) as (u & v & E). rewrite E.
  apply in_or_app. right. apply in_or_app. now left.
Qed.

Lemma In_LF_escapeLatex text : In LF (PdfParser.escapeLatex text) -> In LF text.
Proof.
  rewrite escapeLatex_flat. intros H. apply in_flat_map in H.
  destruct H as (c & Hc & H).
  assert (c = LF); [|now subst].
  revert H. escape_cases c Hs; intros H; vm_compute in H; intuition discriminate.
Qed.

(** One line of output for a line of input. *)
Lemma convertLine_line line :
  ~ In LF line ->
  exists body, PdfParser.convertLine [] line = body ++ [LF] /\ ~ In LF body.
Proof.
  intros Hline. unfold PdfParser.convertLine. cbv zeta.
  assert (Hesc : forall t, (forall x, In x t -> In x (trim line)) ->
                           ~ In LF (PdfParser.escapeLatex t)).
  { intros t Ht H. apply In_LF_escapeLatex in H. apply Hline, In_trim, Ht, H. }
  destruct (trim line) as [|c rest] eqn:E.
  - exists (lit "\\"). split; [reflexivity|]. vm_compute. intuition discriminate.
  - destruct (PdfParser.isBullet c).
    + exists (lit "  \item " ++ PdfParser.escapeLatex (dropWhile isSpace rest)).
      split; [cbn [app]; now rewrite <- !app_assoc|].
      intros H. apply in_app_or in H. destruct H as [H|H].
      * vm_compute in H. intuition discriminate.
      * revert H. apply Hesc. intros x Hx. right. now apply In_dropWhile in Hx.
    + destruct (Nat.ltb (length (c :: rest)) 100 && isUpper c).
      * exists (lit "\subsection{" ++ PdfParser.escapeLatex (c :: rest) ++ lit "}").
        split; [cbn [app]; now rewrite <- !app_assoc|].
        intros H. apply in_app_or in H. destruct H as [H|H].
        -- vm_compute in H. intuition discriminate.
        -- apply in_app_or in H. destruct H as [H|H].
           ++ revert H. apply Hesc. auto.
           ++ vm_compute in H. intuition discriminate.
      * exists (PdfParser.escapeLatex (c :: rest) ++ lit "\\").
        split; [cbn [app]; now rewrite <- !app_assoc|].
        intros H. apply in_app_or in H. destruct H as [H|H].
        -- revert H. apply Hesc. auto.
        -- vm_compute in H. intuition discriminate.
Qed.

Lemma convertLines_lines : forall lines,
  (forall line, In line lines -> ~ In LF line) ->
  exists bodies,
    concat (map (PdfParser.convertLine []) lines) = concat (map (fun b => b ++ [LF]) bodies) /\
    length bodies = length lines /\
    Forall (fun b => ~ In LF b) bodies.
Proof.
  induction lines as [|l lines IH]; intros H.
  - exists []. now repeat split.
  - destruct (convertLine_line l (H l (or_introl eq_refl))) as (b & Eb & Hb).
    destruct IH as (bs & Ebs & Hlen & Hall); [intros; apply H; now right|].
    exists (b :: bs). cbn [map concat length]. rewrite Eb, Ebs, Hlen.
    split; [reflexivity|]. split; [reflexivity|]. now constructor.
Qed.

(** *** The raw text of a heuristic chunk, read by the structural parser *)

(* ================================================================== *)
(** ** The loop of the heuristic segmenter *)
(* ================================================================== *)

Section SegmenterFacts.

Variable toLowerCase toUpperCase : jsstring -> jsstring.

Lemma flush_ok st : SegOk st -> SegOk (PdfParser.flush toLowerCase toUpperCase st).
Proof.
  intros (Hi & Hids & Hall). unfold PdfParser.flush.
  destruct (PdfParser.currentSection st) as [sec|]; [|now repeat split].
  destruct (truthy (Some sec) && Nat.ltb 0 (length (PdfParser.currentContent st)));
    [|now repeat split].
  unfold SegOk. cbn [PdfParser.chunks PdfParser.chunkIndex].
  rewrite length_app, Nat.add_1_r. split; [now rewrite Hi|]. split.
  - rewrite map_app, seq_S, map_app, Hids. cbn. now rewrite Hi.
  - apply Forall_app. split; [exact Hall|]. now repeat constructor.
Qed.

Lemma segStep_ok st line : SegOk st -> SegOk ((PdfParser.segStep toLowerCase toUpperCase) st line).
Proof.
  intros H. unfold PdfParser.segStep.
  destruct (PdfParser.isHeader line).
  - apply flush_ok in H. exact H.
  - destruct (truthy (PdfParser.currentSection st)); exact H.
Qed.

Lemma fold_segStep_ok : forall lines st,
  SegOk st -> SegOk (fold_left (PdfParser.segStep toLowerCase toUpperCase) lines st).
Proof.
  induction lines as [|l lines IH]; intros st H; [exact H|].
  cbn [fold_left]. apply IH. now apply segStep_ok.
Qed.

(** Lines that are not headers are collected under the current header. *)
Lemma fold_content : forall body cs h c i,
  nonEmpty h = true ->
  (forall line, In line body -> PdfParser.isHeader line = false) ->
  fold_left (PdfParser.segStep toLowerCase toUpperCase) body (PdfParser.MkSegState cs (Some h) c i)
  = PdfParser.MkSegState cs (Some h) (c ++ body) i.
Proof.
  induction body as [|l body IH]; intros cs h c i Hh Hb.
  - now rewrite app_nil_r.
  - cbn [fold_left]. unfold PdfParser.segStep at 2.
    rewrite (Hb l (or_introl eq_refl)).
    cbn [PdfParser.currentSection PdfParser.chunks PdfParser.currentContent
         PdfParser.chunkIndex].
    destruct h as [|x h]; [discriminate|]. cbn [truthy].
    rewrite IH; [|reflexivity|intros; apply Hb; now right].
    now rewrite <- app_assoc.
Qed.

(** A header line closes the section collected so far, if it has content,
    and opens the next one. *)
Lemma segStep_header cs h c i line :
  PdfParser.isHeader line = true -> nonEmpty h = true ->
  PdfParser.segStep toLowerCase toUpperCase (PdfParser.MkSegState cs (Some h) c i) line
  = match c with
    | [] => PdfParser.MkSegState cs (Some line) [] i
    | _ :: _ =>
        PdfParser.MkSegState (cs ++ [PdfParser.createChunk toLowerCase toUpperCase h c i])
                             (Some line) [] (S i)
    end.
Proof.
  intros Hl Hh. unfold PdfParser.segStep, PdfParser.flush. rewrite Hl.
  destruct h as [|x h]; [discriminate|]. destruct c as [|l c]; reflexivity.
Qed.

Lemma fold_segments : forall segs cs h c,
  nonEmpty h = true ->
  Forall (fun s => nonEmpty (fst s) = true) segs ->
  Forall goodSegment segs ->
  PdfParser.chunks
    (PdfParser.flush toLowerCase toUpperCase
       (fold_left (PdfParser.segStep toLowerCase toUpperCase) (flat_map segmentLines segs)
                  (PdfParser.MkSegState cs (Some h) c (length cs))))
  = cs ++ segmentChunksFrom toLowerCase toUpperCase (length cs) ((h, c) :: segs).
Proof.
  induction segs as [|[h' b] segs IH]; intros cs h c Hh Hne Hgood.
  - cbn [flat_map fold_left]. unfold PdfParser.flush, segmentChunksFrom.
    cbn [PdfParser.currentSection PdfParser.currentContent PdfParser.chunks
         PdfParser.chunkIndex filter hasContent snd fst].
    destruct h as [|x h]; [discriminate|]. cbn [truthy andb].
    destruct c as [|l c]; cbn; [now rewrite app_nil_r|reflexivity].
  - inversion Hne as [|? ? Hh' Hne']; subst. inversion Hgood as [|? ? [Hhd Hb] Hgood']; subst.
    cbn [fst snd] in *.
    cbn [flat_map]. change (segmentLines (h', b)) with (h' :: b).
    rewrite <- app_comm_cons.
    cbn [fold_left]. rewrite (segStep_header cs h c (length cs) h' Hhd Hh).
    rewrite fold_left_app.
    destruct c as [|l c].
    + rewrite (fold_content b cs h' [] (length cs) Hh' Hb). cbn [app].
      rewrite (IH cs h' b Hh' Hne' Hgood'). reflexivity.
    + rewrite (fold_content b _ h' [] (S (length cs)) Hh' Hb). cbn [app].
      replace (S (length cs))
        with (length (cs ++ [PdfParser.createChunk toLowerCase toUpperCase h (l :: c) (length cs)]))
        by (rewrite length_app; cbn; lia).
      rewrite (IH _ h' b Hh' Hne' Hgood'). rewrite <- app_assoc.
      rewrite length_app, Nat.add_1_r. reflexivity.
Qed.

Lemma segmenter_loop pre segs :
  (forall line, In line pre -> PdfParser.isHeader line = false) ->
  Forall (fun s => nonEmpty (fst s) = true) segs ->
  Forall goodSegment segs ->
  PdfParser.chunks
    (PdfParser.flush toLowerCase toUpperCase (fold_left (PdfParser.segStep toLowerCase toUpperCase) (pre ++ flat_map segmentLines segs)
                      (PdfParser.MkSegState [] None [] 0)))
  = segmentChunks toLowerCase toUpperCase segs.
Proof.
  intros Hpre Hne Hgood. rewrite fold_left_app, (segStep_no_header _ _ pre Hpre).
  destruct segs as [|[h b] segs]; [reflexivity|].
  inversion Hne as [|? ? Hh Hne']; subst. inversion Hgood as [|? ? [Hhd Hb] Hgood']; subst.
  cbn [fst snd] in *.
  cbn [flat_map]. change (segmentLines (h, b)) with (h :: b).
  rewrite <- app_comm_cons.
  cbn [fold_left]. unfold PdfParser.segStep at 2. rewrite Hhd.
  cbn [PdfParser.flush PdfParser.currentSection PdfParser.chunks
       PdfParser.currentContent PdfParser.chunkIndex].
  rewrite fold_left_app, (fold_content b [] h [] 0 Hh Hb). cbn [app].
  exact (fold_segments segs [] h b Hh Hne' Hgood').
Qed.

End SegmenterFacts.

Lemma textLines_nonEmpty text line :
  In line (PdfParser.textLines text) -> nonEmpty line = true.
Proof. unfold PdfParser.textLines. intros H. now apply filter_In in H. Qed.
(* ================================================================== *)
(** ** The header patterns *)
(* ================================================================== *)

Lemma sectionPatterns_keywords :
  PdfParser.sectionPatterns = map headerPattern headerKeywords.
Proof. reflexivity. Qed.

Lemma m_StrCI_cases k c res : forall L pv s,
  m (StrCI L) k (Cursor pv s) c = Some res <->
  exists s0 rest,
    s = s0 ++ rest /\ sameLetters s0 L /\ k (Cursor (after pv s0) rest) c = Some res.
Proof.
  induction L as [|x L IH]; intros pv s; cbn [StrCI m rest].
  - split.
    + intros H. exists [], s. now repeat split.
    + intros (s0 & rest & -> & Hs & H). destruct s0; [exact H|discriminate Hs].
  - destruct s as [|y s].
    + split; [discriminate|].
      intros (s0 & rest & E & Hs & _). destruct s0; discriminate.
    + unfold isCI at 1. split.
      * destruct (N.eqb (canonicalize y) (canonicalize x)) eqn:E; [|discriminate].
        intros H. apply IH in H. destruct H as (s0 & rest & -> & Hs & H).
        exists (y :: s0), rest. split; [reflexivity|]. split; [|exact H].
        unfold sameLetters in *. cbn. apply N.eqb_eq in E. now rewrite E, Hs.
      * intros (s0 & rest & E & Hs & H). destruct s0 as [|z s0]; [discriminate Hs|].
        injection E as -> ->. unfold sameLetters in Hs. cbn in Hs.
        injection Hs as Hz Hs. rewrite Hz, N.eqb_refl.
        apply IH. exists s0, rest. now repeat split.
Qed.

Lemma m_alternatives k cur c res : forall rs,
  m (alternatives rs) k cur c = Some res ->
  exists r, In r rs /\ m r k cur c = Some res.
Proof.
  induction rs as [|r rs IH]; intros H.
  - cbn in H. destruct (rest cur); discriminate.
  - destruct rs as [|r' rs].
    + exists r. split; [now left|exact H].
    + change (alternatives (r :: r' :: rs)) with (Alt r (alternatives (r' :: rs))) in H.
      cbn [m] in H. destruct (m r k cur c) as [res'|] eqn:E.
      * exists r. split; [now left|]. now rewrite E.
      * destruct (IH H) as (r0 & Hin & Hm). exists r0. split; [now right|exact Hm].
Qed.

Lemma m_alternatives_some k cur c : forall rs r,
  In r rs -> m r k cur c <> None -> m (alternatives rs) k cur c <> None.
Proof.
  induction rs as [|r0 rs IH]; intros r Hin Hm; [destruct Hin|].
  destruct rs as [|r' rs].
  - destruct Hin as [->|[]]. exact Hm.
  - change (alternatives (r0 :: r' :: rs)) with (Alt r0 (alternatives (r' :: rs))).
    cbn [m]. destruct (m r0 k cur c) as [res|] eqn:E; [discriminate|].
    destruct Hin as [->|Hin]; [congruence|]. now apply (IH r).
Qed.

Lemma search_some r : forall s idx pv,
  search r idx pv s <> None <->
  exists a s1, s = a ++ s1 /\ m r accept (Cursor (after pv a) s1) [] <> None.
Proof.
  induction s as [|x s IH]; intros idx pv; cbn [search].
  - destruct (m r accept (Cursor pv []) []) as [[cur' c]|] eqn:E.
    + split; [|discriminate]. intros _. exists [], []. split; [reflexivity|].
      cbn [after]. congruence.
    + split; [congruence|]. intros (a & s1 & Ea & H).
      destruct a; [|discriminate]. cbn in Ea. subst s1. cbn [after] in H. congruence.
  - destruct (m r accept (Cursor pv (x :: s)) []) as [[cur' c]|] eqn:E.
    + split; [|discriminate]. intros _. exists [], (x :: s). split; [reflexivity|].
      cbn [after]. congruence.
    + rewrite IH. split.
      * intros (a & s1 & -> & H). exists (x :: a), s1. split; [reflexivity|exact H].
      * intros (a & s1 & Ea & H). destruct a as [|y a].
        -- cbn in Ea. subst s1. cbn [after] in H. congruence.
        -- injection Ea as -> ->. exists a, s1. split; [reflexivity|exact H].
Qed.

Lemma test_some r line :
  test r line = true <->
  exists a s1, line = a ++ s1 /\ m r accept (Cursor (after None a) s1) [] <> None.
Proof.
  unfold test, exec. cbn [Nat.ltb Nat.leb skipn charBefore].
  rewrite <- (search_some r line 0 None).
  destruct (search r 0 None line); split; congruence.
Qed.

Lemma after_snoc u c : forall pv, after pv (u ++ [c]) = Some c.
Proof. induction u as [|x u IH]; intros pv; cbn; [reflexivity|apply IH]. Qed.

Lemma atBol_lineStart u s :
  atBol true (Cursor (after None u) s) = true <-> lineStart u.
Proof.
  unfold atBol, lineStart. cbn [prev].
  destruct u as [|x u] using rev_ind.
  - cbn. split; auto.
  - rewrite after_snoc. cbn [andb]. split.
    + intros H. right. now exists u, x.
    + intros [E|(u' & c & E & Hc)].
      * destruct u; discriminate.
      * apply app_inj_tail in E. destruct E as [_ ->]. exact Hc.
Qed.

Lemma headerPattern_some ks pv s :
  m (headerPattern ks) accept (Cursor pv s) [] <> None <->
  atBol true (Cursor pv s) = true /\
  exists k s0 rest, In k ks /\ s = s0 ++ rest /\ sameLetters s0 (lit k).
Proof.
  unfold headerPattern. cbn [m].
  destruct (atBol true (Cursor pv s)); [|split; [congruence|intros [? _]; discriminate]].
  split.
  - intros H. split; [reflexivity|].
    destruct (m (alternatives (map PdfParser.kw ks))
                (fun cur' c' => accept cur' ((1, consumed (Cursor pv s) cur') :: c'))
                (Cursor pv s) []) as [res|] eqn:E; [|congruence].
    apply m_alternatives in E. destruct E as (r & Hin & Hm).
    apply in_map_iff in Hin. destruct Hin as (k & <- & Hk).
    unfold PdfParser.kw in Hm. apply m_StrCI_cases in Hm.
    destruct Hm as (s0 & rest & Hs & Hl & _). now exists k, s0, rest.
  - intros (_ & k & s0 & rest & Hk & Hs & Hl).
    apply (m_alternatives_some _ _ _ _ (PdfParser.kw k)); [now apply in_map|].
    unfold PdfParser.kw.
    destruct (m (StrCI (lit k))
                (fun cur' c' => accept cur' ((1, consumed (Cursor pv s) cur') :: c'))
                (Cursor pv s) []) as [res|] eqn:E; [discriminate|].
    exfalso.
    assert (H : exists res, m (StrCI (lit k))
                (fun cur' c' => accept cur' ((1, consumed (Cursor pv s) cur') :: c'))
                (Cursor pv s) [] = Some res).
    { eexists. apply m_StrCI_cases. exists s0, rest. split; [exact Hs|].
      split; [exact Hl|]. reflexivity. }
    destruct H as [res H]. congruence.
Qed.

(* ================================================================== *)
(** ** The structural parser: worked example and defaults *)
(* ================================================================== *)

(** C2, as stated: the structural parser, applied to the example input as it
    is, does not produce the two chunks.  The input has no
    [\begin{document}] ... [\end{document}] pair, so the body is empty and no
    chunk is produced at all. *)
Lemma example_input_without_document_body :
  ~ (exists data,
       LatexParser.parseLatexFile asciiLower hostArguments exampleInput = Some data /\
       exampleChunks (map chunk (activeChunks data))).
Proof.
  intros (data & H & sec & it & Hc & _).
  vm_compute in H. inversion H; subst data. discriminate Hc.
Qed.

(** C2, amended: the section scanner applied to the example input, and the
    structural parser applied to the example input placed between
    [\begin{document}] and [\end{document}], produce exactly the two chunks
    of the example: the section "Experience" with id "section-0" and the
    item with id "section-0-item-0", parent "section-0" and content
    "\item Led a team".  (They return on every host that accepts a call with
    one argument, the one item of the section.) *)
Theorem example_input_as_document_body
        (toLowerCase : jsstring -> jsstring) (maxArguments : N) :
  (exists chunks,
     LatexParser.parseSections toLowerCase maxArguments exampleInput
     = whenAccepted (1 <=? maxArguments)%N chunks /\
     exampleChunks chunks /\
     (forall it, In it chunks -> type it = item -> content it = lit "\item Led a team")) /\
  (exists data,
     LatexParser.parseLatexFile toLowerCase maxArguments
       (lit "\begin{document}" ++ exampleInput ++ lit "\end{document}")
     = whenAccepted (1 <=? maxArguments)%N data /\
     exampleChunks (map chunk (activeChunks data)) /\
     (forall it, In it (map chunk (activeChunks data)) -> type it = item ->
                 content it = lit "\item Led a team") /\
     map order (activeChunks data) = [0%Z; 1%Z] /\
     map isActive (activeChunks data) = [true; true]).
Proof.
  split.
  - eexists. split.
    + rewrite parseSections_spec. unfold withinLimit.
      replace (itemCounts exampleInput) with [1] by (vm_compute; reflexivity).
      cbn [forallb]. rewrite andb_true_r. change (N.of_nat 1) with 1%N.
      apply (f_equal (whenAccepted (1 <=? maxArguments)%N)). vm_compute. reflexivity.
    + split; [do 2 eexists; repeat split|].
      intros it [<-|[<-|[]]] Ht; [discriminate Ht|reflexivity].
  - eexists. split.
    + rewrite parseLatexFile_spec. unfold withinLimit.
      replace (itemCounts (bodyOf (lit "\begin{document}" ++ exampleInput
                                     ++ lit "\end{document}")))
        with [1] by (vm_compute; reflexivity).
      cbn [forallb]. rewrite andb_true_r. change (N.of_nat 1) with 1%N.
      apply (f_equal (whenAccepted (1 <=? maxArguments)%N)). vm_compute. reflexivity.
    + split; [do 2 eexists; repeat split|].
      split; [|split; reflexivity].
      intros it [<-|[<-|[]]] Ht; [discriminate Ht|reflexivity].
Qed.

(* ================================================================== *)
(** ** The structural parser: ids, item order, titles *)
(* ================================================================== *)

(** C4: the items of a section have the ids [<parentId>-item-<k>], [k]
    counting from 0 through the three pattern families together; they stand
    in family scan order (all subsection matches, then all list-item matches,
    then all six-field entry matches), not in the order of the text; and in
    the parser's output every section chunk is followed by exactly these
    items, found in the section's content under the section's id.  (The
    section scanner returns its chunk list unless a section has more items
    than the host accepts as the arguments of one call.) *)
Theorem item_ids_in_family_scan_order (toLowerCase : jsstring -> jsstring) :
  (forall content parentId,
     exists items,
       LatexParser.parseItems content parentId = Some items /\
       map id items
       = map (fun k => parentId ++ lit "-item-" ++ toString k) (seq 0 (length items)) /\
       map rawLatex items
       = map m_text (matchAll LatexParser.subsectionPattern content)
         ++ map m_text (matchAll LatexParser.itemPattern content)
         ++ map m_text (matchAll LatexParser.cventryPattern content)) /\
  (forall maxArguments body,
     exists chunks,
       LatexParser.parseSections toLowerCase maxArguments body
       = whenAccepted (withinLimit maxArguments body) chunks /\
       forall pre sec post,
         chunks = pre ++ sec :: post -> type sec = section ->
         exists items rest,
           LatexParser.parseItems (content sec) (id sec) = Some items /\
           post = items ++ rest /\
           (forall c, hd_error rest = Some c -> type c = section)) /\
  (exists items,
     LatexParser.parseItems (lit "\item a\subsection{B}") (lit "section-0") = Some items /\
     map id items = [lit "section-0-item-0"; lit "section-0-item-1"] /\
     map rawLatex items = [lit "\subsection{B}"; lit "\item a\subsection{B}"]).
Proof.
  split; [|split].
  - intros content parentId. exists (itemsOf content parentId).
    split; [apply parseItems_spec|]. split; [apply itemsOf_ids|].
    unfold itemsOf, mapi.
    rewrite (mapi_from_map _ _ _ (itemOf parentId) rawLatex m_text) by reflexivity.
    unfold itemMatches. rewrite !map_app. reflexivity.
  - intros maxArguments body. eexists. split; [apply parseSections_spec|].
    intros pre sec post E Hs.
    destruct (sectionsFrom_split toLowerCase _ _ _ _ _ E Hs) as (rest & Hp & Hr).
    exists (itemsOf (content sec) (id sec)), rest.
    split; [apply parseItems_spec|]. auto.
  - eexists. split; [vm_compute; reflexivity|]. split; reflexivity.
Qed.

(** C10: the metadata of an item never has a position or a location, so the
    title of an item never comes from the metadata: it is the first capture
    of the item's match, or "Item" when that capture is absent or empty. *)
Theorem item_title_is_first_capture :
  (forall latex,
     position (LatexParser.extractMetadata latex) = None /\
     location (LatexParser.extractMetadata latex) = None) /\
  (forall content parentId,
     exists items,
       LatexParser.parseItems content parentId = Some items /\
       Forall2
         (fun it mt =>
            metadata it = Some (LatexParser.extractMetadata (m_text mt)) /\
            rawLatex it = m_text mt /\
            title it = titleOfMatch mt)
         items (itemMatches content)).
Proof.
  split; [intros latex; split; reflexivity|].
  intros content parentId. exists (itemsOf content parentId).
  split; [apply parseItems_spec|].
  unfold itemsOf, mapi. generalize 0 as i. generalize (itemMatches content) as ms.
  induction ms as [|mt ms IH]; intros i; simpl; constructor; auto.
Qed.

(** C5, as stated: the counter of section ids does not go on from one call
    to the next.  Parsing the same one-section body twice gives "section-0"
    both times. *)
Lemma section_counter_restarts_each_call :
  ~ counterGoesOnAcrossCalls asciiLower hostArguments.
Proof.
  intros H.
  specialize (H (lit "\section{A}") (lit "\section{A}") _ _ 0 0 eq_refl eq_refl).
  assert (0 < 0); [|lia].
  apply H; vm_compute; auto.
Qed.

(** C5, amended: section ids are [section-<n>], where [n] is the value of a
    counter that is shared by the sections of one call, starts at 0 in
    every call and increases strictly from one section to the next: it counts
    the chunks (sections and items) produced so far, so the id of a section
    is its position in the chunk list.  (The call returns the chunk list
    unless a section has more items than the host accepts as the arguments
    of one call.) *)
Theorem section_ids_count_chunks_of_one_call
        (toLowerCase : jsstring -> jsstring) (maxArguments : N) (body : jsstring) :
  exists chunks,
    LatexParser.parseSections toLowerCase maxArguments body
    = whenAccepted (withinLimit maxArguments body) chunks /\
    (exists ns,
       map id (filter isSection chunks) = map sectionId ns /\
       StronglySorted lt ns /\
       (forall n, hd_error ns = Some n -> n = 0)) /\
    (forall p c, nth_error chunks p = Some c -> type c = section -> id c = sectionId p).
Proof.
  eexists. split; [apply parseSections_spec|]. split.
  - exists (countersFrom 0 (matchAll LatexParser.sectionRegex body)).
    split; [apply sectionsFrom_ids|]. split; [apply countersFrom_sorted|].
    intros n Hn. destruct (matchAll LatexParser.sectionRegex body); simpl in Hn.
    + discriminate.
    + inversion Hn; reflexivity.
  - intros p c Hp Hc. apply (sectionsFrom_position toLowerCase _ 0 p c Hp Hc).
Qed.

(* ================================================================== *)
(** ** The heuristic segmenter *)
(* ================================================================== *)

(** C6: when none of the lines the segmenter looks at (the trimmed,
    non-empty lines of the text) matches a section-header pattern, the
    segmenter returns exactly one chunk: the section "Resume Content",
    tagged "imported", whose content is the whole input as it is. *)
Theorem headerless_text_gives_fallback_chunk
        (toLowerCase toUpperCase : jsstring -> jsstring) (text : jsstring) :
  (forall line, In line (PdfParser.textLines text) -> PdfParser.isHeader line = false) ->
  PdfParser.parseTextToChunks toLowerCase toUpperCase text = [fallbackChunk text] /\
  title (fallbackChunk text) = lit "Resume Content" /\
  tags (fallbackChunk text) = Some [lit "imported"] /\
  content (fallbackChunk text) = text.
Proof.
  intros H. split; [|repeat split].
  unfold PdfParser.parseTextToChunks. rewrite segStep_no_header by exact H.
  reflexivity.
Qed.

(** C6 at a text of two lines, neither of them a header. *)
Lemma headerless_text_gives_fallback_chunk_witness :
  PdfParser.parseTextToChunks asciiLower asciiUpper
    (lit "John Doe" ++ [LF] ++ lit "  Software engineer, 10% travel")
  = [fallbackChunk (lit "John Doe" ++ [LF] ++ lit "  Software engineer, 10% travel")].
Proof.
  apply (headerless_text_gives_fallback_chunk asciiLower asciiUpper
           (lit "John Doe" ++ [LF] ++ lit "  Software engineer, 10% travel")).
  intros line Hl. vm_compute in Hl.
  destruct Hl as [<-|[<-|[]]]; vm_compute; reflexivity.
Defined.

(** C3: a line without a backslash is escaped as the claim says, every
    control character replaced by its literal-rendering markup.  A backslash
    is not: the code replaces it by [\textbackslash{}] and escapes the braces
    afterwards, so the braces it has just written are escaped again. *)
Theorem escapeLatex_escapes_its_own_braces :
  (forall text, ~ In (ch "\") text -> PdfParser.escapeLatex text = escapeSpec text) /\
  PdfParser.escapeLatex (lit "a\b") = lit "a\textbackslash\{\}b" /\
  escapeSpec (lit "a\b") = lit "a\textbackslash{}b" /\
  PdfParser.convertToLatex (lit "a\b") = lit "a\textbackslash\{\}b\\" ++ [LF].
Proof.
  split; [exact escapeLatex_without_backslash|]. repeat split.
Qed.

(* ================================================================== *)
(** ** The chunk registry *)
(* ================================================================== *)

(** C8: toggling a chunk twice gives the registry back as it was, so the
    chunk's [isActive] flag has its original value again; one toggle flips
    the flag of the chunks with that id and of no other, and neither toggle
    changes any [order]. *)
Theorem toggle_twice_restores_registry (chunks : list ResumeChunk) (i : jsstring) :
  Editor.toggleChunkActive (Editor.toggleChunkActive chunks i) i = chunks /\
  map isActive (Editor.toggleChunkActive chunks i)
  = map (fun c => if Editor.hasId i c then negb (isActive c) else isActive c) chunks /\
  map order (Editor.toggleChunkActive chunks i) = map order chunks /\
  map order (Editor.toggleChunkActive (Editor.toggleChunkActive chunks i) i)
  = map order chunks.
Proof.
  assert (T : Editor.toggleChunkActive (Editor.toggleChunkActive chunks i) i = chunks).
  { unfold Editor.toggleChunkActive. rewrite map_map.
    rewrite <- (map_id chunks) at 2. apply map_ext. intros c.
    destruct (Editor.hasId i c) eqn:E.
    - unfold Editor.hasId in *. simpl. rewrite E. apply withActive_twice.
    - rewrite E. reflexivity. }
  assert (O : forall l, map order (Editor.toggleChunkActive l i) = map order l).
  { intros l. unfold Editor.toggleChunkActive. rewrite map_map. apply map_ext.
    intros c. destruct (Editor.hasId i c); reflexivity. }
  split; [exact T|]. split; [|split].
  - unfold Editor.toggleChunkActive. rewrite map_map. apply map_ext.
    intros c. destruct (Editor.hasId i c); reflexivity.
  - apply O.
  - rewrite T. reflexivity.
Qed.

(** C9: in a registry whose chunk ids are unique, a drag of a chunk onto
    another one leaves every chunk of the other partition (the chunks whose
    [isActive] differs from the dragged chunk's) as it was, at its place:
    [order], [isActive] and every other field. *)
Theorem reorder_leaves_other_partition
        (chunks : list ResumeChunk) (active : jsstring) (over : option jsstring)
        (moved : ResumeChunk) :
  NoDup (map chunkId chunks) ->
  find (Editor.hasId active) chunks = Some moved ->
  forall p c,
    nth_error chunks p = Some c ->
    isActive c <> isActive moved ->
    nth_error (Editor.handleDragEnd chunks active over) p = Some c.
Proof.
  intros Hnd Hmoved p c Hp Hc.
  unfold Editor.handleDragEnd.
  destruct over as [over|]; auto.
  destruct (str_eqb active over); auto.
  rewrite Hmoved.
  destruct (find (Editor.hasId over) chunks) as [overChunk|]; auto.
  destruct (Bool.eqb (isActive moved) (isActive overChunk)); auto.
  rewrite nth_error_map, Hp. simpl. f_equal.
  match goal with |- context [find ?f ?l] => destruct (find f l) as [r|] eqn:E end; auto.
  exfalso. apply Hc.
  apply find_hasId in E. destruct E as [Hin Hid].
  apply In_arrayMove in Hin.
  assert (Hr : In r chunks /\ isActive r = isActive moved).
  { destruct (isActive moved) eqn:Ha.
    - unfold Editor.activeChunks in Hin. apply In_sortByOrder in Hin.
      apply filter_In in Hin. tauto.
    - unfold Editor.standbyChunks in Hin. apply In_sortByOrder in Hin.
      apply filter_In in Hin. destruct Hin as [H1 H2].
      split; auto. apply negb_true_iff in H2. exact H2. }
  destruct Hr as [Hr1 Hr2].
  assert (r = c).
  { eapply (NoDup_map_inj _ _ chunkId); eauto. eapply nth_error_In; eauto. }
  subst r. exact Hr2.
Qed.

(** C9 at the initial registry of the editor: dragging chunk "1" onto
    chunk "3", both active, leaves the standby chunk "4" as it was. *)
Lemma reorder_leaves_other_partition_witness :
  nth_error (Editor.handleDragEnd Editor.initialChunks (lit "1") (Some (lit "3"))) 3
  = nth_error Editor.initialChunks 3.
Proof.
  eapply (reorder_leaves_other_partition Editor.initialChunks (lit "1") (Some (lit "3"))).
  - vm_compute. repeat constructor; simpl; intuition discriminate.
  - reflexivity.
  - reflexivity.
  - simpl. discriminate.
Defined.

(* ================================================================== *)
(** ** Parse, generate, parse again *)
(* ================================================================== *)

(** C1, as stated: the round trip does not give the raw texts back.  A body
    of two sections without items already fails: the generator separates
    the sections by two line feeds, and on parsing again these become part
    of the first section. *)
Lemma round_trip_changes_raw_text :
  ~ roundTripAt asciiLower hostArguments
      (lit "\begin{document}\section{A}x\section{B}y\end{document}").
Proof.
  intros (doc & doc' & H1 & H2 & H3).
  vm_compute in H1. inversion H1; subst doc. clear H1.
  vm_compute in H2. inversion H2; subst doc'. clear H2.
  vm_compute in H3. discriminate H3.
Qed.
(* ================================================================== *)
(** ** Pages, lines and uploads *)
(* ================================================================== *)

Lemma split_aux_block sep : forall l acc rest,
  ~ In sep l ->
  split_aux sep acc (l ++ sep :: rest) = (rev acc ++ l) :: split sep rest.
Proof.
  induction l as [|c l IH]; intros acc rest H.
  - cbn [app split_aux]. rewrite N.eqb_refl, app_nil_r. reflexivity.
  - cbn [app split_aux]. destruct (N.eqb c sep) eqn:E.
    + apply N.eqb_eq in E. subst c. exfalso. apply H. now left.
    + rewrite IH by (intros Hin; apply H; now right).
      cbn [rev]. now rewrite <- app_assoc.
Qed.

Lemma split_block sep l rest :
  ~ In sep l -> split sep (l ++ sep :: rest) = l :: split sep rest.
Proof. intros H. unfold split at 1. now rewrite split_aux_block. Qed.

Lemma split_sep_head sep rest : split sep (sep :: rest) = [] :: split sep rest.
Proof. apply (split_block sep [] rest). intros []. Qed.

(** The lines of a text made of lines, each followed by a blank line. *)
Lemma textLines_blocks : forall lines,
  (forall l, In l lines -> ~ In LF l) ->
  PdfParser.textLines (concat (map (fun l => l ++ [LF; LF]) lines))
  = filter nonEmpty (map trim lines).
Proof.
  unfold PdfParser.textLines.
  induction lines as [|l lines IH]; intros H; [reflexivity|].
  cbn [map concat]. rewrite <- app_assoc. cbn [app].
  rewrite split_block by (apply H; now left).
  rewrite split_sep_head.
  cbn [map filter]. change (nonEmpty (trim [])) with false. cbn iota.
  rewrite IH by (intros; apply H; now right). reflexivity.
Qed.

Lemma In_join sep x : forall l,
  In x (join sep l) -> In x sep \/ exists s, In s l /\ In x s.
Proof.
  induction l as [|s l IH]; intros H; [destruct H|].
  destruct l as [|s' l].
  - right. exists s. split; [now left|exact H].
  - change (join sep (s :: s' :: l)) with (s ++ sep ++ join sep (s' :: l)) in H.
    apply in_app_or in H. destruct H as [H|H].
    + right. exists s. split; [now left|exact H].
    + apply in_app_or in H. destruct H as [H|H]; [now left|].
      destruct (IH H) as [H'|(s0 & Hs0 & Hx)]; [now left|].
      right. exists s0. split; [now right|exact Hx].
Qed.

Lemma extractTextFromPdf_concat pages :
  PdfParser.extractTextFromPdf pages
  = concat (map (fun items => join (lit " ") items ++ [LF; LF]) pages).
Proof. unfold PdfParser.extractTextFromPdf. now rewrite fold_left_append. Qed.

(** A text of at most one line gives the fallback chunk. *)
Lemma one_line_fallback toLowerCase toUpperCase text line :
  PdfParser.textLines text = [] \/ PdfParser.textLines text = [line] ->
  PdfParser.parseTextToChunks toLowerCase toUpperCase text = [fallbackChunk text].
Proof.
  intros H. unfold PdfParser.parseTextToChunks. cbv zeta.
  destruct H as [E|E]; rewrite E; [reflexivity|].
  assert (Hne : nonEmpty line = true).
  { apply (textLines_nonEmpty text). rewrite E. now left. }
  destruct (PdfParser.isHeader line) eqn:Hh.
  - assert (L := segmenter_loop toLowerCase toUpperCase [] [(line, [])]).
    cbn [flat_map app segmentLines fst snd] in L. rewrite L; [reflexivity| | |].
    + intros l [].
    + repeat constructor. exact Hne.
    + repeat constructor; [exact Hh|intros l []].
  - assert (L := segmenter_loop toLowerCase toUpperCase [line] []).
    cbn [flat_map app] in L. rewrite L; [reflexivity| | |].
    + intros l [<-|[]]. exact Hh.
    + constructor.
    + constructor.
Qed.

(** *** The registry an upload stores *)






Lemma map_stored_activate : forall cs i,
  map (fun c => Editor.storedChunk (chunk c) (order c))
      (mapi_from i (fun chunk idx => MkResumeChunk chunk (Z.of_nat idx) true) cs)
  = mapi_from i (fun c k => Editor.storedChunk c (Z.of_nat k)) cs.
Proof.
  induction cs as [|c cs IH]; intros i; [reflexivity|].
  cbn [mapi_from map]. now rewrite IH.
Qed.


Lemma handleFileUpload_cases toLowerCase toUpperCase maxArguments file :
  Editor.handleFileUpload toLowerCase toUpperCase maxArguments file =
  if str_eqb (Editor.fileExtension toLowerCase (Editor.name file)) (lit "pdf") then
    match Editor.pages file with
    | Some readPages =>
        Some (mapi (fun c k => Editor.storedChunk c (Z.of_nat k))
                   (PdfParser.parseTextToChunks toLowerCase toUpperCase
                      (PdfParser.extractTextFromPdf readPages)),
              PdfParser.defaultPreamble)
    | None => None
    end
  else if str_eqb (Editor.fileExtension toLowerCase (Editor.name file)) (lit "tex") then
    whenAccepted (withinLimit maxArguments (bodyOf (Editor.text file)))
      (mapi (fun c k => Editor.storedChunk c (Z.of_nat k))
            (parsedChunks toLowerCase (Editor.text file)),
       preambleOf (Editor.text file))
  else None.
Proof.
  unfold Editor.handleFileUpload. cbv zeta.
  destruct (str_eqb (Editor.fileExtension toLowerCase (Editor.name file)) (lit "pdf"));
    [destruct (Editor.pages file); reflexivity|].
  destruct (str_eqb (Editor.fileExtension toLowerCase (Editor.name file)) (lit "tex"));
    [|reflexivity].
  rewrite parseLatexFile_spec.
  destruct (withinLimit maxArguments (bodyOf (Editor.text file))); [|reflexivity].
  cbn [whenAccepted bind]. unfold mapi.
  now rewrite map_stored_activate.
Qed.

Lemma includes_NoOcc L : forall x, NoOcc L x -> includes L x = false.
Proof.
  induction x as [|c x IH]; intros H; cbn [includes].
  - rewrite (H [] [] eq_refl). reflexivity.
  - rewrite (H [] (c :: x) eq_refl). cbn [orb]. apply IH.
    intros a b E. apply (H (c :: a) b). cbn. now rewrite E.
Qed.
(* ================================================================== *)
(** ** The metadata patterns *)
(* ================================================================== *)

(** What a quantified class has read when the match succeeds. *)
Lemma star_inv_class lazy p k c : forall s pv res,
  star lazy p k pv s c = Some res ->
  exists u s',
    s = u ++ s' /\ Forall (fun x => p x = true) u /\
    k (Cursor (after pv u) s') c = Some res.
Proof.
  induction s as [|x s IH]; intros pv res H.
  - exists [], []. split; [reflexivity|]. split; [constructor|].
    cbn [star] in H. cbn [after]. destruct lazy; [|exact H].
    destruct (k (Cursor pv []) c) eqn:E; [exact H|discriminate].
  - cbn [star] in H. destruct lazy.
    + destruct (k (Cursor pv (x :: s)) c) as [r|] eqn:E.
      * exists [], (x :: s). split; [reflexivity|]. split; [constructor|].
        cbn [after]. now rewrite E.
      * destruct (p x) eqn:Px; [|discriminate].
        destruct (IH _ _ H) as (u & s' & -> & Hu & Hk).
        exists (x :: u), s'. split; [reflexivity|]. split; [now constructor|exact Hk].
    + destruct (p x) eqn:Px.
      * destruct (star false p k (Some x) s c) as [r|] eqn:E.
        -- injection H as <-. destruct (IH _ _ E) as (u & s' & -> & Hu & Hk).
           exists (x :: u), s'. split; [reflexivity|]. split; [now constructor|exact Hk].
        -- exists [], (x :: s). split; [reflexivity|]. split; [constructor|exact H].
      * exists [], (x :: s). split; [reflexivity|]. split; [constructor|exact H].
Qed.

Lemma class_inv p k pv s c res :
  m (Class p) k (Cursor pv s) c = Some res ->
  exists x s', s = x :: s' /\ p x = true /\ k (Cursor (Some x) s') c = Some res.
Proof.
  cbn [m rest]. destruct s as [|x s']; [discriminate|].
  destruct (p x) eqn:Px; [|discriminate]. intros H. now exists x, s'.
Qed.

Lemma star_m_inv lazy p k pv s c res :
  m (Star lazy p) k (Cursor pv s) c = Some res ->
  exists u s',
    s = u ++ s' /\ Forall (fun x => p x = true) u /\
    k (Cursor (after pv u) s') c = Some res.
Proof. cbn [m prev rest]. apply star_inv_class. Qed.

Lemma cat_class_inv p r k pv s c res :
  m (Cat (Class p) r) k (Cursor pv s) c = Some res ->
  exists x s', s = x :: s' /\ p x = true /\ m r k (Cursor (Some x) s') c = Some res.
Proof.
  change (m (Cat (Class p) r) k (Cursor pv s) c)
    with (m (Class p) (fun cur' c' => m r k cur' c') (Cursor pv s) c).
  intros H. apply class_inv in H. exact H.
Qed.

Lemma cat_star_inv lazy p r k pv s c res :
  m (Cat (Star lazy p) r) k (Cursor pv s) c = Some res ->
  exists u s',
    s = u ++ s' /\ Forall (fun x => p x = true) u /\
    m r k (Cursor (after pv u) s') c = Some res.
Proof.
  change (m (Cat (Star lazy p) r) k (Cursor pv s) c)
    with (m (Star lazy p) (fun cur' c' => m r k cur' c') (Cursor pv s) c).
  intros H. apply star_m_inv in H. exact H.
Qed.

Lemma cat_group n r1 r2 k cur c :
  m (Cat (Group n r1) r2) k cur c
  = m r1 (fun cur' c' => m r2 k cur' ((n, consumed cur cur') :: c')) cur c.
Proof. reflexivity. Qed.

Lemma cat_assoc r1 r2 r3 k cur c :
  m (Cat (Cat r1 r2) r3) k cur c = m (Cat r1 (Cat r2 r3)) k cur c.
Proof. reflexivity. Qed.

Lemma consumed_exact pv pv' (x u s : jsstring) :
  x = u ++ s -> consumed (Cursor pv x) (Cursor pv' s) = u.
Proof. intros ->. apply consumed_app. Qed.

Lemma dateRegex_inv pv s cur' caps :
  m LatexParser.dateRegex accept (Cursor pv s) [] = Some (cur', caps) ->
  exists a y b r,
    s = ch "{" :: (a ++ y ++ b) ++ ch "}" :: r /\
    caps = [(1, a ++ y ++ b)] /\
    Forall (fun x => notBrace x = true) a /\
    length y = 4 /\ Forall (fun x => isDigit x = true) y /\
    Forall (fun x => notBrace x = true) b.
Proof.
  unfold LatexParser.dateRegex, Chr, Four. intros H.
  apply cat_class_inv in H. destruct H as (x0 & s0 & -> & Hx0 & H).
  unfold isChar in Hx0. apply N.eqb_eq in Hx0. subst x0.
  rewrite cat_group in H.
  apply cat_star_inv in H. destruct H as (a & s1 & -> & Ha & H).
  rewrite !cat_assoc in H.
  apply cat_class_inv in H. destruct H as (d1 & s2 & -> & Hd1 & H).
  apply cat_class_inv in H. destruct H as (d2 & s3 & -> & Hd2 & H).
  apply cat_class_inv in H. destruct H as (d3 & s4 & -> & Hd3 & H).
  apply class_inv in H. destruct H as (d4 & s5 & -> & Hd4 & H).
  cbn [prev rest] in H.
  apply star_inv_class in H. destruct H as (b & s6 & -> & Hb & H).
  apply class_inv in H. destruct H as (x1 & r & -> & Hx1 & H).
  unfold isChar in Hx1. apply N.eqb_eq in Hx1. subst x1.
  injection H as <- <-.
  exists a, [d1; d2; d3; d4], b, r.
  assert (E : a ++ d1 :: d2 :: d3 :: d4 :: b ++ ch "}" :: r
              = (a ++ [d1; d2; d3; d4] ++ b) ++ ch "}" :: r)
    by (rewrite <- !app_assoc; reflexivity).
  split; [exact (f_equal (cons (ch "{")) E)|]. split.
  - f_equal. f_equal. apply consumed_exact. exact E.
  - repeat split; auto.
Qed.

Lemma companyRegex_inv pv s cur' caps :
  m LatexParser.companyRegex accept (Cursor pv s) [] = Some (cur', caps) ->
  exists t r,
    s = lit "\textbf{" ++ t ++ ch "}" :: r /\
    caps = [(1, t)] /\ t <> [] /\ Forall (fun x => notBrace x = true) t.
Proof.
  unfold LatexParser.companyRegex. intros H.
  change (m (Str (lit "\textbf{"))
            (fun cur1 c1 => m (Group 1 (Plus (notChar (ch "}"))) @@ Chr "}") accept cur1 c1)
            (Cursor pv s) [] = Some (cur', caps)) in H.
  rewrite m_Str_cases in H.
  destruct (startsWith (lit "\textbf{") s) eqn:E; [|discriminate].
  apply startsWith_inv in E. destruct E as [s0 ->]. rewrite skipn_exact in H.
  unfold Plus, Chr in H. rewrite cat_group in H.
  apply cat_class_inv in H. destruct H as (x & s1 & -> & Hx & H).
  apply star_m_inv in H. destruct H as (u & s2 & -> & Hu & H).
  apply class_inv in H. destruct H as (x1 & r & -> & Hx1 & H).
  unfold isChar in Hx1. apply N.eqb_eq in Hx1. subst x1. injection H as <- <-.
  exists (x :: u), r. split; [reflexivity|]. split.
  - f_equal. f_equal. apply consumed_exact. reflexivity.
  - split; [discriminate|]. now constructor.
Qed.

Lemma digit_notBrace x : isDigit x = true -> notBrace x = true.
Proof.
  unfold notBrace, notChar. destruct (N.eqb_spec x (ch "}")) as [->|]; [|reflexivity].
  vm_compute. discriminate.
Qed.

Lemma dates_inv latex d :
  dates (LatexParser.extractMetadata latex) = Some d ->
  exists a y b u r,
    latex = u ++ (ch "{" :: d ++ [ch "}"]) ++ r /\
    d = a ++ y ++ b /\
    Forall (fun x => notBrace x = true) a /\
    length y = 4 /\ Forall (fun x => isDigit x = true) y /\
    Forall (fun x => notBrace x = true) b.
Proof.
  unfold LatexParser.extractMetadata. cbv zeta. cbn [dates].
  destruct (str_match LatexParser.dateRegex latex) as [mt|] eqn:E; [|discriminate].
  intros Hd. unfold str_match in E. apply exec_m in E.
  destruct E as (s1 & pv1 & cur' & (u & v & Hp) & Hm & _).
  apply dateRegex_inv in Hm. destruct Hm as (a & y & b & r & Hs & Hcaps & Ha & Hy & Hyd & Hb).
  unfold group in Hd. rewrite Hcaps in Hd. cbn in Hd. injection Hd as <-.
  exists a, y, b, u, (r ++ v). split; [|now repeat split].
  rewrite Hp, Hs. cbn [app]. rewrite <- !app_assoc. reflexivity.
Qed.

Lemma company_inv latex c :
  company (LatexParser.extractMetadata latex) = Some c ->
  exists u r,
    latex = u ++ (lit "\textbf{" ++ c ++ [ch "}"]) ++ r /\
    c <> [] /\ Forall (fun x => notBrace x = true) c.
Proof.
  unfold LatexParser.extractMetadata. cbv zeta. cbn [company].
  destruct (str_match LatexParser.companyRegex latex) as [mt|] eqn:E; [|discriminate].
  intros Hc. unfold str_match in E. apply exec_m in E.
  destruct E as (s1 & pv1 & cur' & (u & v & Hp) & Hm & _).
  apply companyRegex_inv in Hm. destruct Hm as (t & r & Hs & Hcaps & Hne & Ht).
  unfold group in Hc. rewrite Hcaps in Hc. cbn in Hc. injection Hc as <-.
  exists u, (r ++ v). split; [|now split].
  rewrite Hp, Hs. rewrite <- !app_assoc. reflexivity.
Qed.
(* ================================================================== *)
(** ** Matches follow one another *)
(* ================================================================== *)

Lemma oaa_weaken g xs s : OneAfterAnother xs s -> OneAfterAnother xs (g ++ s).
Proof.
  intros H. destruct H as [s|gap x xs s H]; [constructor|].
  rewrite app_assoc. now constructor.
Qed.

Lemma skipn_split (A : Type) : forall n (l : list A),
  skipn n l = firstn 1 (skipn n l) ++ skipn (S n) l.
Proof.
  induction n as [|n IH]; intros [|x l]; try reflexivity.
  cbn [skipn]. rewrite IH at 1. reflexivity.
Qed.

(** The matches of a global scan are pieces of the input that follow one
    another. *)
Lemma matchAll_from_in_order r input : forall fuel i,
  OneAfterAnother (map m_text (matchAll_from fuel r input i)) (skipn i input).
Proof.
  induction fuel as [|fuel IH]; intros i; cbn [matchAll_from]; [constructor|].
  destruct (exec r input i) as [mt|] eqn:E; [|constructor].
  destruct (exec_inv _ _ _ _ E) as (Hi & He & Hlen & _ & _ & Hin).
  cbn [map].
  assert (Hskip : skipn i input
                  = skipn i (firstn (m_index mt) input) ++ m_text mt ++ skipn (m_end mt) input).
  { rewrite Hin at 1. rewrite skipn_app.
    assert (Hl : length (firstn (m_index mt) input) = m_index mt)
      by (rewrite length_firstn; lia).
    rewrite Hl. replace (i - m_index mt) with 0 by lia. reflexivity. }
  rewrite Hskip. constructor.
  destruct (Nat.eqb (m_end mt) (m_index mt)); [|apply IH].
  rewrite (skipn_split _ (m_end mt) input). apply oaa_weaken, IH.
Qed.

Lemma Forall2_map_eq (A B C : Type) (f : A -> C) (g : B -> C) : forall l1 l2,
  Forall2 (fun a b => f a = g b) l1 l2 -> map f l1 = map g l2.
Proof.
  induction 1 as [|a b l1 l2 E _ IH]; [reflexivity|]. cbn. now rewrite E, IH.
Qed.
(* ================================================================== *)
(** ** The document class and the packages *)
(* ================================================================== *)

(** What a lazily quantified class has read: as little as the rest of the
    pattern allows. *)
Lemma star_lazy_class p k c : forall s pv res,
  star true p k pv s c = Some res ->
  exists u s',
    s = u ++ s' /\ Forall (fun x => p x = true) u /\
    k (Cursor (after pv u) s') c = Some res /\
    (forall u1 u2, u = u1 ++ u2 -> u2 <> [] ->
       k (Cursor (after pv u1) (u2 ++ s')) c = None).
Proof.
  induction s as [|x s IH]; intros pv res H; cbn [star] in H.
  - destruct (k (Cursor pv []) c) eqn:E; [|discriminate].
    exists [], []. split; [reflexivity|]. split; [constructor|].
    split; [cbn [after]; congruence|].
    intros u1 u2 E' Hu. destruct u1, u2; cbn in E'; congruence.
  - destruct (k (Cursor pv (x :: s)) c) eqn:E.
    + exists [], (x :: s). split; [reflexivity|]. split; [constructor|].
      split; [cbn [after]; congruence|].
      intros u1 u2 E' Hu. destruct u1, u2; cbn in E'; congruence.
    + destruct (p x) eqn:Px; [|discriminate].
      apply IH in H. destruct H as (u & s' & -> & Hu & Hk & Hn).
      exists (x :: u), s'. split; [reflexivity|]. split; [now constructor|].
      split; [exact Hk|].
      intros u1 u2 E' Hu2. destruct u1 as [|y u1]; cbn in E'.
      * subst u2. exact E.
      * injection E' as <- ->. cbn [after]. now apply Hn.
Qed.

Lemma cat_opt_inv r1 r2 k cur c res :
  m (Cat (Opt r1) r2) k cur c = Some res ->
  m (Cat r1 r2) k cur c = Some res \/ m r2 k cur c = Some res.
Proof.
  change (m (Cat (Opt r1) r2) k cur c)
    with (match m (Cat r1 r2) k cur c with
          | Some res' => Some res'
          | None => m r2 k cur c
          end).
  destruct (m (Cat r1 r2) k cur c); auto.
Qed.

(** The braced name at the end of the class and package patterns. *)
Lemma bracedTail_inv pv s c0 cur' caps :
  m (Chr "{" @@ Group 1 (Star true dot) @@ Chr "}") accept (Cursor pv s) c0
  = Some (cur', caps) ->
  exists name r,
    s = ch "{" :: name ++ ch "}" :: r /\ caps = (1, name) :: c0 /\
    Forall (fun x => dot x = true) name /\ ~ In (ch "}") name.
Proof.
  unfold Chr. intros H.
  apply cat_class_inv in H. destruct H as (x0 & s0 & -> & Hx0 & H).
  unfold isChar in Hx0. apply N.eqb_eq in Hx0. subst x0.
  rewrite cat_group in H. cbn [m prev rest] in H.
  apply star_lazy_class in H. destruct H as (u & s1 & -> & Hu & Hk & Hmin).
  cbn [m rest] in Hk. destruct s1 as [|x1 r]; [discriminate|].
  destruct (isChar (ch "}") x1) eqn:Hx1; [|discriminate].
  unfold isChar in Hx1. apply N.eqb_eq in Hx1. subst x1.
  injection Hk as <- <-.
  exists u, r. split; [reflexivity|]. split.
  - f_equal. f_equal. apply consumed_exact. reflexivity.
  - split; [exact Hu|]. intros Hin. apply in_split in Hin.
    destruct Hin as (u1 & u2 & ->).
    specialize (Hmin u1 (ch "}" :: u2) eq_refl). cbn [m rest app] in Hmin.
    unfold isChar in Hmin. rewrite N.eqb_refl in Hmin.
    assert (ch "}" :: u2 <> []) as Hne by discriminate.
    specialize (Hmin Hne). discriminate.
Qed.

Lemma bracedCommand_inv L pv s cur' caps :
  m (Str L @@ Opt (Chr "[" @@ Star true dot @@ Chr "]")
       @@ Chr "{" @@ Group 1 (Star true dot) @@ Chr "}")
    accept (Cursor pv s) [] = Some (cur', caps) ->
  exists opt name r,
    s = L ++ opt ++ ch "{" :: name ++ ch "}" :: r /\ caps = [(1, name)] /\
    Forall (fun x => dot x = true) name /\ ~ In (ch "}") name /\
    (opt = [] \/ exists o, opt = ch "[" :: o ++ [ch "]"] /\ Forall (fun x => dot x = true) o).
Proof.
  intros H.
  change (m (Str L)
            (fun cur1 c1 =>
               m (Opt (Chr "[" @@ Star true dot @@ Chr "]")
                    @@ Chr "{" @@ Group 1 (Star true dot) @@ Chr "}") accept cur1 c1)
            (Cursor pv s) [] = Some (cur', caps)) in H.
  rewrite m_Str_cases in H.
  destruct (startsWith L s) eqn:E; [|discriminate].
  apply startsWith_inv in E. destruct E as [s0 ->]. rewrite skipn_exact in H.
  apply cat_opt_inv in H. destruct H as [H|H].
  - rewrite !cat_assoc in H. unfold Chr at 1 in H.
    apply cat_class_inv in H. destruct H as (x0 & s1 & -> & Hx0 & H).
    unfold isChar in Hx0. apply N.eqb_eq in Hx0. subst x0.
    apply cat_star_inv in H. destruct H as (o & s2 & -> & Ho & H).
    unfold Chr at 1 in H.
    apply cat_class_inv in H. destruct H as (x1 & s3 & -> & Hx1 & H).
    unfold isChar in Hx1. apply N.eqb_eq in Hx1. subst x1.
    apply bracedTail_inv in H. destruct H as (name & r & -> & -> & Hn & Hb).
    exists (ch "[" :: o ++ [ch "]"]), name, r.
    split; [cbn [app]; now rewrite <- !app_assoc|].
    split; [reflexivity|]. split; [exact Hn|]. split; [exact Hb|].
    right. now exists o.
  - apply bracedTail_inv in H. destruct H as (name & r & -> & -> & Hn & Hb).
    exists [], name, r. repeat split; auto.
Qed.

Lemma exec_bracedName L input i mt :
  exec (Str L @@ Opt (Chr "[" @@ Star true dot @@ Chr "]")
          @@ Chr "{" @@ Group 1 (Star true dot) @@ Chr "}") input i = Some mt ->
  bracedName (capture 1 mt) L input.
Proof.
  intros E. apply exec_m in E.
  destruct E as (s1 & pv1 & cur' & (u & v & Hp) & Hm & _).
  apply bracedCommand_inv in Hm.
  destruct Hm as (opt & name & r & Hs & Hcaps & Hn & Hb & Hopt).
  rewrite (capture_of_groups 1 mt name) by (rewrite Hcaps; reflexivity).
  exists opt, u, (r ++ v). split; [|now repeat split].
  rewrite Hp, Hs. rewrite <- !app_assoc. cbn [app]. now rewrite <- !app_assoc.
Qed.
(* ================================================================== *)
(** ** The item patterns *)
(* ================================================================== *)

Lemma m_stopAlts pv s c : forall Ls,
  (existsb (fun L => startsWith L s) Ls || negb (nonEmpty s) = true ->
   exists cur', m (stopAlts Ls) (fun cur' c' => Some (cur', c')) (Cursor pv s) c
                = Some (cur', c)) /\
  (existsb (fun L => startsWith L s) Ls || negb (nonEmpty s) = false ->
   m (stopAlts Ls) (fun cur' c' => Some (cur', c')) (Cursor pv s) c = None).
Proof.
  induction Ls as [|L Ls [IH1 IH2]]; cbn [stopAlts existsb m orb].
  - unfold atEol. cbn [rest]. destruct s; cbn; split; intros H; try discriminate; eauto.
  - rewrite m_Str_cases. destruct (startsWith L s); cbn [orb].
    + split; [eauto|discriminate].
    + split; [exact IH1|exact IH2].
Qed.

Lemma m_stops Ls pv s c :
  m (Ahead (stopAlts Ls)) accept (Cursor pv s) c
  = if stops Ls s then Some (Cursor pv s, c) else None.
Proof.
  cbn [m]. unfold stops. destruct (m_stopAlts pv s c Ls) as [H1 H2].
  destruct (existsb (fun L => startsWith L s) Ls || negb (nonEmpty s)).
  - destruct (H1 eq_refl) as [cur' ->]. reflexivity.
  - now rewrite (H2 eq_refl).
Qed.

(** A lazily read text ends at the first place where the lookahead
    holds. *)
Lemma lazy_until_stops n Ls pv s caps res :
  m (Group n (Star true any) @@ Ahead (stopAlts Ls)) accept (Cursor pv s) caps = Some res ->
  exists body r,
    s = body ++ r /\ res = (Cursor (after pv body) r, (n, body) :: caps) /\
    stops Ls r = true /\
    (forall a b, body = a ++ b -> b <> [] -> stops Ls (b ++ r) = false).
Proof.
  rewrite cat_group. intros H.
  change (star true any
            (fun cur' c' =>
               m (Ahead (stopAlts Ls)) accept cur' ((n, consumed (Cursor pv s) cur') :: c'))
            pv s caps = Some res) in H.
  apply (star_lazy_cases (stops Ls) (fun pv' u r => (Cursor pv' r, (n, u) :: caps))) in H.
  - destruct H as (body & r & Hs & Hres & Hg & Hmin). now exists body, r.
  - intros pv' u r ->. rewrite m_stops.
    now rewrite (consumed_exact pv pv' (u ++ r) u r eq_refl).
Qed.

Lemma stops_false_NoStart L Ls body r :
  In L Ls ->
  (forall a b, body = a ++ b -> b <> [] -> stops Ls (b ++ r) = false) ->
  NoStart L body r.
Proof.
  intros HL Hmin a b E Hb. specialize (Hmin a b E Hb).
  unfold stops in Hmin. apply orb_false_elim in Hmin. destruct Hmin as [Hmin _].
  destruct (startsWith L (b ++ r)) eqn:S; [|reflexivity].
  assert (existsb (fun L0 => startsWith L0 (b ++ r)) Ls = true); [|congruence].
  apply existsb_exists. now exists L.
Qed.

Lemma itemPattern_inv pv s cur' caps :
  m LatexParser.itemPattern accept (Cursor pv s) [] = Some (cur', caps) ->
  exists ws body r,
    s = lit "\item" ++ ws ++ body ++ r /\ rest cur' = r /\ caps = [(1, body)] /\
    ws <> [] /\ Forall (fun x => isSpace x = true) ws /\
    NoStart (lit "\item") body r /\ NoStart (lit "\end{itemize}") body r /\
    NoStart (lit "\end{enumerate}") body r.
Proof.
  unfold LatexParser.itemPattern. intros H.
  change (m (Str (lit "\item"))
            (fun cur1 c1 =>
               m (Plus isSpace @@ Group 1 (Star true any)
                    @@ Ahead (stopAlts [lit "\item"; lit "\end{itemize}"; lit "\end{enumerate}"]))
                 accept cur1 c1)
            (Cursor pv s) [] = Some (cur', caps)) in H.
  rewrite m_Str_cases in H.
  destruct (startsWith (lit "\item") s) eqn:E; [|discriminate].
  apply startsWith_inv in E. destruct E as [s0 ->]. rewrite skipn_exact in H.
  unfold Plus in H. rewrite cat_assoc in H.
  apply cat_class_inv in H. destruct H as (x & s1 & -> & Hx & H).
  apply cat_star_inv in H. destruct H as (u & s2 & -> & Hu & H).
  apply lazy_until_stops in H. destruct H as (body & r & -> & Hres & _ & Hmin).
  injection Hres as -> ->.
  exists (x :: u), body, r. split; [reflexivity|].
  split; [reflexivity|]. split; [reflexivity|]. split; [discriminate|].
  split; [now constructor|].
  repeat split; eapply stops_false_NoStart; try exact Hmin; cbn; auto.
Qed.

Lemma subsectionPattern_inv pv s cur' caps :
  m LatexParser.subsectionPattern accept (Cursor pv s) [] = Some (cur', caps) ->
  exists star t body r,
    s = lit "\subsection" ++ star ++ braced t ++ body ++ r /\
    rest cur' = r /\
    caps = [(2, body); (1, t)] /\
    (star = [] \/ star = [ch "*"]) /\
    t <> [] /\ Forall (fun x => notBrace x = true) t /\
    NoStart (lit "\subsection") body r /\ NoStart (lit "\section") body r.
Proof.
  unfold LatexParser.subsectionPattern. intros H.
  change (m (Str (lit "\subsection"))
            (fun cur1 c1 =>
               m (Opt (Chr "*") @@ Chr "{" @@ Group 1 (Plus (notChar (ch "}"))) @@ Chr "}"
                    @@ Group 2 (Star true any)
                    @@ Ahead (stopAlts [lit "\subsection"; lit "\section"]))
                 accept cur1 c1)
            (Cursor pv s) [] = Some (cur', caps)) in H.
  rewrite m_Str_cases in H.
  destruct (startsWith (lit "\subsection") s) eqn:E; [|discriminate].
  apply startsWith_inv in E. destruct E as [s0 ->]. rewrite skipn_exact in H.
  assert (Htail : forall pv0 s1,
             m (Chr "{" @@ Group 1 (Plus (notChar (ch "}"))) @@ Chr "}"
                  @@ Group 2 (Star true any)
                  @@ Ahead (stopAlts [lit "\subsection"; lit "\section"]))
               accept (Cursor pv0 s1) [] = Some (cur', caps) ->
             exists t body r,
               s1 = braced t ++ body ++ r /\ rest cur' = r /\
               caps = [(2, body); (1, t)] /\
               t <> [] /\ Forall (fun x => notBrace x = true) t /\
               NoStart (lit "\subsection") body r /\ NoStart (lit "\section") body r).
  { intros pv0 s1 H1. unfold Chr at 1 in H1.
    apply cat_class_inv in H1. destruct H1 as (x0 & s2 & -> & Hx0 & H1).
    unfold isChar in Hx0. apply N.eqb_eq in Hx0. subst x0.
    rewrite cat_group in H1. unfold Plus in H1.
    apply cat_class_inv in H1. destruct H1 as (x & s3 & -> & Hx & H1).
    apply star_m_inv in H1. destruct H1 as (u & s4 & -> & Hu & H1).
    unfold Chr at 1 in H1.
    apply cat_class_inv in H1. destruct H1 as (x1 & s5 & -> & Hx1 & H1).
    unfold isChar in Hx1. apply N.eqb_eq in Hx1. subst x1.
    apply lazy_until_stops in H1. destruct H1 as (body & r & -> & Hres & _ & Hmin).
    injection Hres as -> ->.
    exists (x :: u), body, r.
    split; [unfold braced; cbn [app]; now rewrite <- !app_assoc|].
    split; [reflexivity|]. split.
    { f_equal. f_equal. f_equal. apply consumed_exact. reflexivity. }
    split; [discriminate|]. split; [now constructor|].
    split; eapply stops_false_NoStart; try exact Hmin; cbn; auto. }
  apply cat_opt_inv in H. destruct H as [H|H].
  - unfold Chr at 1 in H.
    apply cat_class_inv in H. destruct H as (x0 & s1 & -> & Hx0 & H).
    unfold isChar in Hx0. apply N.eqb_eq in Hx0. subst x0.
    apply Htail in H. destruct H as (t & body & r & -> & Hr & Hc & Ht & Hb & N1 & N2).
    exists [ch "*"], t, body, r. repeat split; auto.
  - apply Htail in H. destruct H as (t & body & r & -> & Hr & Hc & Ht & Hb & N1 & N2).
    exists [], t, body, r. repeat split; auto.
Qed.

Lemma field_inv n r k pv s c res :
  m (Cat (LatexParser.field n) r) k (Cursor pv s) c = Some res ->
  exists f s',
    s = braced f ++ s' /\ Forall (fun x => notBrace x = true) f /\
    m r k (Cursor (Some (ch "}")) s') ((n, f) :: c) = Some res.
Proof.
  unfold LatexParser.field. rewrite !cat_assoc. unfold Chr at 1. intros H.
  apply cat_class_inv in H. destruct H as (x0 & s1 & -> & Hx0 & H).
  unfold isChar in Hx0. apply N.eqb_eq in Hx0. subst x0.
  rewrite cat_assoc, cat_group in H.
  apply star_m_inv in H. destruct H as (f & s2 & -> & Hf & H).
  unfold Chr at 1 in H.
  apply cat_class_inv in H. destruct H as (x1 & s3 & -> & Hx1 & H).
  unfold isChar in Hx1. apply N.eqb_eq in Hx1. subst x1.
  exists f, s3. split; [unfold braced; cbn [app]; now rewrite <- !app_assoc|].
  split; [exact Hf|].
  rewrite (consumed_exact (Some (ch "{")) (after (Some (ch "{")) f)
             (f ++ ch "}" :: s3) f (ch "}" :: s3) eq_refl) in H.
  exact H.
Qed.

Lemma cventryPattern_inv pv s cur' caps :
  m LatexParser.cventryPattern accept (Cursor pv s) [] = Some (cur', caps) ->
  exists f1 f2 f3 f4 f5 f6 r,
    s = lit "\cventry" ++ braced f1 ++ braced f2 ++ braced f3
        ++ braced f4 ++ braced f5 ++ braced f6 ++ r /\
    rest cur' = r /\
    lookup 1 caps = Some f1 /\
    Forall (fun f => Forall (fun x => notBrace x = true) f) [f1; f2; f3; f4; f5; f6].
Proof.
  unfold LatexParser.cventryPattern. intros H.
  change (m (Str (lit "\cventry"))
            (fun cur1 c1 =>
               m (LatexParser.field 1 @@ LatexParser.field 2 @@ LatexParser.field 3
                    @@ LatexParser.field 4 @@ LatexParser.field 5
                    @@ LatexParser.field 6 @@ Empty) accept cur1 c1)
            (Cursor pv s) [] = Some (cur', caps)) in H.
  rewrite m_Str_cases in H.
  destruct (startsWith (lit "\cventry") s) eqn:E; [|discriminate].
  apply startsWith_inv in E. destruct E as [s0 ->]. rewrite skipn_exact in H.
  apply field_inv in H. destruct H as (f1 & s1 & -> & H1 & H).
  apply field_inv in H. destruct H as (f2 & s2 & -> & H2 & H).
  apply field_inv in H. destruct H as (f3 & s3 & -> & H3 & H).
  apply field_inv in H. destruct H as (f4 & s4 & -> & H4 & H).
  apply field_inv in H. destruct H as (f5 & s5 & -> & H5 & H).
  apply field_inv in H. destruct H as (f6 & s6 & -> & H6 & H).
  cbn [m] in H. injection H as <- <-.
  exists f1, f2, f3, f4, f5, f6, s6.
  split; [reflexivity|]. split; [reflexivity|]. split; [reflexivity|].
  repeat constructor; assumption.
Qed.

(** The text of a match is what stands before the place the match
    reached. *)
Lemma m_text_prefix r0 input i mt :
  exec r0 input i = Some mt ->
  exists s1 pv1 cur',
    m r0 accept (Cursor pv1 s1) [] = Some (cur', m_groups mt) /\
    s1 = m_text mt ++ rest cur'.
Proof.
  intros E. destruct (exec_m _ _ _ _ E) as (s1 & pv1 & cur' & _ & Hm & Ht).
  exists s1, pv1, cur'. split; [exact Hm|].
  rewrite Ht. now apply accept_inv in Hm.
Qed.

Lemma subsection_match content mt k pid :
  In mt (matchAll LatexParser.subsectionPattern content) ->
  subsectionShape (itemOf pid mt k).
Proof.
  revert mt. unfold matchAll. apply matchAll_from_Forall_in. intros j mt E.
  destruct (m_text_prefix _ _ _ _ E) as (s1 & pv1 & cur' & Hm & Hs).
  apply subsectionPattern_inv in Hm.
  destruct Hm as (star & t & body & r & Hs1 & Hr & Hc & Hstar & Ht & Hb & N1 & N2).
  exists star, t, body. cbn [rawLatex title itemOf].
  split.
  { rewrite Hs1, Hr in Hs. apply (app_inv_tail r). rewrite <- Hs.
    now rewrite <- !app_assoc. }
  split; [exact Hstar|]. split; [exact Ht|]. split; [now apply notBrace_Forall|].
  split; [eapply NoStart_NoOcc; [discriminate|exact N1]|].
  split; [eapply NoStart_NoOcc; [discriminate|exact N2]|].
  unfold group. rewrite Hc. cbn. destruct t; [contradiction|reflexivity].
Qed.

Lemma listItem_match content mt k pid :
  In mt (matchAll LatexParser.itemPattern content) ->
  listItemShape (itemOf pid mt k).
Proof.
  revert mt. unfold matchAll. apply matchAll_from_Forall_in. intros j mt E.
  destruct (m_text_prefix _ _ _ _ E) as (s1 & pv1 & cur' & Hm & Hs).
  apply itemPattern_inv in Hm.
  destruct Hm as (ws & body & r & Hs1 & Hr & Hc & Hws & Hsp & N1 & N2 & N3).
  exists ws, body. cbn [rawLatex title itemOf].
  split.
  { rewrite Hs1, Hr in Hs. apply (app_inv_tail r). rewrite <- Hs.
    now rewrite <- !app_assoc. }
  split; [exact Hws|]. split; [exact Hsp|].
  split; [eapply NoStart_NoOcc; [discriminate|exact N1]|].
  split; [eapply NoStart_NoOcc; [discriminate|exact N2]|].
  split; [eapply NoStart_NoOcc; [discriminate|exact N3]|].
  unfold group. now rewrite Hc.
Qed.

Lemma cventry_match content mt k pid :
  In mt (matchAll LatexParser.cventryPattern content) ->
  cventryShape (itemOf pid mt k).
Proof.
  revert mt. unfold matchAll. apply matchAll_from_Forall_in. intros j mt E.
  destruct (m_text_prefix _ _ _ _ E) as (s1 & pv1 & cur' & Hm & Hs).
  apply cventryPattern_inv in Hm.
  destruct Hm as (f1 & f2 & f3 & f4 & f5 & f6 & r & Hs1 & Hr & Hc & Hall).
  exists f1, f2, f3, f4, f5, f6. cbn [rawLatex title itemOf].
  split.
  { rewrite Hs1, Hr in Hs. apply (app_inv_tail r). rewrite <- Hs.
    now rewrite <- !app_assoc. }
  split.
  { eapply Forall_impl; [|exact Hall]. intros f. apply notBrace_Forall. }
  unfold group. now rewrite Hc.
Qed.
(* ================================================================== *)
(** ** The title cleaner *)
(* ================================================================== *)

Local Ltac nbool :=
  unfold isAlnum, isLetter, isUpper, isLower, isDigit in *;
  repeat progress
    (rewrite ?andb_true_iff, ?orb_true_iff, ?andb_false_iff, ?orb_false_iff,
             ?N.leb_le, ?N.leb_gt in * );
  lia.

Lemma isAlnum_not_space c : isAlnum c = true -> isSpace c = false.
Proof.
  intros H. assert (B : (48 <= c <= 122)%N) by nbool. clear H.
  unfold isSpace, isWhiteSpace, isLineTerminator.
  repeat match goal with
         | |- context [N.eqb c ?k] => destruct (N.eqb_spec c k); [lia|]
         end.
  destruct (N.leb_spec 8192 c); [lia|]. reflexivity.
Qed.

Lemma dropWhile_head p c r : forall s, dropWhile p s = c :: r -> p c = false.
Proof.
  induction s as [|x s IH]; cbn; [discriminate|].
  destruct (p x) eqn:E; [exact IH|]. intros H. injection H as -> _. exact E.
Qed.

Lemma trim_end x h c : trim x = h ++ [c] -> isSpace c = false.
Proof.
  unfold trim, trimEnd. intros H.
  apply (f_equal (@rev char)) in H. rewrite rev_involutive, rev_app_distr in H.
  cbn in H. exact (dropWhile_head isSpace c (rev h) _ H).
Qed.

Lemma trim_fixed r :
  (exists c r', r = c :: r' /\ isSpace c = false) ->
  (forall h c, r = h ++ [c] -> isSpace c = false) ->
  trim r = r.
Proof.
  intros (c & r' & E & Hc) Hend. unfold trim, trimStart.
  assert (S : dropWhile isSpace r = r) by (rewrite E; cbn; now rewrite Hc).
  rewrite S. unfold trimEnd. destruct (rev r) as [|d l] eqn:R.
  - apply (f_equal (@rev char)) in R. rewrite rev_involutive in R.
    rewrite R in E. discriminate.
  - assert (R' := f_equal (@rev char) R). rewrite rev_involutive in R'.
    cbn [rev] in R'. cbn [dropWhile]. rewrite (Hend _ _ R').
    cbn [rev]. symmetry. exact R'.
Qed.

Lemma splitSpaces_aux_words : forall s inrun acc,
  Forall (fun c => isSpace c = false) acc ->
  (forall h c, s = h ++ [c] -> isSpace c = false) ->
  (s = [] -> acc <> []) ->
  (inrun = false -> acc = [] -> exists c s', s = c :: s' /\ isSpace c = false) ->
  Forall (fun w => w <> [] /\ Forall (fun c => isSpace c = false) w)
         (splitSpaces_aux inrun acc s).
Proof.
  induction s as [|c s IH]; intros inrun acc Hacc Hend Hne Hst; cbn [splitSpaces_aux].
  - constructor; [|constructor]. split.
    + intros E. apply (Hne eq_refl). apply (f_equal (@rev char)) in E.
      now rewrite rev_involutive in E.
    + apply Forall_rev. exact Hacc.
  - assert (Hend' : forall h d, s = h ++ [d] -> isSpace d = false).
    { intros h d E. apply (Hend (c :: h) d). now rewrite E. }
    destruct (isSpace c) eqn:Ec.
    + assert (Hs : s <> []).
      { intros ->. specialize (Hend [] c eq_refl). congruence. }
      destruct inrun.
      * apply IH; auto; try discriminate.
      * assert (Ha : acc <> []).
        { intros ->. destruct (Hst eq_refl eq_refl) as (c' & s' & E & Hc').
          injection E as -> _. congruence. }
        constructor.
        -- split; [|now apply Forall_rev]. intros E. apply Ha.
           apply (f_equal (@rev char)) in E. now rewrite rev_involutive in E.
        -- apply IH; auto; discriminate.
    + apply IH; auto; try discriminate.
Qed.

Lemma splitSpaces_aux_In : forall s inrun acc w,
  In w (splitSpaces_aux inrun acc s) -> forall c, In c w -> In c acc \/ In c s.
Proof.
  induction s as [|x s IH]; intros inrun acc w Hw c Hc; cbn [splitSpaces_aux] in Hw.
  - destruct Hw as [<-|[]]. left. now apply in_rev.
  - destruct (isSpace x).
    + destruct inrun.
      * destruct (IH _ _ _ Hw c Hc); [now left|right; now right].
      * destruct Hw as [<-|Hw]; [left; now apply in_rev|].
        destruct (IH _ _ _ Hw c Hc) as [[]|]; right; now right.
    + destruct (IH _ _ _ Hw c Hc) as [[<-|]|]; [right; now left|now left|right; now right].
Qed.

Lemma splitSpaces_aux_first : forall s acc,
  exists w ws, splitSpaces_aux false acc s = (rev acc ++ w) :: ws.
Proof.
  induction s as [|x s IH]; intros acc; cbn [splitSpaces_aux].
  - exists [], []. now rewrite app_nil_r.
  - destruct (isSpace x).
    + exists [], (splitSpaces_aux true [] s). now rewrite app_nil_r.
    + destruct (IH (x :: acc)) as (w & ws & E). exists (x :: w), ws.
      rewrite E. cbn [rev]. now rewrite <- app_assoc.
Qed.

Lemma splitSpaces_aux_word : forall w acc rest,
  Forall (fun c => isSpace c = false) w ->
  splitSpaces_aux false acc (w ++ rest) = splitSpaces_aux false (rev w ++ acc) rest.
Proof.
  induction w as [|x w IH]; intros acc rest H; [reflexivity|].
  inversion H as [|? ? Hx Hw]; subst. cbn [app splitSpaces_aux]. rewrite Hx.
  rewrite (IH _ _ Hw). cbn [rev]. now rewrite <- app_assoc.
Qed.

Lemma join_head sep x w : forall l, join sep ((x :: w) :: l) = x :: join sep (w :: l).
Proof. intros [|y l]; reflexivity. Qed.

Lemma splitSpaces_aux_join : forall ws,
  Forall (fun w => w <> [] /\ Forall (fun c => isSpace c = false) w) ws ->
  ws <> [] ->
  forall inrun, splitSpaces_aux inrun [] (join (lit " ") ws) = ws.
Proof.
  induction ws as [|w ws IH]; intros H Hne inrun; [congruence|].
  inversion H as [|? ? [Hw Hsp] Hws]; subst.
  destruct w as [|c w]; [congruence|]. inversion Hsp as [|? ? Hc Hsp']; subst.
  destruct ws as [|w2 ws].
  - cbn [join splitSpaces_aux]. rewrite Hc.
    assert (E : splitSpaces_aux false [c] w = [c :: w]).
    { rewrite <- (app_nil_r w) at 1. rewrite (splitSpaces_aux_word _ _ _ Hsp').
      cbn [splitSpaces_aux]. rewrite rev_app_distr, rev_involutive. reflexivity. }
    destruct inrun; exact E.
  - change (join (lit " ") ((c :: w) :: w2 :: ws))
      with (c :: w ++ ch " " :: join (lit " ") (w2 :: ws)).
    cbn [splitSpaces_aux]. rewrite Hc.
    assert (E : splitSpaces_aux false [c] (w ++ ch " " :: join (lit " ") (w2 :: ws))
                = (c :: w) :: w2 :: ws).
    { rewrite (splitSpaces_aux_word _ _ _ Hsp'). cbn [splitSpaces_aux].
      change (isSpace (ch " ")) with true. cbv iota.
      rewrite rev_app_distr, rev_involutive. cbn [rev app]. f_equal.
      apply IH; [exact Hws|discriminate]. }
    destruct inrun; exact E.
Qed.

Lemma join_end sep : forall ws,
  Forall (fun w => w <> [] /\ Forall (fun c => isSpace c = false) w) ws ->
  forall h d, join sep ws = h ++ [d] -> isSpace d = false.
Proof.
  induction ws as [|w ws IH]; intros H h d E; [now destruct h|].
  inversion H as [|? ? [Hw Hsp] Hws]; subst. destruct ws as [|w2 ws].
  - cbn [join] in E. rewrite Forall_forall in Hsp. apply Hsp. rewrite E.
    apply in_or_app. right. now left.
  - change (join sep (w :: w2 :: ws)) with (w ++ sep ++ join sep (w2 :: ws)) in E.
    assert (J : join sep (w2 :: ws) <> []).
    { inversion Hws as [|? ? [Hw2 _] _]; subst. destruct w2; [congruence|].
      rewrite join_head. discriminate. }
    destruct (exists_last J) as (h' & d' & E'). rewrite E' in E.
    rewrite !app_assoc in E. apply app_inj_tail in E. destruct E as [_ <-].
    exact (IH Hws _ _ E').
Qed.

Section CleanTitleFacts.
Variable toLowerCase toUpperCase : jsstring -> jsstring.
Hypothesis upper_ascii :
  forall s, Forall (fun c => isAlnum c = true) s -> toUpperCase s = asciiUpper s.
Hypothesis lower_ascii :
  forall s, Forall (fun c => isAlnum c = true) s -> toLowerCase s = asciiLower s.

Lemma capitalize_nil : PdfParser.capitalize toLowerCase toUpperCase [] = [].
Proof.
  unfold PdfParser.capitalize. cbn [firstn skipn].
  rewrite upper_ascii, lower_ascii by constructor. reflexivity.
Qed.

Lemma capitalize_word c w :
  Forall (fun x => isAlnum x = true) (c :: w) ->
  PdfParser.capitalize toLowerCase toUpperCase (c :: w)
  = (if isLower c then (c - 32)%N else c)
      :: map (fun x => if isUpper x then (x + 32)%N else x) w.
Proof.
  intros H. inversion H as [|? ? Hc Hw]; subst.
  unfold PdfParser.capitalize. cbn [firstn skipn].
  rewrite upper_ascii, lower_ascii by (try exact Hw; now repeat constructor).
  reflexivity.
Qed.

Lemma capitalize_capitalized c w :
  Forall (fun x => isAlnum x = true) (c :: w) ->
  capitalized (PdfParser.capitalize toLowerCase toUpperCase (c :: w)).
Proof.
  intros H. rewrite (capitalize_word _ _ H). inversion H as [|? ? Hc Hw]; subst.
  eexists _, _. split; [reflexivity|]. split; [|split].
  - destruct (isLower c) eqn:E; [nbool|exact Hc].
  - destruct (isLower c) eqn:E; [nbool|exact E].
  - apply Forall_map. eapply Forall_impl; [|exact Hw]. cbv beta. intros x Hx.
    destruct (isUpper x) eqn:E; [split; nbool|now split].
Qed.

Lemma capitalize_fixed w :
  capitalized w -> PdfParser.capitalize toLowerCase toUpperCase w = w.
Proof.
  intros (c & rest & -> & Hc & Hl & Hr).
  rewrite capitalize_word.
  - rewrite Hl. f_equal. induction Hr as [|x r [_ Hx] _ IH]; [reflexivity|].
    cbn [map]. rewrite Hx. now f_equal.
  - constructor; [exact Hc|]. eapply Forall_impl; [|exact Hr]. now intros x [Hx _].
Qed.

Lemma cleanTitle_nil : PdfParser.cleanTitle toLowerCase toUpperCase [] = [].
Proof. unfold PdfParser.cleanTitle. cbn. exact capitalize_nil. Qed.

Lemma cleanTitle_words (title : jsstring) :
  titleShape (PdfParser.cleanTitle toLowerCase toUpperCase title).
Proof.
  unfold titleShape, PdfParser.cleanTitle. cbv zeta.
  set (keep := fun c => isLetter c || isDigit c || isSpace c).
  set (t1 := dropWhile (fun c => negb (isLetter c)) title).
  destruct t1 as [|l t1'] eqn:E1.
  { left. cbn. exact capitalize_nil. }
  assert (Hl : isLetter l = true).
  { apply dropWhile_head in E1. now apply negb_false_iff in E1. }
  assert (Hls : isSpace l = false) by (apply isAlnum_not_space; unfold isAlnum; now rewrite Hl).
  assert (E2 : filter keep (l :: t1') = l :: filter keep t1').
  { cbn [filter]. unfold keep at 1. now rewrite Hl. }
  rewrite E2. set (t2 := filter keep t1').
  assert (E3 : trim (l :: t2) = l :: trimEnd t2).
  { unfold trim, trimStart. cbn [dropWhile]. rewrite Hls.
    exact (trimEnd_keep [] l t2 Hls). }
  right.
  assert (Hwords : Forall (fun w => w <> [] /\ Forall (fun c => isSpace c = false) w)
                          (splitSpaces (trim (l :: t2)))).
  { apply splitSpaces_aux_words.
    - constructor.
    - intros h c. apply trim_end.
    - rewrite E3. discriminate.
    - intros _ _. rewrite E3. eauto. }
  assert (Halnum : Forall (fun w => w <> [] /\ Forall (fun c => isAlnum c = true) w)
                          (splitSpaces (trim (l :: t2)))).
  { apply Forall_forall. intros w Hw. rewrite Forall_forall in Hwords.
    destruct (Hwords w Hw) as [Hne Hsp]. split; [exact Hne|].
    apply Forall_forall. intros c Hc. rewrite Forall_forall in Hsp.
    destruct (splitSpaces_aux_In _ _ _ _ Hw c Hc) as [[]|Hin].
    apply In_trim in Hin. unfold t2 in Hin. rewrite <- E2 in Hin. apply filter_In in Hin.
    destruct Hin as [_ Hk]. unfold keep in Hk. rewrite (Hsp c Hc), orb_false_r in Hk.
    exact Hk. }
  rewrite E3 in *. unfold splitSpaces in *. cbn [splitSpaces_aux] in *.
  rewrite Hls in *.
  destruct (splitSpaces_aux_first (trimEnd t2) [l]) as (w & ws & Ew).
  rewrite Ew in *. cbn [rev app] in *. cbn [map].
  inversion Halnum as [|? ? [_ Hw] Hws]; subst.
  assert (Hcap := capitalize_capitalized _ _ Hw).
  assert (Hup : exists c' w', PdfParser.capitalize toLowerCase toUpperCase (l :: w) = c' :: w'
                              /\ isUpper c' = true).
  { rewrite (capitalize_word _ _ Hw). eexists _, _. split; [reflexivity|].
    destruct (isLower l) eqn:E; nbool. }
  destruct Hup as (c' & w' & Ec & Hc'). rewrite Ec in *.
  exists c', w', (map (PdfParser.capitalize toLowerCase toUpperCase) ws).
  split; [reflexivity|]. split; [exact Hc'|]. constructor; [exact Hcap|].
  apply Forall_map. eapply Forall_impl; [|exact Hws]. cbv beta.
  intros [|x v] [Hne Hal]; [congruence|]. now apply capitalize_capitalized.
Qed.

Lemma capitalized_alnum w :
  capitalized w -> w <> [] /\ Forall (fun c => isAlnum c = true) w.
Proof.
  intros (c & rest & -> & Hc & _ & Hr). split; [discriminate|].
  constructor; [exact Hc|]. eapply Forall_impl; [|exact Hr]. now intros x [Hx _].
Qed.

Lemma cleanTitle_fixed t :
  titleShape t -> PdfParser.cleanTitle toLowerCase toUpperCase t = t.
Proof.
  intros [->|(c & w & ws & -> & Hc & Hcap)]; [exact cleanTitle_nil|].
  set (words := (c :: w) :: ws) in *.
  assert (Hal : Forall (fun v => v <> [] /\ Forall (fun x => isAlnum x = true) v) words).
  { eapply Forall_impl; [|exact Hcap]. intros v Hv. now apply capitalized_alnum. }
  assert (Hsp : Forall (fun v => v <> [] /\ Forall (fun x => isSpace x = false) v) words).
  { eapply Forall_impl; [|exact Hal]. cbv beta. intros v [Hne Hv]. split; [exact Hne|].
    eapply Forall_impl; [|exact Hv]. intros x. apply isAlnum_not_space. }
  assert (Hl : isLetter c = true) by (unfold isLetter; now rewrite Hc).
  assert (Hcs : isSpace c = false) by (apply isAlnum_not_space; unfold isAlnum; now rewrite Hl).
  unfold PdfParser.cleanTitle. cbv zeta.
  assert (E1 : dropWhile (fun x => negb (isLetter x)) (join (lit " ") words)
               = join (lit " ") words).
  { unfold words. rewrite join_head. cbn [dropWhile]. now rewrite Hl. }
  rewrite E1.
  assert (E2 : filter (fun x => isLetter x || isDigit x || isSpace x) (join (lit " ") words)
               = join (lit " ") words).
  { apply filter_all. intros x Hx. apply In_join in Hx.
    destruct Hx as [[<-|[]]|(v & Hv & Hx)]; [reflexivity|].
    rewrite Forall_forall in Hal. destruct (Hal v Hv) as [_ Hv'].
    rewrite Forall_forall in Hv'. specialize (Hv' x Hx). unfold isAlnum in Hv'.
    now rewrite Hv'. }
  rewrite E2.
  assert (E3 : trim (join (lit " ") words) = join (lit " ") words).
  { apply trim_fixed.
    - unfold words. rewrite join_head. eauto.
    - apply join_end. exact Hsp. }
  rewrite E3. unfold splitSpaces.
  rewrite (splitSpaces_aux_join words Hsp); [|discriminate]. f_equal.
  clear - Hcap upper_ascii lower_ascii. induction Hcap as [|v l Hv _ IH]; [reflexivity|].
  cbn [map]. rewrite IH. f_equal. now apply capitalize_fixed.
Qed.

Lemma created_titles (P : Chunk -> Prop) :
  (forall t b k, P (PdfParser.createChunk toLowerCase toUpperCase t b k)) ->
  forall lines st,
    Forall P (PdfParser.chunks st) ->
    Forall P (PdfParser.chunks
                (PdfParser.flush toLowerCase toUpperCase
                   (fold_left (PdfParser.segStep toLowerCase toUpperCase) lines st))).
Proof.
  intros HP.
  assert (F : forall st, Forall P (PdfParser.chunks st) ->
                         Forall P (PdfParser.chunks (PdfParser.flush toLowerCase toUpperCase st))).
  { intros st H. unfold PdfParser.flush.
    destruct (PdfParser.currentSection st) as [sec|]; [|exact H].
    destruct (truthy (Some sec) && Nat.ltb 0 (length (PdfParser.currentContent st)));
      [|exact H].
    cbn [PdfParser.chunks]. apply Forall_app. split; [exact H|].
    constructor; [apply HP|constructor]. }
  induction lines as [|l lines IH]; intros st H; [now apply F|].
  cbn [fold_left]. apply IH. unfold PdfParser.segStep.
  destruct (PdfParser.isHeader l).
  - cbn [PdfParser.chunks]. now apply F.
  - destruct (truthy (PdfParser.currentSection st)); exact H.
Qed.

End CleanTitleFacts.

(* ================================================================== *)
(** ** The spread call and the argument limit of the host *)
(* ================================================================== *)

(** *** The list-item pattern, forwards *)

Lemma cat_class_fwd p r k pv x s c :
  p x = true ->
  m (Cat (Class p) r) k (Cursor pv (x :: s)) c = m r k (Cursor (Some x) s) c.
Proof. intros H. cbn [m rest]. now rewrite H. Qed.

Lemma cat_star_stop p r k pv x s c :
  p x = false ->
  m (Cat (Star false p) r) k (Cursor pv (x :: s)) c = m r k (Cursor pv (x :: s)) c.
Proof. intros H. cbn [m prev rest star]. now rewrite H. Qed.

Lemma lazy_until_stops_fwd n Ls pv body r caps :
  stops Ls r = true ->
  (forall a b, body = a ++ b -> b <> [] -> stops Ls (b ++ r) = false) ->
  m (Group n (Star true any) @@ Ahead (stopAlts Ls)) accept (Cursor pv (body ++ r)) caps
  = Some (Cursor (after pv body) r, (n, body) :: caps).
Proof.
  intros Hs Hmin. rewrite cat_group.
  change (star true any
            (fun cur' c' =>
               m (Ahead (stopAlts Ls)) accept cur'
                 ((n, consumed (Cursor pv (body ++ r)) cur') :: c'))
            pv (body ++ r) caps
          = Some (Cursor (after pv body) r, (n, body) :: caps)).
  apply (star_lazy_cases (stops Ls) (fun pv' u r0 => (Cursor pv' r0, (n, u) :: caps))).
  - intros pv' u r0 E. rewrite m_stops.
    now rewrite (consumed_exact pv pv' (body ++ r) u r0 E).
  - exists body, r. auto.
Qed.

Lemma itemPattern_fwd pv x body r :
  isSpace x = false ->
  stops [lit "\item"; lit "\end{itemize}"; lit "\end{enumerate}"] r = true ->
  (forall a b, x :: body = a ++ b -> b <> [] ->
     stops [lit "\item"; lit "\end{itemize}"; lit "\end{enumerate}"] (b ++ r) = false) ->
  m LatexParser.itemPattern accept (Cursor pv (lit "\item" ++ ch " " :: (x :: body) ++ r)) []
  = Some (Cursor (after (Some (ch " ")) (x :: body)) r, [(1, x :: body)]).
Proof.
  intros Hx Hs Hmin. unfold LatexParser.itemPattern.
  change (m (Str (lit "\item"))
            (fun cur1 c1 =>
               m (Plus isSpace @@ Group 1 (Star true any)
                    @@ Ahead (stopAlts [lit "\item"; lit "\end{itemize}"; lit "\end{enumerate}"]))
                 accept cur1 c1)
            (Cursor pv (lit "\item" ++ ch " " :: (x :: body) ++ r)) []
          = Some (Cursor (after (Some (ch " ")) (x :: body)) r, [(1, x :: body)])).
  rewrite m_Str_app. unfold Plus. rewrite cat_assoc.
  rewrite cat_class_fwd by reflexivity.
  cbn [app]. rewrite cat_star_stop by exact Hx.
  change (x :: body ++ r) with ((x :: body) ++ r).
  now apply lazy_until_stops_fwd.
Qed.

Lemma exec_item pre x body r :
  isSpace x = false ->
  stops [lit "\item"; lit "\end{itemize}"; lit "\end{enumerate}"] r = true ->
  (forall a b, x :: body = a ++ b -> b <> [] ->
     stops [lit "\item"; lit "\end{itemize}"; lit "\end{enumerate}"] (b ++ r) = false) ->
  exec LatexParser.itemPattern (pre ++ (lit "\item" ++ ch " " :: x :: body) ++ r) (length pre)
  = Some (MkMatch (length pre) (lit "\item" ++ ch " " :: x :: body) [(1, x :: body)]
                  (length pre + length (lit "\item" ++ ch " " :: x :: body))).
Proof.
  intros Hx Hs Hmin. rewrite exec_at.
  generalize (charBefore (pre ++ (lit "\item" ++ ch " " :: x :: body) ++ r) (length pre)).
  intros pv. pose proof (itemPattern_fwd pv x body r Hx Hs Hmin) as Hm.
  replace ((lit "\item" ++ ch " " :: x :: body) ++ r)
    with (lit "\item" ++ ch " " :: (x :: body) ++ r)
    by (rewrite <- app_assoc; reflexivity).
  rewrite (search_hit _ _ _ _ _ _ Hm).
  rewrite (consumed_exact pv _ (lit "\item" ++ ch " " :: (x :: body) ++ r)
             (lit "\item" ++ ch " " :: x :: body) r)
    by (rewrite <- app_assoc; reflexivity).
  reflexivity.
Qed.

Lemma itemLines_stops k :
  stops [lit "\item"; lit "\end{itemize}"; lit "\end{enumerate}"] (itemLines k) = true.
Proof. destruct k; reflexivity. Qed.

Lemma matchAll_item_step fuel pre x body r :
  isSpace x = false ->
  stops [lit "\item"; lit "\end{itemize}"; lit "\end{enumerate}"] r = true ->
  (forall a b, x :: body = a ++ b -> b <> [] ->
     stops [lit "\item"; lit "\end{itemize}"; lit "\end{enumerate}"] (b ++ r) = false) ->
  length
    (matchAll_from (S fuel) LatexParser.itemPattern
       (pre ++ (lit "\item" ++ ch " " :: x :: body) ++ r) (length pre))
  = S (length
         (matchAll_from fuel LatexParser.itemPattern
            ((pre ++ lit "\item" ++ ch " " :: x :: body) ++ r)
            (length (pre ++ lit "\item" ++ ch " " :: x :: body)))).
Proof.
  intros Hx Hs Hmin. cbn [matchAll_from].
  rewrite (exec_item pre x body r Hx Hs Hmin). cbn [m_end m_index].
  set (w := lit "\item" ++ ch " " :: x :: body).
  assert (Hw : 0 < length w) by (unfold w; cbn; lia).
  replace (Nat.eqb (length pre + length w) (length pre)) with false
    by (symmetry; apply Nat.eqb_neq; lia).
  cbn [length]. rewrite <- length_app, <- app_assoc. reflexivity.
Qed.

Lemma matchAll_item_end fuel pre :
  matchAll_from fuel LatexParser.itemPattern (pre ++ []) (length pre) = [].
Proof.
  destruct fuel as [|fuel]; [reflexivity|].
  cbn [matchAll_from]. rewrite exec_at. reflexivity.
Qed.

(** The list-item pattern finds every line of [itemLines k]. *)
Lemma matchAll_itemLines : forall k pre fuel,
  length (itemLines k) < fuel ->
  length (matchAll_from fuel LatexParser.itemPattern (pre ++ itemLines k) (length pre))
  = S k.
Proof.
  induction k as [|k IH]; intros pre fuel Hf; (destruct fuel as [|fuel]; [lia|]).
  - change (itemLines 0) with ((lit "\item" ++ ch " " :: ch "x" :: []) ++ []).
    rewrite matchAll_item_step; [|reflexivity|reflexivity|].
    + now rewrite matchAll_item_end.
    + intros a b E Hb. destruct a as [|a0 [|a1 a]]; cbn in E.
      * subst b. reflexivity.
      * injection E as _ <-. contradiction.
      * destruct a; discriminate.
  - change (itemLines (S k))
      with ((lit "\item" ++ ch " " :: ch "x" :: [LF]) ++ itemLines k).
    rewrite matchAll_item_step; [|reflexivity|apply itemLines_stops|].
    + f_equal. apply IH.
      change (itemLines (S k)) with ((lit "\item x" ++ [LF]) ++ itemLines k) in Hf.
      rewrite length_app in Hf. cbn in Hf. lia.
    + intros a b E Hb. destruct a as [|a0 [|a1 [|a2 a]]]; cbn in E.
      * subst b. reflexivity.
      * injection E as _ <-. reflexivity.
      * injection E as _ _ <-. contradiction.
      * destruct a; discriminate.
Qed.

(** *** A section with more items than the host accepts *)

Lemma itemLines_last k :
  exists z, itemLines k = z ++ [ch "x"].
Proof.
  exists (concat (repeat (lit "\item x" ++ [LF]) k) ++ lit "\item ").
  unfold itemLines. now rewrite <- app_assoc.
Qed.

Lemma itemLines_sealed L k :
  sealedb L (lit "\item x" ++ [LF]) = true -> sealedb L (lit "\item x") = true ->
  Sealed L (itemLines k).
Proof.
  intros H1 H2. unfold itemLines. apply Sealed_app.
  - apply Sealed_concat. apply Forall_forall. intros p Hp.
    apply repeat_spec in Hp. subst p. now apply sealedb_Sealed.
  - now apply sealedb_Sealed.
Qed.

Lemma trim_itemLines k : trim (itemLines k) = itemLines k.
Proof.
  apply trim_fixed.
  - destruct k; eexists _, _; (split; [reflexivity|reflexivity]).
  - intros h c E. destruct (itemLines_last k) as [z Hz]. rewrite Hz in E.
    apply app_inj_tail in E. destruct E as [_ <-]. reflexivity.
Qed.

Lemma bodyOf_wrapped Y :
  Sealed END Y -> bodyOf (BEGIN ++ Y ++ END) = trim Y.
Proof.
  intros HY. unfold bodyOf, str_match, exec.
  replace (Nat.ltb (length (BEGIN ++ Y ++ END)) 0) with false
    by (symmetry; apply Nat.ltb_ge; lia).
  cbn [skipn charBefore].
  replace (BEGIN ++ Y ++ END) with (BEGIN ++ Y ++ END ++ [])
    by (now rewrite app_nil_r).
  destruct (bodyRegex_fwd None Y [] (HY _)) as [pv' Hm].
  rewrite (search_hit _ _ _ _ _ _ Hm).
  unfold capture, group. reflexivity.
Qed.

Lemma bodyOf_manyItems k :
  bodyOf (manyItems k) = lit "\section{A}" ++ itemLines k.
Proof.
  unfold manyItems. rewrite bodyOf_wrapped.
  - apply trim_fixed.
    + eexists _, _. split; reflexivity.
    + intros h c E. destruct (itemLines_last k) as [z Hz]. rewrite Hz, app_assoc in E.
      apply app_inj_tail in E. destruct E as [_ <-]. reflexivity.
  - apply Sealed_app; [apply sealedb_Sealed; reflexivity|].
    apply itemLines_sealed; reflexivity.
Qed.

(** The one section of [manyItems k] has at least [k + 1] items. *)
Lemma itemCounts_manyItems k :
  exists n, itemCounts (bodyOf (manyItems k)) = [n] /\ k < n.
Proof.
  rewrite bodyOf_manyItems. unfold itemCounts, matchAll.
  set (body := lit "\section{A}" ++ itemLines k).
  assert (HM : Matchable [MkDesc false (lit "A") (itemLines k) []]).
  { cbn. repeat split; [discriminate|repeat constructor|].
    apply NoOcc_end. apply (Sealed_NoOcc SECTION); [apply noLF_SECTION|].
    apply itemLines_sealed; reflexivity. }
  pose proof (matchAll_Matchable [MkDesc false (lit "A") (itemLines k) []] []
                (S (length body)) HM) as HF.
  cbn [map concat app length] in HF. unfold d_raw in HF.
  cbn [d_star d_title d_content] in HF. rewrite app_nil_r in HF.
  change (header false (lit "A") ++ itemLines k) with body in HF.
  specialize (HF (Nat.lt_succ_diag_r _)).
  remember (matchAll_from (S (length body)) LatexParser.sectionRegex body 0) as found eqn:Ef.
  clear Ef. inversion HF as [|mt d0 ms ds (_ & _ & Hc) Hrest]; subst.
  inversion Hrest; subst. cbn [d_content] in Hc.
  cbn [map]. rewrite Hc, trim_itemLines. eexists. split; [reflexivity|].
  unfold itemMatches. rewrite !length_app.
  pose proof (matchAll_itemLines k [] (S (length (itemLines k))) (Nat.lt_succ_diag_r _))
    as Hk.
  cbn [app length] in Hk. fold (matchAll LatexParser.itemPattern (itemLines k)) in Hk.
  lia.
Qed.

(** C7: on the empty string the structural parser returns the defaults
    (document class "article", no packages, no chunks).  It does not return
    on every input: it returns exactly when no section has more items than
    the host accepts as the arguments of one call, and throws otherwise,
    since the items of a section are appended by one spread call.  A
    document with one section of more list items than that makes it
    throw. *)
Theorem parseLatexFile_throws_beyond_argument_limit
        (toLowerCase : jsstring -> jsstring) (maxArguments : N) :
  LatexParser.parseLatexFile toLowerCase maxArguments []
  = Some {| preamble := []; activeChunks := []; standbyChunks := [];
            documentClass := lit "article"; packages := [] |}
  /\ (forall content,
        (exists data, LatexParser.parseLatexFile toLowerCase maxArguments content = Some data)
        <-> withinLimit maxArguments (bodyOf content) = true)
  /\ LatexParser.parseLatexFile toLowerCase maxArguments (manyItems (N.to_nat maxArguments))
     = None.
Proof.
  split; [reflexivity|]. split.
  - intros content. rewrite parseLatexFile_spec.
    destruct (withinLimit maxArguments (bodyOf content)); cbn [whenAccepted].
    + split; eauto.
    + split; [intros [data H]; discriminate|discriminate].
  - rewrite parseLatexFile_spec. unfold withinLimit.
    destruct (itemCounts_manyItems (N.to_nat maxArguments)) as (n & -> & Hn).
    cbn [forallb]. replace (N.of_nat n <=? maxArguments)%N with false; [reflexivity|].
    symmetry. apply N.leb_gt. lia.
Qed.

(* ================================================================== *)
(** ** Parse, generate, parse again: the sections without items *)
(* ================================================================== *)

Lemma Forall2_Forall (A B : Type) (R : A -> B -> Prop) (P : A -> Prop) (Q : B -> Prop) :
  (forall a b, R a b -> P a -> Q b) ->
  forall l1 l2, Forall2 R l1 l2 -> Forall P l1 -> Forall Q l2.
Proof.
  intros H l1 l2 F. induction F as [|a b l1 l2 Hab F IH]; intros HP; [constructor|].
  inversion HP; subst. constructor; eauto.
Qed.

(** A chunk list without items comes from sections in whose content no
    item pattern matches, and the other way round. *)
Lemma sectionsFrom_sectionsOnly toLowerCase : forall ms k,
  Forall (fun c => type c = section) (sectionsFrom toLowerCase k ms) <->
  Forall (fun mt => itemMatches (trim (capture 2 mt)) = []) ms.
Proof.
  induction ms as [|mt ms IH]; intros k; cbn [sectionsFrom]; cbv zeta.
  - split; constructor.
  - split.
    + intros H. inversion H as [|? ? _ H']; subst. apply Forall_app in H'.
      destruct H' as [Hitems Hrest].
      assert (E : itemMatches (trim (capture 2 mt)) = []).
      { pose proof (itemsOf_type (trim (capture 2 mt)) (sectionId k)) as HT.
        pose proof (length_itemsOf (trim (capture 2 mt)) (sectionId k)) as HL.
        destruct (itemsOf (trim (capture 2 mt)) (sectionId k)) as [|it its].
        - destruct (itemMatches (trim (capture 2 mt))); [reflexivity|discriminate].
        - inversion HT; subst. inversion Hitems; subst. congruence. }
      constructor; [exact E|]. eapply IH. exact Hrest.
    + intros H. inversion H as [|? ? E H']; subst.
      constructor; [reflexivity|]. apply Forall_app. split.
      * unfold itemsOf. rewrite E. constructor.
      * apply IH. exact H'.
Qed.

Lemma withinLimit_sectionsOnly maxArguments body :
  Forall (fun mt => itemMatches (trim (capture 2 mt)) = [])
         (matchAll LatexParser.sectionRegex body) ->
  withinLimit maxArguments body = true.
Proof.
  intros H. unfold withinLimit, itemCounts. apply forallb_forall. intros k Hk.
  apply in_map_iff in Hk. destruct Hk as (mt & <- & Hmt).
  rewrite Forall_forall in H. rewrite (H mt Hmt). apply N.leb_le. cbn. lia.
Qed.

(** Where the sections have items, the generator writes each item a second
    time: the raw text of a section holds its items already, and the item
    chunks are written again after it.  Parsed again, the section is longer
    and has its item twice. *)
Lemma generator_writes_items_twice :
  exists doc doc',
    LatexParser.parseLatexFile asciiLower hostArguments
      (lit "\begin{document}\section{A}\item x\end{document}") = Some doc /\
    map (fun c => rawLatex (chunk c)) (activeChunks doc)
    = [lit "\section{A}\item x"; lit "\item x"] /\
    LatexGenerator.generateLatex doc
    = [LF; LF] ++ lit "\begin{document}" ++ [LF; LF]
      ++ lit "\section{A}\item x" ++ [LF] ++ lit "\item x" ++ [LF; LF]
      ++ lit "\end{document}" /\
    LatexParser.parseLatexFile asciiLower hostArguments (LatexGenerator.generateLatex doc)
    = Some doc' /\
    map (fun c => rawLatex (chunk c)) (activeChunks doc')
    = [lit "\section{A}\item x" ++ [LF] ++ lit "\item x";
       lit "\item x" ++ [LF]; lit "\item x"].
Proof.
  eexists. eexists. split; [vm_compute; reflexivity|].
  split; [reflexivity|]. split; [vm_compute; reflexivity|].
  split; [vm_compute; reflexivity|]. reflexivity.
Qed.

(** C1, amended: let the structural parser return a document for a source
    text.  Parsing the text generated from the document gives the same
    sections again, as many and in the same order, with the same titles; and
    every section without items has the same raw text up to trailing white
    space, and the same content.  (The second parse returns unless a section
    of the generated text has more items than the host accepts as the
    arguments of one call.)  When the document has no item at all, the
    second parse does return, and its result has no item either. *)
Theorem reparse_keeps_sections_up_to_trailing_space
        (toLowerCase : jsstring -> jsstring) (maxArguments : N)
        (source : jsstring) (doc : ResumeData) :
  LatexParser.parseLatexFile toLowerCase maxArguments source = Some doc ->
  exists doc',
    LatexParser.parseLatexFile toLowerCase maxArguments (LatexGenerator.generateLatex doc)
    = whenAccepted
        (withinLimit maxArguments (bodyOf (LatexGenerator.generateLatex doc))) doc' /\
    Forall2 (fun sec sec' =>
               title sec' = title sec /\
               (itemless doc sec ->
                trimEnd (rawLatex sec') = trimEnd (rawLatex sec) /\
                content sec' = content sec))
            (sectionsOfData doc) (sectionsOfData doc') /\
    (sectionsOnly doc ->
     withinLimit maxArguments (bodyOf (LatexGenerator.generateLatex doc)) = true /\
     sectionsOnly doc').
Proof.
  rewrite parseLatexFile_spec.
  destruct (withinLimit maxArguments (bodyOf source)); [|discriminate].
  intros E. injection E as <-. rewrite generateLatex_parsed.
  fold (parsedChunks toLowerCase source). fold (regenerated toLowerCase source).
  set (chunks := parsedChunks toLowerCase source).
  set (G := regenerated toLowerCase source).
  pose proof (reparse_sections toLowerCase source) as HR. fold chunks G in HR.
  assert (Hact : forall l,
             map chunk (mapi (fun chunk idx => MkResumeChunk chunk (Z.of_nat idx) true) l)
             = l).
  { intros l. unfold mapi. fold activate. apply map_chunk_activate. }
  rewrite parseLatexFile_spec. eexists. split; [reflexivity|]. split.
  - unfold sectionsOfData, itemless. cbn [activeChunks]. rewrite !Hact.
    eapply Forall2_weaken; [|exact HR]. cbv beta.
    intros sec sec' (Ht & Hr & Hc). split; [exact Ht|].
    intros Hno. split; [|exact (Hc Hno)].
    unfold blockOf in Hr. rewrite Hno in Hr.
    assert (Hsp : Forall (fun c => isSpace c = true) (glue [])) by (repeat constructor).
    destruct Hr as [-> | ->].
    + apply trimEnd_spaces. exact Hsp.
    + rewrite trimEnd_idem. apply trimEnd_spaces. exact Hsp.
  - intros Hall.
    assert (Hs : Forall (fun c => type c = section) chunks).
    { unfold sectionsOnly in Hall. cbn [activeChunks] in Hall.
      rewrite Forall_forall in *. intros c Hin.
      rewrite <- (Hact chunks) in Hin.
      apply in_map_iff in Hin. destruct Hin as (rc & <- & Hrc). auto. }
    assert (Hms' : Forall (fun mt => itemMatches (trim (capture 2 mt)) = [])
                          (matchAll LatexParser.sectionRegex (bodyOf G))).
    { pose proof (proj1 (sectionsFrom_sectionsOnly toLowerCase _ 0) Hs) as Hms.
      pose proof (sectionsFrom_sections toLowerCase
                    (matchAll LatexParser.sectionRegex (bodyOf source)) 0) as F1.
      pose proof (sectionsFrom_sections toLowerCase
                    (matchAll LatexParser.sectionRegex (bodyOf G)) 0) as F2.
      fold (parsedChunks toLowerCase source) in F1. fold chunks in F1.
      fold (parsedChunks toLowerCase G) in F2.
      assert (H1 : Forall (fun sec => itemMatches (content sec) = [])
                          (filter isSection chunks)).
      { refine (Forall2_Forall _ _ _ _ _ _ _ _ (Forall2_swap _ _ _ _ _ F1) Hms).
        cbv beta. intros mt sec (_ & _ & Hc) Hmt. now rewrite Hc. }
      assert (H2 : Forall (fun sec => itemMatches (content sec) = [])
                          (filter isSection (parsedChunks toLowerCase G))).
      { refine (Forall2_Forall _ _ _ _ _ _ _ _ HR H1). cbv beta.
        intros sec sec' (_ & _ & Hc) Hsec. rewrite Hc; [exact Hsec|].
        apply childTexts_sectionsOnly. exact Hs. }
      refine (Forall2_Forall _ _ _ _ _ _ _ _ F2 H2). cbv beta.
      intros sec mt (_ & _ & Hc) Hsec. now rewrite <- Hc. }
    split; [exact (withinLimit_sectionsOnly maxArguments (bodyOf G) Hms')|].
    unfold sectionsOnly. cbn [activeChunks]. apply Forall_forall. intros c Hc.
    unfold mapi in Hc. apply In_mapi_from in Hc. destruct Hc as (x & k & Hx & ->).
    cbn [chunk].
    pose proof (proj2 (sectionsFrom_sectionsOnly toLowerCase _ 0) Hms') as Hs'.
    rewrite Forall_forall in Hs'. exact (Hs' x Hx).
Qed.

(** C1 at a document of two sections without items: the document parsed
    again has the two sections, and the first has gained two line feeds. *)
Lemma reparse_keeps_sections_up_to_trailing_space_witness :
  exists doc doc',
    LatexParser.parseLatexFile asciiLower hostArguments
      (lit "\begin{document}\section{A}x\section{B}y\end{document}") = Some doc /\
    LatexParser.parseLatexFile asciiLower hostArguments (LatexGenerator.generateLatex doc)
    = Some doc' /\
    map rawLatex (sectionsOfData doc) = [lit "\section{A}x"; lit "\section{B}y"] /\
    map rawLatex (sectionsOfData doc')
    = [lit "\section{A}x" ++ [LF; LF]; lit "\section{B}y"] /\
    sectionsOnly doc'.
Proof.
  eexists.
  edestruct (reparse_keeps_sections_up_to_trailing_space asciiLower hostArguments
               (lit "\begin{document}\section{A}x\section{B}y\end{document}"))
    as (doc' & E & _ & H); [vm_compute; reflexivity|].
  destruct H as [Hw Hs]; [repeat constructor|].
  rewrite Hw in E. exists doc'. split; [reflexivity|]. split; [exact E|].
  split; [reflexivity|]. split; [|exact Hs].
  vm_compute in E. injection E as <-. reflexivity.
Defined.
(* ================================================================== *)
(** * Further properties *)
(* ================================================================== *)

(** ** The chunk registry: drag, toggle, delete *)
(* ================================================================== *)

(** X1: in a registry with unique ids, a drag of a chunk onto another chunk
    of the same list (both active or both standby) makes that list the old
    list with the dragged chunk moved by [arrayMove], renumbered from 0: the
    dragged chunk stands at the index the target had, the other chunks keep
    their relative order, and the orders of the list are 0, 1, 2, ... *)
Theorem drag_moves_chunk_to_target
        (chunks : list ResumeChunk) (a o : jsstring) (ac oc : ResumeChunk) :
  NoDup (map chunkId chunks) ->
  a <> o ->
  find (Editor.hasId a) chunks = Some ac ->
  find (Editor.hasId o) chunks = Some oc ->
  isActive ac = isActive oc ->
  let old := listOf (isActive ac) chunks in
  let new := listOf (isActive ac) (Editor.handleDragEnd chunks a (Some o)) in
  let to := Editor.findIndex (Editor.hasId o) old in
  new = renumber (Editor.arrayMove old (Editor.findIndex (Editor.hasId a) old) to) /\
  nth_error new (Z.to_nat to) = Some (Editor.withOrder ac to) /\
  map chunkId (filter (otherThan a) new) = map chunkId (filter (otherThan a) old) /\
  map order new = map Z.of_nat (seq 0 (length old)).
Proof.
  intros ND Hne Fa Fo Hs old new to.
  assert (Ba : inList (isActive ac) ac = true) by (unfold inList; destruct (isActive ac); reflexivity).
  assert (Bo : inList (isActive ac) oc = true) by (rewrite Hs; unfold inList; destruct (isActive oc); reflexivity).
  destruct (find_in_list (isActive ac) chunks a ac ND Fa Ba) as (ka & Na & _ & Ea).
  destruct (find_in_list (isActive ac) chunks o oc ND Fo Bo) as (ko & No & _ & Eo).
  fold old in Na, No, Ea, Eo.
  assert (Hko : ko < length old) by (apply nth_error_Some; congruence).
  unfold to. rewrite Ea, Eo, Nat2Z.id.
  set (R := Editor.arrayMove old (Z.of_nat ka) (Z.of_nat ko)).
  assert (Hnew : new = renumber R).
  { unfold new. rewrite (handleDragEnd_effect chunks a o ac oc Hne Fa Fo Hs).
    fold old. rewrite Ea, Eo. fold R. apply drag_list.
    - apply (NoDup_ids_perm old R); [apply arrayMove_perm|].
      now apply NoDup_ids_listOf.
    - eapply Permutation_trans; [apply sortByOrder_perm|].
      rewrite <- listOf_filter. apply arrayMove_perm. }
  set (w := firstn ka old ++ skipn (S ka) old).
  assert (HR : R = firstn ko w ++ ac :: skipn ko w)
    by (apply arrayMove_in_range; assumption).
  assert (Lw : length w = length old - 1).
  { unfold w. rewrite length_app, length_firstn, length_skipn.
    assert (ka < length old) by (apply nth_error_Some; congruence). lia. }
  assert (Hid : Editor.hasId a ac = true) by (apply (hasId_found a chunks ac Fa)).
  split; [exact Hnew|]. rewrite Hnew. split; [|split].
  - unfold renumber, mapi. rewrite nth_error_mapi_from, HR.
    rewrite nth_error_app2 by (rewrite length_firstn; lia).
    rewrite length_firstn, (Nat.min_l ko) by lia.
    now rewrite Nat.sub_diag.
  - unfold renumber, mapi.
    rewrite (map_filter_mapi _ _ _ (fun c k => Editor.withOrder c (Z.of_nat k))
               chunkId chunkId (otherThan a) (otherThan a))
      by reflexivity.
    f_equal. rewrite HR, filter_app. cbn [filter]. unfold otherThan at 2.
    rewrite Hid. cbn [negb]. rewrite <- filter_app, firstn_skipn.
    rewrite (nth_error_cut _ old ka ac Na) at 1.
    rewrite filter_app. cbn [filter]. unfold otherThan at 3.
    rewrite Hid. cbn [negb]. unfold w. now rewrite filter_app.
  - unfold renumber, mapi. rewrite map_order_renumber_from. f_equal. f_equal.
    symmetry. apply Permutation_length. apply arrayMove_perm.
Qed.

(** X1 at the initial registry of the editor: dragging chunk "1" onto chunk
    "3" gives the active list 2, 3, 1 with the orders 0, 1, 2. *)
Lemma drag_moves_chunk_to_target_witness :
  map chunkId (listOf true (Editor.handleDragEnd Editor.initialChunks (lit "1") (Some (lit "3"))))
  = [lit "2"; lit "3"; lit "1"] /\
  map order (listOf true (Editor.handleDragEnd Editor.initialChunks (lit "1") (Some (lit "3"))))
  = [0%Z; 1%Z; 2%Z].
Proof.
  assert (ND : NoDup (map chunkId Editor.initialChunks))
    by (vm_compute; repeat constructor; cbn; intuition discriminate).
  assert (Hne : lit "1" <> lit "3") by discriminate.
  pose proof (fun ac oc =>
                drag_moves_chunk_to_target Editor.initialChunks (lit "1") (lit "3") ac oc ND Hne)
    as H.
  specialize (H _ _ eq_refl eq_refl eq_refl). cbv zeta in H.
  destruct H as (H1 & _ & _ & H4). split.
  - change (isActive _) with true in H1. rewrite H1. vm_compute. reflexivity.
  - exact H4.
Defined.

(** X2: whatever is dragged onto whatever, a drag changes nothing but
    [order] fields: the registry keeps its chunks, at their places, with
    their contents and their [isActive] flags. *)
Theorem drag_changes_only_orders
        (chunks : list ResumeChunk) (active : jsstring) (over : option jsstring) :
  map chunk (Editor.handleDragEnd chunks active over) = map chunk chunks /\
  map isActive (Editor.handleDragEnd chunks active over) = map isActive chunks /\
  length (Editor.handleDragEnd chunks active over) = length chunks.
Proof.
  destruct (handleDragEnd_cases chunks active over) as [->|[reordered ->]].
  - repeat split.
  - rewrite !map_map, length_map. repeat split.
    + apply map_ext. intros c. apply reorderStep_fields.
    + apply map_ext. intros c. apply reorderStep_fields.
Qed.

(** X3: the drags without effect.  The registry stays as it is when the
    chunk is dropped outside any chunk or onto itself, when one of the two
    ids is not in the registry, and when the two chunks are not in the same
    list (one active, the other standby). *)
Theorem drag_without_effect (chunks : list ResumeChunk) (a : jsstring) :
  Editor.handleDragEnd chunks a None = chunks /\
  Editor.handleDragEnd chunks a (Some a) = chunks /\
  (forall o, find (Editor.hasId a) chunks = None ->
             Editor.handleDragEnd chunks a (Some o) = chunks) /\
  (forall o, find (Editor.hasId o) chunks = None ->
             Editor.handleDragEnd chunks a (Some o) = chunks) /\
  (forall o ac oc,
     find (Editor.hasId a) chunks = Some ac ->
     find (Editor.hasId o) chunks = Some oc ->
     isActive ac <> isActive oc ->
     Editor.handleDragEnd chunks a (Some o) = chunks).
Proof.
  repeat split.
  - unfold Editor.handleDragEnd. now rewrite str_eqb_same.
  - intros o F. now apply drag_absent.
  - intros o F. unfold Editor.handleDragEnd.
    destruct (str_eqb a o); [reflexivity|].
    destruct (find (Editor.hasId a) chunks); [|reflexivity]. now rewrite F.
  - intros o ac oc Fa Fo Hd. unfold Editor.handleDragEnd.
    destruct (str_eqb a o); [reflexivity|]. rewrite Fa, Fo.
    destruct (Bool.eqb (isActive ac) (isActive oc)) eqn:E; [|reflexivity].
    apply Bool.eqb_prop in E. contradiction.
Qed.

(** X4: in a registry with unique ids, toggling a chunk takes it out of its
    list and puts it into the other one, and disturbs neither list
    otherwise: the list it leaves is the old list without the chunk, and
    the list it joins is, the chunk apart, the old list. *)
Theorem toggle_moves_chunk_to_other_list
        (chunks : list ResumeChunk) (i : jsstring) (c : ResumeChunk) :
  NoDup (map chunkId chunks) ->
  find (Editor.hasId i) chunks = Some c ->
  let b := isActive c in
  listOf b (Editor.toggleChunkActive chunks i) = filter (otherThan i) (listOf b chunks) /\
  In (Editor.withActive c (negb b)) (listOf (negb b) (Editor.toggleChunkActive chunks i)) /\
  filter (otherThan i) (listOf (negb b) (Editor.toggleChunkActive chunks i))
  = listOf (negb b) chunks.
Proof.
  intros ND F b.
  pose proof (hasId_found i chunks c F) as Hic.
  assert (Hin : In c chunks) by (apply (find_hasId _ _ _ F)).
  assert (Hb : inList b c = true) by (unfold b, inList; destruct (isActive c); reflexivity).
  set (t := fun x => if Editor.hasId i x
                     then Editor.withActive x (negb (isActive x)) else x).
  change (Editor.toggleChunkActive chunks i) with (map t chunks).
  assert (Hid : forall x, Editor.hasId i (t x) = Editor.hasId i x).
  { intros x. unfold t. destruct (Editor.hasId i x) eqn:E; [|exact E]. exact E. }
  assert (Hfix : forall x, Editor.hasId i x = false -> t x = x).
  { intros x E. unfold t. now rewrite E. }
  assert (Htc : t c = Editor.withActive c (negb b)) by (unfold t; now rewrite Hic).
  split; [|split].
  - rewrite !listOf_filter, (filter_sortByOrder (otherThan i)). f_equal.
    rewrite filter_twice, filter_map_swap.
    rewrite <- (map_id (filter (fun x => otherThan i x && inList b x) chunks)).
    rewrite (filter_same _ (fun x => inList b (t x))
                         (fun x => otherThan i x && inList b x) chunks).
    + apply map_ext_in. intros x Hx. apply filter_In in Hx. destruct Hx as [_ Hx].
      apply andb_prop in Hx. destruct Hx as [Hx _]. apply Hfix.
      unfold otherThan in Hx. now destruct (Editor.hasId i x).
    + intros x Hx. unfold otherThan. destruct (Editor.hasId i x) eqn:E.
      * rewrite (hasId_only chunks i c x ND F Hx E), Htc. cbn [negb andb].
        unfold b, inList, Editor.withActive. cbn. destruct (isActive c); reflexivity.
      * now rewrite (Hfix x E).
  - rewrite listOf_filter. apply (Permutation_in _ (sortByOrder_perm _)).
    apply filter_In. split.
    + rewrite <- Htc. now apply in_map.
    + unfold b, inList, Editor.withActive. cbn. destruct (isActive c); reflexivity.
  - rewrite !listOf_filter, filter_sortByOrder. f_equal.
    rewrite filter_twice.
    rewrite (filter_map_fixed _ (fun x => otherThan i x && inList (negb b) x) t).
    + rewrite <- filter_twice. apply filter_all. intros x Hx.
      apply filter_In in Hx. destruct Hx as [Hx Hnb].
      unfold otherThan. destruct (Editor.hasId i x) eqn:E; [|reflexivity].
      rewrite (hasId_only chunks i c x ND F Hx E) in Hnb.
      rewrite inList_negb, Hb in Hnb. discriminate.
    + intros x Hx. unfold otherThan. rewrite Hid.
      destruct (Editor.hasId i x) eqn:E; cbn [negb andb].
      * split; [reflexivity|discriminate].
      * rewrite (Hfix x E). split; [reflexivity|reflexivity].
Qed.

(** X4 at the initial registry: toggling the active chunk "2" leaves the
    active list 1, 3. *)
Lemma toggle_moves_chunk_to_other_list_witness :
  map chunkId (listOf true (Editor.toggleChunkActive Editor.initialChunks (lit "2")))
  = [lit "1"; lit "3"].
Proof.
  assert (ND : NoDup (map chunkId Editor.initialChunks))
    by (vm_compute; repeat constructor; cbn; intuition discriminate).
  pose proof (fun c => toggle_moves_chunk_to_other_list Editor.initialChunks (lit "2") c ND) as H.
  specialize (H _ eq_refl). cbv zeta in H. destruct H as [H _].
  change (isActive _) with true in H. rewrite H. vm_compute. reflexivity.
Defined.

(** X5: deleting a chunk removes every chunk with that id and nothing else:
    no chunk with the id is left, each list is the old list without those
    chunks, the others in their order.  Deleting an id that is not in the
    registry changes nothing; so a second delete, a toggle or a drag of the
    deleted id has no effect. *)
Theorem delete_removes_exactly_that_id (chunks : list ResumeChunk) (i : jsstring) :
  find (Editor.hasId i) (Editor.deleteChunk chunks i) = None /\
  (forall b, listOf b (Editor.deleteChunk chunks i) = filter (otherThan i) (listOf b chunks)) /\
  (find (Editor.hasId i) chunks = None -> Editor.deleteChunk chunks i = chunks) /\
  Editor.deleteChunk (Editor.deleteChunk chunks i) i = Editor.deleteChunk chunks i /\
  Editor.toggleChunkActive (Editor.deleteChunk chunks i) i = Editor.deleteChunk chunks i /\
  (forall over,
     Editor.handleDragEnd (Editor.deleteChunk chunks i) i over = Editor.deleteChunk chunks i).
Proof.
  assert (Habs : forall l, find (Editor.hasId i) l = None -> Editor.deleteChunk l i = l).
  { intros l F. unfold Editor.deleteChunk. apply filter_all. intros x Hx.
    now rewrite (find_none_hasId i l x F Hx). }
  split; [apply find_deleteChunk|]. split; [|split; [apply Habs|split; [|split]]].
  - intros b. rewrite !listOf_filter, filter_sortByOrder. f_equal.
    unfold Editor.deleteChunk. rewrite !filter_twice. apply filter_same.
    intros x _. unfold otherThan. apply andb_comm.
  - apply Habs, find_deleteChunk.
  - apply toggle_absent, find_deleteChunk.
  - intros over. apply drag_absent, find_deleteChunk.
Qed.

(** ** The text the editor generates *)
(* ================================================================== *)

(** X6: the text the editor generates does not depend on the standby
    chunks.  In a registry with unique ids, deleting a standby chunk, or
    dragging it anywhere, leaves the generated text as it was. *)
Theorem generated_text_ignores_standby
        (chunks : list ResumeChunk) (preamble i : jsstring) (c : ResumeChunk) :
  NoDup (map chunkId chunks) ->
  find (Editor.hasId i) chunks = Some c ->
  isActive c = false ->
  Editor.generateLatex (Editor.deleteChunk chunks i) preamble
  = Editor.generateLatex chunks preamble /\
  (forall over,
     Editor.generateLatex (Editor.handleDragEnd chunks i over) preamble
     = Editor.generateLatex chunks preamble).
Proof.
  intros ND F Hc.
  assert (Hlist : forall chunks',
             filter isActive chunks' = filter isActive chunks ->
             Editor.generateLatex chunks' preamble = Editor.generateLatex chunks preamble).
  { intros chunks' E. rewrite !Editor_generateLatex_shape.
    unfold Editor.activeChunks. now rewrite E. }
  split.
  - apply Hlist. unfold Editor.deleteChunk. rewrite filter_twice.
    apply filter_same. intros x Hx.
    destruct (Editor.hasId i x) eqn:E; [|now rewrite andb_true_r].
    rewrite (hasId_only chunks i c x ND F Hx E), Hc. reflexivity.
  - intros over. apply Hlist.
    apply (drag_other_list true chunks i over c ND F). exact Hc.
Qed.

(** X6 at the initial registry, whose chunk "5" is on standby. *)
Lemma generated_text_ignores_standby_witness :
  Editor.generateLatex (Editor.deleteChunk Editor.initialChunks (lit "5")) (lit "\begin{document}")
  = Editor.generateLatex Editor.initialChunks (lit "\begin{document}").
Proof.
  assert (ND : NoDup (map chunkId Editor.initialChunks))
    by (vm_compute; repeat constructor; cbn; intuition discriminate).
  pose proof (fun c =>
                generated_text_ignores_standby Editor.initialChunks (lit "\begin{document}")
                  (lit "5") c ND) as H.
  specialize (H _ eq_refl eq_refl). exact (proj1 H).
Defined.

(** X7: the editor's own generator and the generator of the library agree
    on a registry whose active chunks are all sections without a parent,
    when the editor's preamble is the library's preamble followed by a
    blank line and [\begin{document}]: the editor relies on its preamble
    for the opening of the document, the library writes it itself. *)
Theorem editor_and_library_generators_agree
        (chunks standby : list ResumeChunk) (pre dc : jsstring) (pk : list jsstring) :
  (forall c, In c chunks -> isActive c = true ->
             type (chunk c) = section /\ parentId (chunk c) = None) ->
  Editor.generateLatex chunks (pre ++ [LF; LF] ++ BEGIN)
  = LatexGenerator.generateLatex
      {| preamble := pre; activeChunks := chunks;
         standbyChunks := standby; documentClass := dc; packages := pk |}.
Proof.
  intros H. rewrite Editor_generateLatex_shape, generateLatex_shape.
  cbv zeta. cbn [preamble activeChunks]. unfold Editor.activeChunks.
  set (sorted := sortByOrder (filter isActive chunks)).
  assert (Hs : forall c, In c sorted ->
                         type (chunk c) = section /\ parentId (chunk c) = None).
  { intros c Hc. unfold sorted in Hc. apply In_sortByOrder in Hc.
    apply filter_In in Hc. now apply H. }
  rewrite (filter_all _ (fun c => ChunkType_eqb (type (chunk c)) section) sorted)
    by (intros c Hc; now rewrite (proj1 (Hs c Hc))).
  rewrite <- !app_assoc. do 4 (apply f_equal).
  apply (f_equal (fun x => x ++ END)). apply f_equal. apply map_ext_in. intros sec _. unfold blockOfR.
  rewrite (filter_none _ _ sorted); [reflexivity|].
  intros c Hc. now rewrite (proj2 (Hs c Hc)).
Qed.

(** X7 at the initial registry, whose only item chunk is on standby. *)
Lemma editor_and_library_generators_agree_witness :
  Editor.generateLatex Editor.initialChunks (lit "\documentclass{article}" ++ [LF; LF] ++ BEGIN)
  = LatexGenerator.generateLatex
      {| preamble := lit "\documentclass{article}";
         activeChunks := Editor.initialChunks;
         standbyChunks := []; documentClass := lit "article"; packages := [] |}.
Proof.
  apply editor_and_library_generators_agree.
  intros c Hc Ha. cbn in Hc.
  repeat (destruct Hc as [<-|Hc]; [first [discriminate Ha | split; reflexivity]|]).
  destruct Hc.
Defined.

(** ** The structural parser *)
(* ================================================================== *)

(** X8: the document the structural parser returns is a well-formed
    registry: the chunk ids are pairwise different, the orders are 0, 1,
    2, ... in the order of the chunks, every chunk is active and there is no
    standby chunk.  (The parser returns unless a section has more items than
    the host accepts as the arguments of one call.) *)
Theorem parsed_registry_is_well_formed
        (toLowerCase : jsstring -> jsstring) (maxArguments : N) (content : jsstring) :
  exists doc,
    LatexParser.parseLatexFile toLowerCase maxArguments content
    = whenAccepted (withinLimit maxArguments (bodyOf content)) doc /\
    NoDup (map chunkId (activeChunks doc)) /\
    map order (activeChunks doc) = map Z.of_nat (seq 0 (length (activeChunks doc))) /\
    Forall (fun c => isActive c = true) (activeChunks doc) /\
    standbyChunks doc = [].
Proof.
  rewrite parseLatexFile_spec. eexists. split; [reflexivity|].
  cbn [activeChunks standbyChunks]. unfold mapi. repeat split.
  - rewrite (mapi_from_map _ _ _ _ chunkId id) by reflexivity.
    apply sectionsFrom_NoDup.
  - now rewrite map_order_activate, length_mapi_from.
  - apply Forall_forall. intros c Hc. apply In_mapi_from in Hc.
    destruct Hc as (x & k & _ & ->). reflexivity.
Qed.

(** X9: in the chunk list of the structural parser every chunk is a section
    or an item (never a subsection, also when it was found by the
    subsection pattern); a section has no parent; and every item belongs to
    a section of the list: its [parentId] is the id of that section, its raw
    text is a piece of that section's content and begins with [\subsection],
    [\item] or [\cventry], and its content is its raw text.  (The section
    scanner returns unless a section has more items than the host accepts as
    the arguments of one call.) *)
Theorem every_item_belongs_to_a_section
        (toLowerCase : jsstring -> jsstring) (maxArguments : N) (body : jsstring) :
  exists chunks,
    LatexParser.parseSections toLowerCase maxArguments body
    = whenAccepted (withinLimit maxArguments body) chunks /\
    Forall (fun c => type c = section \/ type c = item) chunks /\
    (forall sec, In sec chunks -> type sec = section -> parentId sec = None) /\
    (forall it, In it chunks -> type it = item ->
       exists sec,
         In sec chunks /\ type sec = section /\
         parentId it = Some (id sec) /\
         pieceOf (rawLatex it) (content sec) /\
         content it = rawLatex it /\
         (startsWith (lit "\subsection") (rawLatex it) = true \/
          startsWith (lit "\item") (rawLatex it) = true \/
          startsWith (lit "\cventry") (rawLatex it) = true)).
Proof.
  rewrite parseSections_spec. eexists. split; [reflexivity|].
  split; [apply sectionsFrom_types|]. split; [apply sectionsFrom_parent|].
  intros it Hit Ht. destruct (sectionsFrom_item _ _ _ _ Hit Ht) as (sec & Hsec & Hs & Hin).
  exists sec. split; [exact Hsec|]. split; [exact Hs|].
  destruct (itemsOf_piece _ _ _ Hin) as [Hp Hpar].
  split; [exact Hpar|]. split; [exact Hp|].
  unfold itemsOf, mapi in Hin. apply In_mapi_from in Hin.
  destruct Hin as (mt & k & Hmt & ->). split; [reflexivity|].
  cbn [rawLatex itemOf]. now apply (itemMatches_literal (content sec)).
Qed.

(** X10: a body in which [\section] does not occur gives no chunk at all,
    whatever else it holds: items and subsections outside a section are not
    found. *)
Theorem body_without_section_gives_no_chunk
        (toLowerCase : jsstring -> jsstring) (maxArguments : N) (body : jsstring) :
  includes (lit "\section") body = false ->
  LatexParser.parseSections toLowerCase maxArguments body = Some [].
Proof.
  intros H. rewrite parseSections_spec. unfold withinLimit, itemCounts.
  rewrite matchAll_none; [reflexivity|].
  intros i. apply exec_literal_none. now apply NoOcc_includes.
Qed.

(** X10 at a body with two list items and no section. *)
Lemma body_without_section_gives_no_chunk_witness :
  LatexParser.parseSections asciiLower hostArguments
    (lit "\begin{itemize}\item one \item two\end{itemize}") = Some [].
Proof.
  apply body_without_section_gives_no_chunk. vm_compute. reflexivity.
Defined.

(** X11: a file in which [\begin{document}] does not occur parses to the
    empty document with the defaults, whatever it declares: the document
    class and the packages are only read from the text before
    [\begin{document}].  A file in which [\end{document}] does not occur
    has no chunks. *)
Theorem file_without_document_environment
        (toLowerCase : jsstring -> jsstring) (maxArguments : N) (content : jsstring) :
  (includes (lit "\begin{document}") content = false ->
   LatexParser.parseLatexFile toLowerCase maxArguments content
   = Some {| preamble := []; activeChunks := []; standbyChunks := [];
             documentClass := lit "article"; packages := [] |}) /\
  (includes (lit "\end{document}") content = false ->
   exists doc,
     LatexParser.parseLatexFile toLowerCase maxArguments content = Some doc /\
     activeChunks doc = []).
Proof.
  split; intros H; apply NoOcc_includes in H; rewrite parseLatexFile_spec.
  - unfold preambleOf, bodyOf.
    rewrite (preambleRegex_none content H), (bodyRegex_none content (or_introl H)).
    reflexivity.
  - unfold bodyOf. rewrite (bodyRegex_none content (or_intror H)).
    eexists. split; reflexivity.
Qed.

(** X12: the anatomy of a section chunk.  Its raw text is a piece of the
    body and reads [\section], an optional star, the title in braces, and a
    rest in which [\section] does not occur; the title is not empty and has
    no closing brace; the content is that rest, trimmed; the only tag is the
    title in lower case.  (The section scanner returns unless a section has
    more items than the host accepts as the arguments of one call.) *)
Theorem section_chunk_anatomy
        (toLowerCase : jsstring -> jsstring) (maxArguments : N) (body : jsstring) :
  exists chunks,
    LatexParser.parseSections toLowerCase maxArguments body
    = whenAccepted (withinLimit maxArguments body) chunks /\
    forall sec, In sec chunks -> type sec = section ->
      exists star rest,
        rawLatex sec = header star (title sec) ++ rest /\
        pieceOf (rawLatex sec) body /\
        title sec <> [] /\ ~ In (ch "}") (title sec) /\
        NoOcc (lit "\section") rest /\
        content sec = trim rest /\
        tags sec = Some [toLowerCase (title sec)].
Proof.
  rewrite parseSections_spec. eexists. split; [reflexivity|].
  intros sec Hs Ht. destruct (sectionsFrom_section _ _ _ _ Hs Ht) as (mt & k & Hmt & ->).
  destruct (matchAll_section_facts _ _ Hmt)
    as (star & t & c & Htext & Ht1 & Hc2 & Hne & Hnb & Hno & Hp).
  exists star, c. cbn [rawLatex title content tags sectionOf].
  rewrite Ht1, Hc2. repeat split; auto.
  now apply notBrace_Forall.
Qed.

(** X13: what the parsed document never holds.  [\begin{document}] does
    not occur in the preamble, [\end{document}] occurs neither in the raw
    text nor in the content of any chunk, and no chunk is a subsection.
    (The parser returns unless a section has more items than the host
    accepts as the arguments of one call.) *)
Theorem delimiters_stay_out_of_the_result
        (toLowerCase : jsstring -> jsstring) (maxArguments : N) (content0 : jsstring) :
  exists doc,
    LatexParser.parseLatexFile toLowerCase maxArguments content0
    = whenAccepted (withinLimit maxArguments (bodyOf content0)) doc /\
    NoOcc (lit "\begin{document}") (preamble doc) /\
    forall c, In c (activeChunks doc) ->
      NoOcc (lit "\end{document}") (rawLatex (chunk c)) /\
      NoOcc (lit "\end{document}") (content (chunk c)) /\
      type (chunk c) <> subsection.
Proof.
  rewrite parseLatexFile_spec. eexists. split; [reflexivity|].
  cbn [preamble activeChunks]. split; [apply preambleOf_clean|].
  intros c Hc. apply In_mapi_from in Hc. destruct Hc as (x & k & Hx & ->).
  cbn [chunk]. destruct (sectionsFrom_pieces _ _ _ Hx) as [Hr Hcn].
  pose proof (bodyOf_clean content0) as HB.
  split; [exact (NoOcc_piece _ _ _ Hr HB)|]. split; [exact (NoOcc_piece _ _ _ Hcn HB)|].
  pose proof (sectionsFrom_types toLowerCase
                (matchAll LatexParser.sectionRegex (bodyOf content0)) 0) as HT.
  rewrite Forall_forall in HT. destruct (HT x Hx); congruence.
Qed.

(** X14: for every source text, generating the parsed document and parsing
    it again gives the same preamble, the same document class and the same
    packages.  (Each of the two parses returns unless a section of its input
    has more items than the host accepts as the arguments of one call.) *)
Theorem reparse_keeps_preamble_class_and_packages
        (toLowerCase : jsstring -> jsstring) (maxArguments : N) (content : jsstring) :
  exists doc doc',
    LatexParser.parseLatexFile toLowerCase maxArguments content
    = whenAccepted (withinLimit maxArguments (bodyOf content)) doc /\
    LatexParser.parseLatexFile toLowerCase maxArguments (LatexGenerator.generateLatex doc)
    = whenAccepted
        (withinLimit maxArguments (bodyOf (LatexGenerator.generateLatex doc))) doc' /\
    preamble doc' = preamble doc /\
    documentClass doc' = documentClass doc /\
    packages doc' = packages doc.
Proof.
  rewrite parseLatexFile_spec. eexists. eexists. split; [reflexivity|].
  rewrite parseLatexFile_spec. split; [reflexivity|].
  cbn [preamble documentClass packages].
  assert (E : preambleOf
                (LatexGenerator.generateLatex
                   {| preamble := preambleOf content;
                      activeChunks :=
                        mapi (fun chunk idx => MkResumeChunk chunk (Z.of_nat idx) true)
                             (sectionsFrom toLowerCase 0
                                (matchAll LatexParser.sectionRegex (bodyOf content)));
                      standbyChunks := [];
                      documentClass := documentClassOf (preambleOf content);
                      packages := packagesOf (preambleOf content) |})
              = preambleOf content).
  { rewrite generateLatex_parsed.
    rewrite preambleOf_generated by apply preambleOf_clean.
    destruct (preambleOf_trimmed content) as [y ->].
    apply trim_trim_spaces. repeat constructor. }
  now rewrite E.
Qed.

(** ** The heuristic segmenter *)
(* ================================================================== *)

(** X15: how the segmenter cuts a text.  Let the trimmed, non-empty lines
    of the text be some lines that are no headers, followed by segments,
    each a header line and the lines up to the next header.  Then the lines
    before the first header are dropped, every segment with at least one
    line under its header gives one chunk (made by [createChunk] of the
    header, the lines and the running number), a header with no line under
    it gives nothing, and when no chunk results the fallback chunk is
    returned. *)
Theorem segmenter_cuts_at_headers
        (toLowerCase toUpperCase : jsstring -> jsstring)
        (text : jsstring) (pre : list jsstring) (segs : list Segment) :
  PdfParser.textLines text = pre ++ flat_map segmentLines segs ->
  (forall line, In line pre -> PdfParser.isHeader line = false) ->
  Forall goodSegment segs ->
  PdfParser.parseTextToChunks toLowerCase toUpperCase text
  = match segmentChunks toLowerCase toUpperCase segs with
    | [] => [fallbackChunk text]
    | c :: cs => c :: cs
    end.
Proof.
  intros Hlines Hpre Hgood.
  assert (Hne : Forall (fun s => nonEmpty (fst s) = true) segs).
  { apply Forall_forall. intros s Hs. apply (textLines_nonEmpty text).
    rewrite Hlines. apply in_or_app. right. apply in_flat_map.
    exists s. split; [exact Hs|now left]. }
  unfold PdfParser.parseTextToChunks. cbv zeta. rewrite Hlines.
  rewrite (segmenter_loop toLowerCase toUpperCase pre segs Hpre Hne Hgood).
  destruct (segmentChunks toLowerCase toUpperCase segs); reflexivity.
Qed.

(** X15 at a text with a name line, a header with two lines under it, a
    header with nothing under it and a header with one line: two chunks. *)
Lemma segmenter_cuts_at_headers_witness :
  map title
    (PdfParser.parseTextToChunks asciiLower asciiUpper
       (lit "Jane Roe" ++ [LF] ++ lit "EXPERIENCE" ++ [LF] ++ lit "Acme 2020" ++ [LF]
        ++ lit "- built things" ++ [LF] ++ lit "Education" ++ [LF]
        ++ lit "Skills:" ++ [LF] ++ lit "Rocq"))
  = [lit "Experience"; lit "Skills"].
Proof.
  rewrite (segmenter_cuts_at_headers asciiLower asciiUpper _
             [lit "Jane Roe"]
             [(lit "EXPERIENCE", [lit "Acme 2020"; lit "- built things"]);
              (lit "Education", []);
              (lit "Skills:", [lit "Rocq"])]).
  - vm_compute. reflexivity.
  - vm_compute. reflexivity.
  - intros line [<-|[]]. vm_compute. reflexivity.
  - repeat constructor; cbn [snd fst];
      try (vm_compute; reflexivity);
      intros line Hl; cbn in Hl;
      repeat (destruct Hl as [<-|Hl]; [vm_compute; reflexivity|]); destruct Hl.
Defined.

(** X16: the segmenter always returns at least one chunk; its chunks are
    sections without parent and without metadata, and their ids are
    section-0, section-1, ... in the order of the list. *)
Theorem segmenter_returns_numbered_sections
        (toLowerCase toUpperCase : jsstring -> jsstring) (text : jsstring) :
  let chunks := PdfParser.parseTextToChunks toLowerCase toUpperCase text in
  chunks <> [] /\
  map id chunks = map sectionId (seq 0 (length chunks)) /\
  Forall (fun c => type c = section /\ parentId c = None /\ metadata c = None) chunks.
Proof.
  cbv zeta. unfold PdfParser.parseTextToChunks. cbv zeta.
  set (st := PdfParser.flush toLowerCase toUpperCase
               (fold_left (PdfParser.segStep toLowerCase toUpperCase)
                          (PdfParser.textLines text) (PdfParser.MkSegState [] None [] 0))).
  assert (Hok : SegOk st).
  { apply flush_ok, fold_segStep_ok. repeat split. constructor. }
  destruct Hok as (_ & Hids & Hall).
  destruct (PdfParser.chunks st) as [|c cs] eqn:E; cbn [length Nat.eqb app].
  - split; [discriminate|]. split; [reflexivity|]. now repeat constructor.
  - split; [discriminate|]. now split.
Qed.

(** X17: which lines the segmenter takes for headers.  A line is a header
    exactly when one of the keywords of the ten patterns stands, in any
    letter case, at the start of the line or right after a line terminator
    inside it.  What follows the keyword does not matter: a line that
    begins with a keyword is a header whatever comes after it. *)
Theorem header_lines_are_keyword_lines (line : jsstring) :
  (PdfParser.isHeader line = true <-> keywordAtLineStart line) /\
  (forall ks k s rest,
     In ks headerKeywords -> In k ks -> line = s ++ rest -> sameLetters s (lit k) ->
     PdfParser.isHeader line = true).
Proof.
  assert (Hiff : PdfParser.isHeader line = true <-> keywordAtLineStart line).
  { unfold PdfParser.isHeader, keywordAtLineStart.
    rewrite sectionPatterns_keywords, existsb_exists. split.
    - intros (P & HP & Ht). apply in_map_iff in HP. destruct HP as (ks & <- & Hks).
      apply test_some in Ht. destruct Ht as (u & s1 & Hl & Hm).
      apply headerPattern_some in Hm. destruct Hm as (Hb & k & s0 & rest & Hk & Hs & Hsame).
      apply atBol_lineStart in Hb.
      exists ks, k, u, s0, rest. subst s1. now repeat split.
    - intros (ks & k & u & s & rest & Hks & Hk & Hl & Hu & Hsame).
      exists (headerPattern ks). split; [now apply in_map|].
      apply test_some. exists u, (s ++ rest). split; [exact Hl|].
      apply headerPattern_some. split; [now apply atBol_lineStart|].
      now exists k, s, rest. }
  split; [exact Hiff|].
  intros ks k s rest Hks Hk Hl Hsame. apply Hiff.
  exists ks, k, [], s, rest. repeat split; auto. now left.
Qed.

(** X18: escaping loses no information and never shortens a text: two
    texts with the same escaped form are the same text, and a text is left
    as it is exactly when it holds none of the ten characters (backslash,
    [& % $ # _ { }], [~], [^]). *)
Theorem escaping_loses_no_information :
  (forall a b, PdfParser.escapeLatex a = PdfParser.escapeLatex b -> a = b) /\
  (forall text, length text <= length (PdfParser.escapeLatex text)) /\
  (forall text, PdfParser.escapeLatex text = text <-> existsb needsEscape text = false).
Proof.
  split; [exact escapeLatex_inj|]. split; [intros; apply escapeLatex_length|].
  intros text. split; [|apply escapeLatex_plain].
  intros E. destruct (existsb needsEscape text) eqn:X; [|reflexivity].
  pose proof (proj2 (escapeLatex_length text) X) as L. rewrite E in L. lia.
Qed.

(** X19: [convertToLatex] writes one line, ended by a line feed, for every
    non-empty line of its input, and [\section] never occurs in what it
    writes. *)
Theorem convertToLatex_line_by_line (text : jsstring) :
  (exists bodies,
     PdfParser.convertToLatex text = concat (map (fun b => b ++ [LF]) bodies) /\
     length bodies = length (filter nonEmpty (split LF text)) /\
     Forall (fun b => ~ In LF b) bodies) /\
  NoOcc (lit "\section") (PdfParser.convertToLatex text).
Proof.
  split.
  - rewrite convertToLatex_concat. apply convertLines_lines.
    intros line Hl. apply filter_In in Hl. destruct Hl as [Hl _].
    now apply split_no_sep in Hl.
  - apply (Sealed_NoOcc SECTION); [apply noLF_SECTION|apply convertToLatex_sealed].
Qed.



(** ** PDF import and file upload *)
(* ================================================================== *)

(** X21: the segmenter sees a PDF page by page.  When no text item holds a
    line feed, every page is one line of the extracted text, so the lines
    the segmenter works on are the trimmed, non-empty page texts.  In
    particular such a PDF of at most one page always gives the single
    fallback chunk, whatever the page holds. *)
Theorem pdf_pages_are_lines
        (toLowerCase toUpperCase : jsstring -> jsstring) (pages : list (list jsstring)) :
  (forall items s, In items pages -> In s items -> ~ In LF s) ->
  PdfParser.textLines (PdfParser.extractTextFromPdf pages)
  = filter nonEmpty (map (fun items => trim (join (lit " ") items)) pages) /\
  (length pages <= 1 ->
   PdfParser.parsePdfToChunks toLowerCase toUpperCase pages
   = ([fallbackChunk (PdfParser.extractTextFromPdf pages)], PdfParser.defaultPreamble)).
Proof.
  intros H.
  assert (Hlines : PdfParser.textLines (PdfParser.extractTextFromPdf pages)
                   = filter nonEmpty (map (fun items => trim (join (lit " ") items)) pages)).
  { rewrite extractTextFromPdf_concat.
    rewrite <- (map_map (join (lit " ")) (fun l => l ++ [LF; LF])).
    rewrite textLines_blocks, map_map; [reflexivity|].
    intros l Hl Hin. apply in_map_iff in Hl. destruct Hl as (items & <- & Hitems).
    apply In_join in Hin. destruct Hin as [Hin|(s & Hs & Hin)].
    - vm_compute in Hin. intuition discriminate.
    - exact (H items s Hitems Hs Hin). }
  split; [exact Hlines|].
  intros Hlen. unfold PdfParser.parsePdfToChunks. cbv zeta. f_equal.
  destruct pages as [|items [|items' pages]]; [| |cbn in Hlen; lia].
  - reflexivity.
  - apply (one_line_fallback _ _ _ (trim (join (lit " ") items))).
    rewrite Hlines. cbn [map filter].
    destruct (nonEmpty (trim (join (lit " ") items))); [now right|now left].
Qed.

(** X21 at a page that holds two headers and their lines: still only the
    fallback chunk. *)
Lemma pdf_pages_are_lines_witness :
  map title
    (fst (PdfParser.parsePdfToChunks asciiLower asciiUpper
            [[lit "EXPERIENCE"; lit "Acme 2020"; lit "EDUCATION"; lit "MIT"]]))
  = [lit "Resume Content"].
Proof.
  destruct (pdf_pages_are_lines asciiLower asciiUpper
              [[lit "EXPERIENCE"; lit "Acme 2020"; lit "EDUCATION"; lit "MIT"]])
    as [_ H].
  - intros items s [<-|[]] Hs. cbn in Hs.
    repeat (destruct Hs as [<-|Hs]; [vm_compute; intuition discriminate|]). destruct Hs.
  - rewrite H; [reflexivity|]. cbn. lia.
Defined.


(** X23: a LaTeX file that is uploaded and generated again by the editor
    has lost the opening of its document.  The stored preamble is the text
    before [\begin{document}], and the editor's generator writes the
    preamble, the chunks and [\end{document}]; so, unless the raw text of a
    chunk holds [\begin{document}], the generated text holds none, and the
    structural parser finds nothing at all in it.  (The upload is stored
    unless a section of the file has more items than the host accepts as the
    arguments of one call.) *)
Theorem uploaded_tex_loses_document_opening
        (toLowerCase toUpperCase : jsstring -> jsstring) (maxArguments : N)
        (file : Editor.File) :
  Editor.fileExtension toLowerCase (Editor.name file) = lit "tex" ->
  exists chunks pre,
    Editor.handleFileUpload toLowerCase toUpperCase maxArguments file
    = whenAccepted (withinLimit maxArguments (bodyOf (Editor.text file))) (chunks, pre) /\
    includes (lit "\begin{document}") pre = false /\
    ((forall c, In c chunks -> includes (lit "\begin{document}") (rawLatex (chunk c)) = false) ->
     includes (lit "\begin{document}") (Editor.generateLatex chunks pre) = false /\
     LatexParser.parseLatexFile toLowerCase maxArguments (Editor.generateLatex chunks pre)
     = Some {| preamble := []; activeChunks := []; standbyChunks := [];
               documentClass := lit "article"; packages := [] |}).
Proof.
  intros Hext. rewrite handleFileUpload_cases, Hext.
  change (str_eqb (lit "tex") (lit "pdf")) with false.
  change (str_eqb (lit "tex") (lit "tex")) with true. cbn iota.
  eexists. eexists. split; [reflexivity|].
  split; [apply includes_NoOcc, preambleOf_clean|].
  set (chunks := mapi (fun c k => Editor.storedChunk c (Z.of_nat k))
                      (parsedChunks toLowerCase (Editor.text file))).
  intros Hraw.
  assert (HN : NoOcc BEGIN (Editor.generateLatex chunks (preambleOf (Editor.text file)))).
  { rewrite Editor_generateLatex_shape.
    apply (Sealed_NoOcc BEGIN); [apply noLF_BEGIN|].
    change [LF; LF] with ([LF] ++ [LF]) at 1. rewrite !app_assoc.
    apply Sealed_app; [apply Sealed_app; [apply Sealed_app|]|].
    - apply NoOcc_Sealed; [apply noLF_BEGIN|apply preambleOf_clean].
    - apply Sealed_LF, noLF_BEGIN.
    - apply Sealed_concat. apply Forall_forall. intros x Hx.
      apply in_map_iff in Hx. destruct Hx as (c & <- & Hc).
      change [LF; LF] with ([LF] ++ [LF]). rewrite app_assoc.
      apply Sealed_app; [|apply Sealed_LF, noLF_BEGIN].
      apply NoOcc_Sealed; [apply noLF_BEGIN|]. apply NoOcc_includes, Hraw.
      unfold Editor.activeChunks in Hc. apply In_sortByOrder in Hc.
      now apply filter_In in Hc.
    - apply sealedb_Sealed. vm_compute. reflexivity. }
  split; [now apply includes_NoOcc|].
  rewrite parseLatexFile_spec.
  set (G := Editor.generateLatex chunks (preambleOf (Editor.text file))) in *.
  unfold preambleOf, bodyOf.
  rewrite (preambleRegex_none G HN), (bodyRegex_none G (or_introl HN)). reflexivity.
Qed.

(** X23 at a small file with one section: the upload stores the section,
    and the text generated from it parses to the empty document. *)
Lemma uploaded_tex_loses_document_opening_witness :
  exists chunks pre,
    Editor.handleFileUpload asciiLower asciiUpper hostArguments
      (Editor.MkFile (lit "cv.TeX")
         (lit "\documentclass{article}\begin{document}\section{A}x\end{document}") None)
    = Some (chunks, pre) /\
    map (fun c => title (chunk c)) chunks = [lit "A"] /\
    LatexParser.parseLatexFile asciiLower hostArguments (Editor.generateLatex chunks pre)
    = Some {| preamble := []; activeChunks := []; standbyChunks := [];
              documentClass := lit "article"; packages := [] |}.
Proof.
  destruct (uploaded_tex_loses_document_opening asciiLower asciiUpper hostArguments
              (Editor.MkFile (lit "cv.TeX")
                 (lit "\documentclass{article}\begin{document}\section{A}x\end{document}") None))
    as (chunks & pre & E & _ & H).
  - vm_compute. reflexivity.
  - exists chunks, pre. split; [exact E|].
    vm_compute in E. injection E as <- <-. split; [reflexivity|].
    apply H. intros c [<-|[]]. vm_compute. reflexivity.
Defined.

(** ** The metadata of an item *)
(* ================================================================== *)

(** X24: where the metadata of an item comes from.  The dates, when there
    are any, are the inside of a braced group of the item's text that has no
    closing brace in it and holds four digits in a row; the company, when
    there is one, is the non-empty inside of a [\textbf{...}] of the text,
    up to the first closing brace.  A text without an opening brace has
    neither. *)
Theorem metadata_fields_come_from_the_text (latex : jsstring) :
  (forall d, dates (LatexParser.extractMetadata latex) = Some d ->
     pieceOf (ch "{" :: d ++ [ch "}"]) latex /\
     ~ In (ch "}") d /\
     exists a y b, d = a ++ y ++ b /\ length y = 4 /\ Forall (fun x => isDigit x = true) y) /\
  (forall c, company (LatexParser.extractMetadata latex) = Some c ->
     pieceOf (lit "\textbf{" ++ c ++ [ch "}"]) latex /\
     c <> [] /\ ~ In (ch "}") c) /\
  (includes (lit "{") latex = false ->
   dates (LatexParser.extractMetadata latex) = None /\
   company (LatexParser.extractMetadata latex) = None).
Proof.
  split; [|split].
  - intros d Hd.
    destruct (dates_inv latex d Hd) as (a & y & b & u & r & Hl & -> & Ha & Hy & Hyd & Hb).
    split; [now exists u, r|]. split; [|now exists a, y, b].
    apply notBrace_Forall. apply Forall_app. split; [exact Ha|].
    apply Forall_app. split; [|exact Hb].
    eapply Forall_impl; [|exact Hyd]. apply digit_notBrace.
  - intros c Hc. destruct (company_inv latex c Hc) as (u & r & Hl & Hne & Hb).
    split; [now exists u, r|]. split; [exact Hne|now apply notBrace_Forall].
  - intros H. apply NoOcc_includes in H. split.
    + destruct (dates (LatexParser.extractMetadata latex)) as [d|] eqn:E; [|reflexivity].
      destruct (dates_inv latex d E) as (a & y & b & u & r & Hl & _).
      exfalso. apply (NoOcc_inside (lit "{") latex u (d ++ [ch "}"] ++ r) H).
      rewrite Hl. cbn [app]. now rewrite <- !app_assoc.
    + destruct (company (LatexParser.extractMetadata latex)) as [c|] eqn:E; [|reflexivity].
      destruct (company_inv latex c E) as (u & r & Hl & _).
      exfalso. apply (NoOcc_inside (lit "{") latex (u ++ lit "\textbf") (c ++ [ch "}"] ++ r) H).
      rewrite Hl. change (lit "\textbf{") with (lit "\textbf" ++ lit "{").
      now rewrite <- !app_assoc.
Qed.

(** ** Orders and array positions *)
(* ================================================================== *)

(** X25: the generated text depends on the [order] fields, not on the
    places of the chunks in the array.  When the active chunks have
    pairwise different orders, rearranging the array changes neither the
    text of the editor's generator nor the text of the library's. *)
Theorem generated_text_depends_on_orders_only
        (chunks chunks' standby : list ResumeChunk) (pre dc : jsstring) (pk : list jsstring) :
  Permutation chunks chunks' ->
  NoDup (map order (filter isActive chunks)) ->
  Editor.generateLatex chunks pre = Editor.generateLatex chunks' pre /\
  LatexGenerator.generateLatex
    {| preamble := pre; activeChunks := chunks; standbyChunks := standby;
       documentClass := dc; packages := pk |}
  = LatexGenerator.generateLatex
      {| preamble := pre; activeChunks := chunks'; standbyChunks := standby;
         documentClass := dc; packages := pk |}.
Proof.
  intros HP ND. pose proof (sorted_active_perm chunks chunks' HP ND) as E. split.
  - rewrite !Editor_generateLatex_shape. unfold Editor.activeChunks. now rewrite E.
  - rewrite !generateLatex_shape. cbv zeta. cbn [preamble activeChunks]. now rewrite E.
Qed.

(** X25 at the initial registry, reversed. *)
Lemma generated_text_depends_on_orders_only_witness :
  Editor.generateLatex Editor.initialChunks (lit "\begin{document}")
  = Editor.generateLatex (rev Editor.initialChunks) (lit "\begin{document}").
Proof.
  apply (generated_text_depends_on_orders_only
           Editor.initialChunks (rev Editor.initialChunks) [] (lit "\begin{document}") [] []).
  - apply Permutation_rev.
  - vm_compute. repeat constructor; cbn; intuition discriminate.
Defined.

(** ** Sections in the body *)
(* ================================================================== *)

(** X26: the raw texts of the section chunks are pieces of the body that
    follow one another in the order of the chunk list, without overlap: no
    text belongs to two sections, and the sections come in document
    order.  (The section scanner returns unless a section has more items
    than the host accepts as the arguments of one call.) *)
Theorem sections_follow_one_another
        (toLowerCase : jsstring -> jsstring) (maxArguments : N) (body : jsstring) :
  exists chunks,
    LatexParser.parseSections toLowerCase maxArguments body
    = whenAccepted (withinLimit maxArguments body) chunks /\
    OneAfterAnother (map rawLatex (filter isSection chunks)) body.
Proof.
  rewrite parseSections_spec. eexists. split; [reflexivity|].
  rewrite (Forall2_map_eq _ _ _ rawLatex m_text
             (filter isSection
                (sectionsFrom toLowerCase 0 (matchAll LatexParser.sectionRegex body)))
             (matchAll LatexParser.sectionRegex body)).
  - apply (matchAll_from_in_order LatexParser.sectionRegex body (S (length body)) 0).
  - eapply Forall2_weaken; [|apply sectionsFrom_sections]. intros a b [E _]. exact E.
Qed.

(** ** The document class and the packages *)
(* ================================================================== *)

(** X27: the document class is the default "article" or the braced name
    that follows a [\documentclass] of the preamble, and every package is
    the braced name that follows a [\usepackage] of the preamble.  Such a
    name holds no closing brace and no line terminator (so
    [\usepackage{a,b}] is one package, "a,b"), and the bracketed options
    before it, if any, are on one line.  A preamble without
    [\documentclass] has the default class, one without [\usepackage] has
    no packages.  (The parser returns unless a section has more items than
    the host accepts as the arguments of one call.) *)
Theorem class_and_packages_are_braced_names
        (toLowerCase : jsstring -> jsstring) (maxArguments : N) (content : jsstring) :
  exists doc,
    LatexParser.parseLatexFile toLowerCase maxArguments content
    = whenAccepted (withinLimit maxArguments (bodyOf content)) doc /\
    (documentClass doc = lit "article" \/
     bracedName (documentClass doc) (lit "\documentclass") (preamble doc)) /\
    (includes (lit "\documentclass") (preamble doc) = false ->
     documentClass doc = lit "article") /\
    Forall (fun p => bracedName p (lit "\usepackage") (preamble doc)) (packages doc) /\
    (includes (lit "\usepackage") (preamble doc) = false -> packages doc = []).
Proof.
  rewrite parseLatexFile_spec. eexists. split; [reflexivity|].
  cbn [documentClass preamble packages].
  set (P := preambleOf content). split; [|split; [|split]].
  - unfold documentClassOf, str_match.
    destruct (exec LatexParser.docClassRegex P 0) as [mt|] eqn:E; [|now left].
    right. now apply exec_bracedName in E.
  - intros H. apply NoOcc_includes in H. unfold documentClassOf, str_match.
    unfold LatexParser.docClassRegex. now rewrite exec_literal_none.
  - unfold packagesOf. apply Forall_forall. intros p Hp.
    apply in_map_iff in Hp. destruct Hp as (mt & <- & Hmt).
    revert mt Hmt. unfold matchAll. apply matchAll_from_Forall_in.
    intros j mt E. now apply exec_bracedName in E.
  - intros H. apply NoOcc_includes in H. unfold packagesOf.
    rewrite matchAll_none; [reflexivity|].
    intros i. unfold LatexParser.packageRegex. now apply exec_literal_none.
Qed.

(** ** The shapes of an item *)
(* ================================================================== *)

(** X28: every item chunk has one of three shapes, one for each pattern
    family, and its title is the first capture of that family.  A
    subsection item reads [\subsection], an optional star, the title in
    braces and a rest with neither [\subsection] nor [\section] in it.  A
    list item reads [\item], white space, and a body with no [\item],
    [\end{itemize}] or [\end{enumerate}] in it; its title is the whole body
    (or "Item" when the body is empty).  An entry item reads [\cventry] and
    six braced fields; its title is the first field (or "Item" when that
    field is empty). *)
Theorem items_have_one_of_three_shapes (content0 parent : jsstring) :
  exists items,
    LatexParser.parseItems content0 parent = Some items /\
    Forall (fun it => subsectionShape it \/ listItemShape it \/ cventryShape it) items.
Proof.
  rewrite parseItems_spec. eexists. split; [reflexivity|].
  apply Forall_forall. intros it Hit. unfold itemsOf, mapi in Hit.
  apply In_mapi_from in Hit. destruct Hit as (mt & k & Hmt & ->).
  unfold itemMatches in Hmt. apply in_app_or in Hmt. destruct Hmt as [H|H].
  - left. now apply (subsection_match content0).
  - apply in_app_or in H. destruct H as [H|H].
    + right. left. now apply (listItem_match content0).
    + right. right. now apply (cventry_match content0).
Qed.

(** ** What the library's generator leaves out *)
(* ================================================================== *)

(** X29: the library's generator writes the active sections and, after
    each, the active chunks whose parent it is.  Every other chunk (an
    inactive one, or an item whose parent is not an active section of the
    list) leaves no trace: the text is the same without them. *)
Theorem generator_leaves_out_orphans
        (chunks standby : list ResumeChunk) (pre dc : jsstring) (pk : list jsstring) :
  LatexGenerator.generateLatex
    {| preamble := pre; activeChunks := filter (emitted chunks) chunks;
       standbyChunks := standby; documentClass := dc; packages := pk |}
  = LatexGenerator.generateLatex
      {| preamble := pre; activeChunks := chunks;
         standbyChunks := standby; documentClass := dc; packages := pk |}.
Proof.
  rewrite !generateLatex_shape. cbv zeta. cbn [preamble activeChunks].
  set (sorted := sortByOrder (filter isActive chunks)).
  assert (Hin : forall c, In c sorted -> In c chunks /\ isActive c = true).
  { intros c Hc. unfold sorted in Hc. apply In_sortByOrder in Hc.
    now apply filter_In in Hc. }
  assert (Es : sortByOrder (filter isActive (filter (emitted chunks) chunks))
               = filter (emitted chunks) sorted).
  { unfold sorted. rewrite filter_sortByOrder. f_equal.
    rewrite !filter_twice. apply filter_same. intros c _.
    unfold emitted. destruct (isActive c); cbn [andb]; [|reflexivity].
    now rewrite andb_true_r. }
  rewrite Es.
  assert (Esec : filter (fun c => ChunkType_eqb (type (chunk c)) section)
                        (filter (emitted chunks) sorted)
                 = filter (fun c => ChunkType_eqb (type (chunk c)) section) sorted).
  { rewrite filter_twice. apply filter_same. intros c Hc.
    destruct (Hin c Hc) as [_ Ha]. unfold emitted, isSectionChunk. rewrite Ha.
    destruct (ChunkType_eqb (type (chunk c)) section); reflexivity. }
  rewrite Esec. do 4 apply f_equal. apply (f_equal (fun x => x ++ END)). apply f_equal.
  apply map_ext_in. intros sec Hsec. apply filter_In in Hsec.
  destruct Hsec as [Hsec Htype]. destruct (Hin sec Hsec) as [Hsc Hsa].
  unfold blockOfR. apply f_equal. apply (f_equal (fun x => x ++ [LF; LF])).
  do 2 apply f_equal. rewrite filter_twice. apply filter_same. intros c Hc.
  destruct (isString (parentId (chunk c)) (id (chunk sec))) eqn:Ep; [|reflexivity].
  destruct (Hin c Hc) as [_ Ha]. unfold emitted. rewrite Ha. cbn [andb].
  apply orb_true_iff. right. apply existsb_exists.
  exists sec. split; [exact Hsc|]. unfold isSectionChunk. now rewrite Hsa, Htype, Ep.
Qed.

(* ================================================================== *)
(** ** The titles of the heuristic segmenter *)
(* ================================================================== *)

(** X30: the titles of the heuristic segmenter.  Where the host's case
    mappings act on ASCII letters and digits as ECMAScript says, a cleaned
    title is empty or made of capitalised words (letters and digits, the
    first no lower-case letter, the others no upper-case letters) with one
    space between them, the first word beginning with an upper-case letter;
    cleaning a cleaned title changes nothing; and every chunk of the
    segmenter, the fallback chunk included, has such a title. *)
Theorem section_titles_are_capitalised_words
        (toLowerCase toUpperCase : jsstring -> jsstring)
        (upper_ascii : forall s, Forall (fun c => isAlnum c = true) s ->
                                 toUpperCase s = asciiUpper s)
        (lower_ascii : forall s, Forall (fun c => isAlnum c = true) s ->
                                 toLowerCase s = asciiLower s) :
  (forall title,
     let r := PdfParser.cleanTitle toLowerCase toUpperCase title in
     titleShape r /\ PdfParser.cleanTitle toLowerCase toUpperCase r = r) /\
  (forall text,
     Forall (fun c => titleShape (title c))
            (PdfParser.parseTextToChunks toLowerCase toUpperCase text)).
Proof.
  split.
  - intros title r. assert (H := cleanTitle_words _ _ upper_ascii lower_ascii title).
    split; [exact H|]. now apply cleanTitle_fixed.
  - intros text. unfold PdfParser.parseTextToChunks. cbv zeta.
    set (st := PdfParser.flush toLowerCase toUpperCase _).
    assert (H : Forall (fun c => titleShape (title c)) (PdfParser.chunks st)).
    { apply created_titles; [|constructor]. intros t b k.
      apply (cleanTitle_words _ _ upper_ascii lower_ascii). }
    destruct (Nat.eqb (length (PdfParser.chunks st)) 0); [|exact H].
    apply Forall_app. split; [exact H|]. constructor; [|constructor].
    right. exists (ch "R"), (lit "esume"), [lit "Content"].
    split; [reflexivity|]. split; [reflexivity|].
    repeat constructor;
      (eexists _, _; split; [reflexivity|]; split; [reflexivity|];
       split; [reflexivity|]; repeat constructor).
Qed.

Lemma section_titles_are_capitalised_words_witness :
  PdfParser.cleanTitle asciiLower asciiUpper (lit "3. work EXPERIENCE & more:")
  = lit "Work Experience More" /\
  titleShape (lit "Work Experience More").
Proof.
  split; [reflexivity|].
  exact (proj1 (proj1 (section_titles_are_capitalised_words
                         asciiLower asciiUpper
                         (fun s _ => eq_refl) (fun s _ => eq_refl))
                      (lit "3. work EXPERIENCE & more:"))).
Defined.

